(** * MobileNetV3 with instance whitening: a shallow embedding of
      [network/MobilenetV3.py] and the properties of its plumbing.

    Tensors are abstracted to their shapes; Python objects that the code
    mutates in place (the [InvertedResidualConfig] records and the list
    used as whitening accumulator) live in an explicit store, so that
    aliasing is visible; [print] writes to a log kept in the same store. *)

From Stdlib Require Import ZArith Bool SpecFloat String List Lia.
From stdpp Require Import base option list gmap pretty.

Local Open Scope Z_scope.
Set Warnings "-register-all".

(** ** Python runtime: exceptions, values, the store *)

Inductive exn :=
| TypeError (msg : string)
| ValueError (msg : string)
| IndexError (msg : string)
| AttributeError (msg : string)
| RuntimeError (msg : string)
| ZeroDivisionError (msg : string)
| OverflowError (msg : string).

Inductive result (A : Type) :=
| Ok (a : A)
| Raise (e : exn).
Arguments Ok {A} a.
Arguments Raise {A} e.

Definition is_raise {A} (r : result A) : bool :=
  match r with Ok _ => false | Raise _ => true end.

Definition loc := nat.

(** A value handed between blocks.  [VSeq] is a tuple, or a list that this
    code only reads (the [[x, w_arr]] a block returns); [VRef] is a
    reference to a list object of the store, the only kind of object the
    forward passes mutate ([w_arr.append]). *)
Inductive value :=
| VNone
| VTensor (shape : list Z)
| VSeq (items : list value)
| VRef (l : loc).

Inductive activation_fn := ReLU | Hardswish | Hardsigmoid | Sigmoid.

(** The leaf [torch.nn] modules the file instantiates, with the
    constructor arguments it passes. *)
Inductive TorchModule :=
| Conv2d (in_channels out_channels kernel_size stride padding dilation groups : Z)
         (bias : bool)
| BatchNorm2d (num_features : Z)
| InstanceNorm2d (num_features : Z) (affine : bool)
| InstanceWhitening (dim : Z)
| Activation (f : activation_fn)
| EmptySequential
| AdaptiveAvgPool2d (output_size : Z)
| Linear (in_features out_features : Z)
| Dropout.

(** ** Python numbers

    A Python [float] is an IEEE 754 binary64 number: it is modelled by the
    standard library's specification of binary floating point at precision
    53, whose operations round to nearest, ties to even.  A Python [int]
    is unbounded. *)
Definition float := spec_float.

Inductive number :=
| Int (n : Z)
| Float (f : float).

Definition float_add : float -> float -> float := SFadd 53 1024.
Definition float_mul : float -> float -> float := SFmul 53 1024.

(** The double nearest to [m * 2^e]. *)
Definition float_round (m e : Z) : float := binary_normalize 53 1024 m e false.

(** The literals [0.9] and [1.0]. *)
Definition float_0_9 : float := S754_finite false 8106479329266893 (-53).
Definition float_1_0 : float := S754_finite false 4503599627370496 (-52).

(** [float(n)], which is also how an [int] operand of mixed arithmetic is
    converted. *)
Definition float_of_int (n : Z) : result float :=
  match float_round n 0 with
  | S754_infinity _ => Raise (OverflowError "int too large to convert to float")
  | f => Ok f
  end.

(** [n / 2] on an [int]: true division, correctly rounded. *)
Definition int_half (n : Z) : result float :=
  match float_round n (-1) with
  | S754_infinity _ => Raise (OverflowError "integer division result too large for a float")
  | f => Ok f
  end.

Definition to_float (v : number) : result float :=
  match v with
  | Int n => float_of_int n
  | Float f => Ok f
  end.

(** [int(f)]: truncation toward zero. *)
Definition int_of_float (f : float) : result Z :=
  match f with
  | S754_zero _ => Ok 0
  | S754_infinity _ => Raise (OverflowError "cannot convert float infinity to integer")
  | S754_nan => Raise (ValueError "cannot convert float NaN to integer")
  | S754_finite s m e =>
      Ok (cond_Zopp s (if 0 <=? e then Zpos m * 2 ^ e else Zpos m / 2 ^ (- e)))
  end.

(** [n < f] for an [int] and a [float]: Python compares the exact values. *)
Definition int_lt_float (n : Z) (f : float) : bool :=
  match f with
  | S754_nan => false
  | S754_infinity s => negb s
  | S754_zero _ => n <? 0
  | S754_finite s m e =>
      if 0 <=? e then n <? cond_Zopp s (Zpos m) * 2 ^ e
      else n * 2 ^ (- e) <? cond_Zopp s (Zpos m)
  end.

(** ** [_make_divisible]

    [v] is a [float] where the config calls it and an [int] where the
    block does.  [divisor / 2] is a true division; in [v + divisor / 2]
    and [0.9 * v] an [int] is converted to a double first; [int(.)]
    truncates toward zero and raises on an infinity or a NaN; [//] is
    floor division and raises on a zero divisor; [new_v < 0.9 * v]
    compares an [int] with a double. *)

Definition py_floordiv (a b : Z) : result Z :=
  if b =? 0 then Raise (ZeroDivisionError "integer division or modulo by zero")
  else Ok (a / b).

Definition _make_divisible (v : number) (divisor : Z) (min_value : option Z) : result Z :=
  let min_value := match min_value with None => divisor | Some m => m end in
  match int_half divisor with
  | Raise e => Raise e
  | Ok half =>
  match to_float v with
  | Raise e => Raise e
  | Ok fv =>
  match int_of_float (float_add fv half) with
  | Raise e => Raise e
  | Ok t =>
  match py_floordiv t divisor with
  | Raise e => Raise e
  | Ok q =>
      let new_v := Z.max min_value (q * divisor) in
      if int_lt_float new_v (float_mul float_0_9 fv)
      then Ok (new_v + divisor)
      else Ok new_v
  end end end end.

(** ** [InvertedResidualConfig]

    The record of fields [__init__] fills in.  Objects of the class are
    shared and assigned to after construction, so they are kept in the
    store and named by their location (see [new_config] below). *)
Module InvertedResidualConfig.

Record t := mk {
  input_channels : Z;
  kernel : Z;
  expanded_channels : Z;
  out_channels : Z;
  use_se : bool;
  use_hs : bool;
  stride : Z;
  dilation : Z;
  iw : Z
}.

(** [channels * width_mult] is the product of an [int] and a [float]. *)
Definition adjust_channels (channels : Z) (width_mult : float) : result Z :=
  match float_of_int channels with
  | Raise e => Raise e
  | Ok fc => _make_divisible (Float (float_mul fc width_mult)) 8 None
  end.

Definition __init__ (input_channels kernel expanded_channels out_channels : Z)
    (use_se : bool) (activation : string) (stride dilation : Z)
    (width_mult : float) (iw : Z) : result t :=
  match adjust_channels input_channels width_mult with
  | Raise e => Raise e
  | Ok ic =>
  match adjust_channels expanded_channels width_mult with
  | Raise e => Raise e
  | Ok ec =>
  match adjust_channels out_channels width_mult with
  | Raise e => Raise e
  | Ok oc =>
      Ok (mk ic kernel ec oc use_se (String.eqb activation "HS") stride dilation iw)
  end end end.

Definition set_iw (c : t) (v : Z) : t :=
  mk (input_channels c) (kernel c) (expanded_channels c) (out_channels c)
     (use_se c) (use_hs c) (stride c) (dilation c) v.

End InvertedResidualConfig.

(** ** The store and the monad of the embedding *)

Record world := World {
  configs : gmap loc InvertedResidualConfig.t;
  lists : gmap loc (list value);
  stdout : list string
}.

(** State and exception monad: an exception keeps the store as it was when
    it was raised (Python does not roll back). *)
Definition M (A : Type) : Type := world -> result A * world.

Definition ret {A} (a : A) : M A := fun w => (Ok a, w).
Definition raise {A} (e : exn) : M A := fun w => (Raise e, w).
Definition bind {A B} (m : M A) (k : A -> M B) : M B :=
  fun w => match m w with
           | (Ok a, w') => k a w'
           | (Raise e, w') => (Raise e, w')
           end.
Definition lift {A} (r : result A) : M A := fun w => (r, w).

Declare Scope py_scope.
Delimit Scope py_scope with py.
Notation "x <- c1 ;; c2" := (bind c1 (fun x => c2))
  (at level 100, c1 at next level, right associativity) : py_scope.
Notation "c1 ;;; c2" := (bind c1 (fun _ => c2))
  (at level 100, right associativity) : py_scope.
Local Open Scope py_scope.

Definition print (s : string) : M unit :=
  fun w => (Ok tt, World (configs w) (lists w) (stdout w ++ [s])).

(** A list object that was never written to is the empty list. *)
Definition read_list (l : loc) : M (list value) :=
  fun w => (Ok (default [] (lists w !! l)), w).

Definition write_list (l : loc) (vs : list value) : M unit :=
  fun w => (Ok tt, World (configs w) (<[l := vs]> (lists w)) (stdout w)).

(** Creating an [InvertedResidualConfig] object: a fresh location that
    holds the record built by [__init__]. *)
Definition new_config (r : result InvertedResidualConfig.t) : M loc :=
  fun w => match r with
           | Raise e => (Raise e, w)
           | Ok c => let l := fresh (dom (configs w)) in
                     (Ok l, World (<[l := c]> (configs w)) (lists w) (stdout w))
           end.

Definition read_config (l : loc) : M InvertedResidualConfig.t :=
  fun w => match configs w !! l with
           | Some c => (Ok c, w)
           | None => (Raise (AttributeError "no such object"), w)
           end.

(** [cnf.iw = v] *)
Definition assign_iw (l : loc) (v : Z) : M unit :=
  fun w => match configs w !! l with
           | Some c => (Ok tt, World (<[l := InvertedResidualConfig.set_iw c v]> (configs w))
                                     (lists w) (stdout w))
           | None => (Raise (AttributeError "no such object"), w)
           end.

(** ** Python operations on values *)

Definition py_len (v : value) : M Z :=
  match v with
  | VNone => raise (TypeError "object of type 'NoneType' has no len()")
  | VTensor [] => raise (TypeError "len() of a 0-d tensor")
  | VTensor (d :: _) => ret d
  | VSeq items => ret (Z.of_nat (length items))
  | VRef l => vs <- read_list l ;; ret (Z.of_nat (length vs))
  end.

Definition seq_item (vs : list value) (i : nat) : M value :=
  match vs !! i with
  | Some v => ret v
  | None => raise (IndexError "index out of range")
  end.

(** [v[i]] for the literal indices 0 and 1 the code uses. *)
Definition py_getitem (v : value) (i : nat) : M value :=
  match v with
  | VNone => raise (TypeError "'NoneType' object is not subscriptable")
  | VTensor [] => raise (IndexError "invalid index of a 0-dim tensor")
  | VTensor (d :: s) =>
      if Z.of_nat i <? d then ret (VTensor s)
      else raise (IndexError "index out of range")
  | VSeq items => seq_item items i
  | VRef l => vs <- read_list l ;; seq_item vs i
  end.

(** [target.append(v)]: only list objects have the method. *)
Definition py_append (target v : value) : M unit :=
  match target with
  | VRef l => vs <- read_list l ;; write_list l (vs ++ [v])
  | _ => raise (AttributeError "object has no attribute 'append'")
  end.

(** [a, b = v] *)
Definition unpack2 (v : value) : M (value * value) :=
  match v with
  | VNone => raise (TypeError "cannot unpack non-iterable NoneType object")
  | VTensor [] => raise (TypeError "iteration over a 0-d tensor")
  | VTensor (d :: s) =>
      if d =? 2 then ret (VTensor s, VTensor s)
      else raise (ValueError "wrong number of values to unpack")
  | VSeq [a; b] => ret (a, b)
  | VSeq _ => raise (ValueError "wrong number of values to unpack")
  | VRef l =>
      vs <- read_list l ;;
      match vs with
      | [a; b] => ret (a, b)
      | _ => raise (ValueError "wrong number of values to unpack")
      end
  end.

(** ** Shapes of the [torch] operations

    The library is outside the repository; its modules are modelled by
    the shape rules and the rank and channel checks of its documentation.
    Constructors are total here: the argument validation torch performs
    when a module is built, and checks that depend on the numbers held by
    a tensor, are left out. *)
Module Torch.

Definition conv_out (h kernel_size stride padding dilation : Z) : result Z :=
  let span := h + 2 * padding - dilation * (kernel_size - 1) - 1 in
  if (stride <=? 0) || (span <? 0)
  then Raise (RuntimeError "kernel does not fit the padded input")
  else Ok (span / stride + 1).

Definition conv2d_hw (h w k s p d : Z) : result (Z * Z) :=
  match conv_out h k s p d, conv_out w k s p d with
  | Ok h', Ok w' => Ok (h', w')
  | Raise e, _ => Raise e
  | _, Raise e => Raise e
  end.

Fixpoint broadcast_rev (a b : list Z) : option (list Z) :=
  match a, b with
  | [], _ => Some b
  | _, [] => Some a
  | x :: a', y :: b' =>
      match broadcast_rev a' b' with
      | None => None
      | Some r =>
          if x =? y then Some (x :: r)
          else if x =? 1 then Some (y :: r)
          else if y =? 1 then Some (x :: r)
          else None
      end
  end.

Definition broadcast (a b : list Z) : option (list Z) :=
  match broadcast_rev (rev a) (rev b) with
  | Some r => Some (rev r)
  | None => None
  end.

(** [a + b] and [a * b] on tensors. *)
Definition elementwise (a b : value) : result value :=
  match a, b with
  | VTensor sa, VTensor sb =>
      match broadcast sa sb with
      | Some s => Ok (VTensor s)
      | None => Raise (RuntimeError "the sizes of the tensors must match")
      end
  | _, _ => Raise (TypeError "unsupported operand type(s)")
  end.

Definition product (s : list Z) : Z := fold_right Z.mul 1 s.

(** [torch.flatten(x, 1)] *)
Definition flatten1 (x : value) : result value :=
  match x with
  | VTensor [] => Raise (IndexError "dimension out of range")
  | VTensor (n :: s) => Ok (VTensor (match s with [] => [n] | _ => [n; product s] end))
  | _ => Raise (TypeError "flatten(): argument 'input' must be Tensor")
  end.

Definition replace_last (s : list Z) (d : Z) : list Z :=
  removelast s ++ [d].

(** [module(x)] for a leaf module. *)
Definition call (m : TorchModule) (x : value) : result value :=
  match m with
  | EmptySequential => Ok x
  | Conv2d cin cout k s p d _ _ =>
      match x with
      | VTensor [n; c; h; w] =>
          if c =? cin then
            match conv2d_hw h w k s p d with
            | Ok (h', w') => Ok (VTensor [n; cout; h'; w'])
            | Raise e => Raise e
            end
          else Raise (RuntimeError "input channels do not match the weight")
      | VTensor [c; h; w] =>
          if c =? cin then
            match conv2d_hw h w k s p d with
            | Ok (h', w') => Ok (VTensor [cout; h'; w'])
            | Raise e => Raise e
            end
          else Raise (RuntimeError "input channels do not match the weight")
      | VTensor _ => Raise (RuntimeError "expected 3D or 4D input to conv2d")
      | _ => Raise (TypeError "conv2d(): argument 'input' must be Tensor")
      end
  | BatchNorm2d nf =>
      match x with
      | VTensor [n; c; h; w] =>
          if c =? nf then Ok x
          else Raise (RuntimeError "running_mean has the wrong number of elements")
      | VTensor _ => Raise (ValueError "expected 4D input")
      | _ => Raise (AttributeError "object has no attribute 'dim'")
      end
  | InstanceNorm2d nf affine =>
      match x with
      | VTensor [n; c; h; w] =>
          if (c =? nf) || negb affine then Ok x
          else Raise (ValueError "expected input's size at dim=1 to match num_features")
      | VTensor [c; h; w] =>
          if (c =? nf) || negb affine then Ok x
          else Raise (ValueError "expected input's size at dim=0 to match num_features")
      | VTensor _ => Raise (ValueError "expected 3D or 4D input")
      | _ => Raise (AttributeError "object has no attribute 'dim'")
      end
  | InstanceWhitening dim =>
      (* Modelled from the spec: network/instance_whitening.py is not
         among the sources.  Modes 1 and 2 normalise the per-instance
         statistics (the shape is kept) and return the pair of the
         normalised tensor and an auxiliary matrix, taken here as one
         covariance matrix per instance. *)
      match x with
      | VTensor [n; c; h; w] => Ok (VSeq [x; VTensor [n; c; c]])
      | VTensor _ => Raise (ValueError "expected 4D input")
      | _ => Raise (AttributeError "object has no attribute 'dim'")
      end
  | Activation _ =>
      match x with
      | VTensor _ => Ok x
      | _ => Raise (TypeError "argument 'input' must be Tensor")
      end
  | AdaptiveAvgPool2d o =>
      match x with
      | VTensor [n; c; _; _] => Ok (VTensor [n; c; o; o])
      | VTensor [c; _; _] => Ok (VTensor [c; o; o])
      | VTensor _ => Raise (ValueError "expected 3D or 4D input")
      | _ => Raise (TypeError "argument 'input' must be Tensor")
      end
  | Linear fin fout =>
      match x with
      | VTensor s =>
          match last s with
          | None => Raise (RuntimeError "input must have at least one dimension")
          | Some d =>
              if d =? fin then Ok (VTensor (replace_last s fout))
              else Raise (RuntimeError "shapes cannot be multiplied")
          end
      | _ => Raise (TypeError "linear(): argument 'input' must be Tensor")
      end
  | Dropout =>
      match x with
      | VTensor _ => Ok x
      | _ => Raise (TypeError "dropout(): argument 'input' must be Tensor")
      end
  end.

End Torch.

Definition call (m : TorchModule) (x : value) : M value := lift (Torch.call m x).

(** The whitening step that closes each block-level [forward]:
<<
    if self.iw >= 1:
        if self.iw == 1 or self.iw == 2:
            x, w = self.instance_norm_layer(x)
            w_arr.append(w)
        else:
            x = self.instance_norm_layer(x)
>> *)
Definition whitening_step (iw : Z) (instance_norm_layer : TorchModule)
    (x w_arr : value) : M value :=
  if 1 <=? iw then
    if (iw =? 1) || (iw =? 2) then
      r <- call instance_norm_layer x ;;
      xw <- unpack2 r ;;
      py_append w_arr (snd xw) ;;;
      ret (fst xw)
    else call instance_norm_layer x
  else ret x.

(** ** [SqueezeExcitation] *)
Module SqueezeExcitation.

Record t := mk {
  avgpool : TorchModule;
  fc1 : TorchModule;
  fc2 : TorchModule;
  activation : TorchModule;
  scale_activation : TorchModule;
  iw : Z;
  instance_norm_layer : TorchModule
}.

Definition __init__ (input_channels squeeze_channels : Z)
    (activation : TorchModule) (scale_activation : activation_fn) (iw : Z) : t :=
  mk (AdaptiveAvgPool2d 1)
     (Conv2d input_channels squeeze_channels 1 1 0 1 1 true)
     (Conv2d squeeze_channels input_channels 1 1 0 1 1 true)
     activation
     (Activation scale_activation)
     iw
     (if iw =? 1 then InstanceWhitening squeeze_channels
      else if iw =? 2 then InstanceWhitening squeeze_channels
      else if iw =? 3 then InstanceNorm2d squeeze_channels false
      else if iw =? 4 then InstanceNorm2d squeeze_channels true
      else EmptySequential).

Definition _scale (self : t) (inp : value) : M value :=
  scale <- call (avgpool self) inp ;;
  scale <- call (fc1 self) scale ;;
  scale <- call (activation self) scale ;;
  scale <- call (fc2 self) scale ;;
  scale <- call (instance_norm_layer self) scale ;;
  call (scale_activation self) scale.

Definition forward (self : t) (x_tuple : value) : M value :=
  n <- py_len x_tuple ;;
  if n =? 2 then
    x <- py_getitem x_tuple 0 ;;
    w_arr <- py_getitem x_tuple 1 ;;
    scale <- _scale self x ;;
    scale <- whitening_step (iw self) (instance_norm_layer self) scale w_arr ;;
    y <- lift (Torch.elementwise scale x) ;;
    ret (VSeq [y; w_arr])
  else
    print "error in SE" ;;;
    ret VNone.

End SqueezeExcitation.

(** ** [nn.Module] bookkeeping

    A module keeps its submodules in the ordered dictionary [_modules].
    [nn.Sequential.__init__] enters its arguments under the keys "0", "1",
    ...; assigning a module to an attribute ([self.name = module]) enters
    it under the attribute's name as well, at the end when the name is new.
    [len] and iteration of an [nn.Sequential] go over all the entries. *)
Definition module_dict := list (string * TorchModule).

Definition sequential_init (args : list TorchModule) : module_dict :=
  imap (fun i m => (pretty i, m)) args.

Fixpoint set_module (name : string) (m : TorchModule) (d : module_dict) : module_dict :=
  match d with
  | [] => [(name, m)]
  | (k, m') :: d' =>
      if String.eqb k name then (k, m) :: d' else (k, m') :: set_module name m d'
  end.

Fixpoint get_module (name : string) (d : module_dict) : option TorchModule :=
  match d with
  | [] => None
  | (k, m) :: d' => if String.eqb k name then Some m else get_module name d'
  end.

(** ** [ConvNormActivation] *)
Module ConvNormActivation.

Record t := mk {
  _modules : module_dict;
  iw : Z
}.

(** [self.instance_norm_layer] *)
Definition instance_norm_layer (self : t) : M TorchModule :=
  match get_module "instance_norm_layer" (_modules self) with
  | Some m => ret m
  | None => raise (AttributeError "object has no attribute 'instance_norm_layer'")
  end.

Definition __init__ (in_planes out_planes kernel_size stride groups dilation : Z)
    (norm_layer : option (Z -> TorchModule))
    (activation_layer : option TorchModule) (iw : Z) : t :=
  let padding := (kernel_size - 1) / 2 in
  let norm_layer := match norm_layer with None => BatchNorm2d | Some f => f end in
  let instance_norm_layer :=
    if iw =? 1 then InstanceWhitening out_planes
    else if iw =? 2 then InstanceWhitening out_planes
    else if iw =? 3 then InstanceNorm2d out_planes false
    else if iw =? 4 then InstanceNorm2d out_planes true
    else EmptySequential in
  let conv := Conv2d in_planes out_planes kernel_size stride padding dilation groups false in
  let children :=
    match activation_layer with
    | None => sequential_init [conv; norm_layer out_planes; instance_norm_layer]
    | Some act => sequential_init [conv; norm_layer out_planes; act; instance_norm_layer]
    end in
  mk (set_module "instance_norm_layer" instance_norm_layer children) iw.

(** The body of [for i, module in enumerate(self)], from index [i] on. *)
Fixpoint loop (self : t) (i : Z) (rest : module_dict) (x w_arr : value) : M value :=
  match rest with
  | [] => ret x
  | (_, module) :: rest' =>
      x <- (if i =? Z.of_nat (length (_modules self)) - 1
            then
              if 1 <=? iw self then
                if (iw self =? 1) || (iw self =? 2) then
                  layer <- instance_norm_layer self ;;
                  r <- call layer x ;;
                  xw <- unpack2 r ;;
                  py_append w_arr (snd xw) ;;;
                  ret (fst xw)
                else
                  layer <- instance_norm_layer self ;;
                  call layer x
              else ret x
            else call module x) ;;
      loop self (i + 1) rest' x w_arr
  end.

Definition forward (self : t) (x_tuple : value) : M value :=
  n <- py_len x_tuple ;;
  if n =? 2 then
    w_arr <- py_getitem x_tuple 1 ;;
    x <- py_getitem x_tuple 0 ;;
    x <- loop self 0 (_modules self) x w_arr ;;
    ret (VSeq [x; w_arr])
  else
    print "error in BN forward path" ;;;
    ret VNone.

End ConvNormActivation.

(** The members of an inverted residual block's [conv] sequence. *)
Inductive conv_layer :=
| CNA (m : ConvNormActivation.t)
| SE (m : SqueezeExcitation.t).

Definition conv_layer_forward (m : conv_layer) (x_tuple : value) : M value :=
  match m with
  | CNA c => ConvNormActivation.forward c x_tuple
  | SE s => SqueezeExcitation.forward s x_tuple
  end.

(** What [print(module)] writes is abstracted to the module's class name. *)
Definition conv_layer_repr (m : conv_layer) : string :=
  match m with
  | CNA _ => "ConvNormActivation"
  | SE _ => "SqueezeExcitation"
  end.

(** [seq[i]] on an [nn.Sequential] *)
Definition sequential_getitem {A} (layers : list A) (i : nat) : M A :=
  match layers !! i with
  | Some m => ret m
  | None => raise (IndexError "index out of range")
  end.

(** ** [InvertedResidual] *)
Module InvertedResidual.

Import InvertedResidualConfig.

Record t := mk {
  use_res_connect : bool;
  cnf : loc;
  iw : Z;
  expand_ratio : Z;
  instance_norm_layer : TorchModule;
  conv : list conv_layer;
  out_channels : Z;
  _is_cn : bool
}.

(** The default [se_layer]:
    [partial(SqueezeExcitation, scale_activation=nn.Hardsigmoid)]. *)
Definition default_se_layer (input_channels squeeze_channels : Z) : SqueezeExcitation.t :=
  SqueezeExcitation.__init__ input_channels squeeze_channels
    (Activation ReLU) Hardsigmoid 0.

Definition __init__ (cnf : loc) (norm_layer : Z -> TorchModule)
    (se_layer : Z -> Z -> SqueezeExcitation.t) : M t :=
  c <- read_config cnf ;;
  if negb ((1 <=? stride c) && (stride c <=? 2))
  then raise (ValueError "illegal stride value")
  else
    let use_res_connect :=
      (stride c =? 1) && (input_channels c =? InvertedResidualConfig.out_channels c) in
    let activation_layer := if use_hs c then Activation Hardswish else Activation ReLU in
    let layers : list conv_layer := [] in
    (* expand *)
    let layers :=
      if negb (expanded_channels c =? input_channels c)
      then layers ++ [CNA (ConvNormActivation.__init__
                            (input_channels c) (expanded_channels c) 1 1 1 1
                            (Some norm_layer) (Some activation_layer)
                            (InvertedResidualConfig.iw c))]
      else layers in
    (* depthwise *)
    let stride := if 1 <? dilation c then 1 else stride c in
    let layers :=
      layers ++ [CNA (ConvNormActivation.__init__
                        (expanded_channels c) (expanded_channels c) (kernel c) stride
                        (expanded_channels c) (dilation c)
                        (Some norm_layer) (Some activation_layer)
                        (InvertedResidualConfig.iw c))] in
    layers <- (if use_se c then
                 squeeze_channels <-
                   lift (_make_divisible (Int (expanded_channels c / 4)) 8 None) ;;
                 ret (layers ++ [SE (se_layer (expanded_channels c) squeeze_channels)])
               else ret layers) ;;
    (* project *)
    let layers :=
      layers ++ [CNA (ConvNormActivation.__init__
                        (expanded_channels c) (InvertedResidualConfig.out_channels c)
                        1 1 1 1 (Some norm_layer) None
                        (InvertedResidualConfig.iw c))] in
    let instance_norm_layer :=
      if InvertedResidualConfig.iw c =? 1
      then InstanceWhitening (InvertedResidualConfig.out_channels c)
      else if InvertedResidualConfig.iw c =? 2
      then InstanceWhitening (InvertedResidualConfig.out_channels c)
      else if InvertedResidualConfig.iw c =? 3
      then InstanceNorm2d (InvertedResidualConfig.out_channels c) false
      else if InvertedResidualConfig.iw c =? 4
      then InstanceNorm2d (InvertedResidualConfig.out_channels c) false
      else EmptySequential in
    ret (mk use_res_connect cnf (InvertedResidualConfig.iw c) (expanded_channels c)
            instance_norm_layer layers (InvertedResidualConfig.out_channels c)
            (1 <? InvertedResidualConfig.stride c)).

(** [print(self.conv[i]); x_tuple = self.conv[i](x_tuple)] *)
Definition stage (self : t) (i : nat) (x_tuple : value) : M value :=
  m <- sequential_getitem (conv self) i ;;
  print (conv_layer_repr m) ;;;
  m <- sequential_getitem (conv self) i ;;
  conv_layer_forward m x_tuple.

Definition forward (self : t) (x_tuple : value) : M value :=
  n <- py_len x_tuple ;;
  if n =? 2 then
    x <- py_getitem x_tuple 0 ;;
    c <- read_config (cnf self) ;;
    x_tuple <-
      (if negb (expanded_channels c =? input_channels c) then
         x_tuple <- stage self 0 x_tuple ;;
         x_tuple <- stage self 1 x_tuple ;;
         x_tuple <- stage self 2 x_tuple ;;
         if 3 <? Z.of_nat (length (conv self))
         then m <- sequential_getitem (conv self) 3 ;; conv_layer_forward m x_tuple
         else ret x_tuple
       else
         x_tuple <- stage self 0 x_tuple ;;
         x_tuple <- stage self 1 x_tuple ;;
         stage self 2 x_tuple) ;;
    conv_x <- py_getitem x_tuple 0 ;;
    w_arr <- py_getitem x_tuple 1 ;;
    x <- (if use_res_connect self then lift (Torch.elementwise x conv_x)
          else ret conv_x) ;;
    x <- whitening_step (iw self) (instance_norm_layer self) x w_arr ;;
    ret (VSeq [x; w_arr])
  else
    print "error in invert residual forward path" ;;;
    ret VNone.

End InvertedResidual.

(** The members of the network's [features] sequence. *)
Inductive feature_layer :=
| FConv (m : ConvNormActivation.t)
| FBlock (m : InvertedResidual.t).

Definition feature_layer_forward (m : feature_layer) (x : value) : M value :=
  match m with
  | FConv c => ConvNormActivation.forward c x
  | FBlock b => InvertedResidual.forward b x
  end.

(** [nn.Sequential.forward]: each module is applied to what the one before
    it returned. *)
Fixpoint sequential_forward {A} (fwd : A -> value -> M value)
    (layers : list A) (input : value) : M value :=
  match layers with
  | [] => ret input
  | module :: rest => input <- fwd module input ;; sequential_forward fwd rest input
  end.

(** ** [MobileNetV3] *)

(** [xs[i]] on a Python list of integers, for an index that is not negative. *)
Definition list_getitem (xs : list Z) (i : nat) : M Z :=
  match xs !! i with
  | Some v => ret v
  | None => raise (IndexError "list index out of range")
  end.

(** [xs.index(v)] *)
Fixpoint list_index (v : Z) (xs : list Z) : option nat :=
  match xs with
  | [] => None
  | x :: xs' => if x =? v then Some O else option_map S (list_index v xs')
  end.

Module MobileNetV3.

Record t := mk {
  features : list feature_layer;
  avgpool : TorchModule;
  classifier : list TorchModule
}.

Definition iw_layer : list Z := [0; 2; 7; 11; 12].

(** [for cnf in inverted_residual_setting: ...], from the config at
    which [feature_count] has the given value on. *)
Fixpoint build_blocks (norm_layer : Z -> TorchModule) (iw : list Z)
    (setting : list loc) (feature_count : Z) (layers : list feature_layer)
    : M (list feature_layer) :=
  match setting with
  | [] => ret layers
  | cnf :: rest =>
      let feature_count := feature_count + 1 in
      match list_index feature_count iw_layer with
      | Some layer =>
          v <- list_getitem iw (layer + 2) ;;
          assign_iw cnf v ;;;
          b <- InvertedResidual.__init__ cnf norm_layer InvertedResidual.default_se_layer ;;
          build_blocks norm_layer iw rest feature_count (layers ++ [FBlock b])
      | None =>
          assign_iw cnf 0 ;;;
          b <- InvertedResidual.__init__ cnf norm_layer InvertedResidual.default_se_layer ;;
          build_blocks norm_layer iw rest feature_count (layers ++ [FBlock b])
      end
  end.

Definition default_iw : list Z := [0; 0; 0; 0; 0; 0; 0].

(** [block] is the default [InvertedResidual]; the list of configs is
    typed, so the [TypeError] of a mistyped list cannot arise.  The
    closing loop over [self.modules()] only initialises weights. *)
Definition __init__ (inverted_residual_setting : list loc)
    (last_channel num_classes : Z) (norm_layer : option (Z -> TorchModule))
    (iw : list Z) : M t :=
  match inverted_residual_setting with
  | [] => raise (ValueError "The inverted_residual_setting should not be empty")
  | first :: _ =>
      let norm_layer := match norm_layer with None => BatchNorm2d | Some f => f end in
      c0 <- read_config first ;;
      let firstconv_output_channels := InvertedResidualConfig.input_channels c0 in
      let layers :=
        [FConv (ConvNormActivation.__init__ 3 firstconv_output_channels 3 2 1 1
                  (Some norm_layer) (Some (Activation Hardswish)) 0)] in
      layers <- build_blocks norm_layer iw inverted_residual_setting 0 layers ;;
      cl <- read_config (List.last inverted_residual_setting first) ;;
      let lastconv_input_channels := InvertedResidualConfig.out_channels cl in
      let lastconv_output_channels := 6 * lastconv_input_channels in
      let layers :=
        layers ++
        [FConv (ConvNormActivation.__init__ lastconv_input_channels
                  lastconv_output_channels 1 1 1 1
                  (Some norm_layer) (Some (Activation Hardswish)) 0)] in
      ret (mk layers (AdaptiveAvgPool2d 1)
              [Linear lastconv_output_channels last_channel;
               Activation Hardswish;
               Dropout;
               Linear last_channel num_classes])
  end.

Definition _forward_impl (self : t) (x : value) : M value :=
  x <- sequential_forward feature_layer_forward (features self) x ;;
  x <- call (avgpool self) x ;;
  x <- lift (Torch.flatten1 x) ;;
  sequential_forward call (classifier self) x.

Definition forward (self : t) (x : value) : M value := _forward_impl self x.

End MobileNetV3.

(** ** [_mobilenet_v3_conf] *)
Definition _mobilenet_v3_conf (arch : string) (width_mult : float) (iw : Z)
    (reduced_tail dilated : bool) : M (list loc * Z) :=
  let reduce_divider := if reduced_tail then 2 else 1 in
  let dilation := if dilated then 2 else 1 in
  let bneck_conf ic k ec oc se act s d :=
    new_config (InvertedResidualConfig.__init__ ic k ec oc se act s d width_mult iw) in
  let adjust_channels c := InvertedResidualConfig.adjust_channels c width_mult in
  if String.eqb arch "mobilenet_v3_small" then
    c1 <- bneck_conf 16 3 16 16 true "RE" 2 1 ;;
    c2 <- bneck_conf 16 3 72 24 false "RE" 2 1 ;;
    c3 <- bneck_conf 24 3 88 24 false "RE" 1 1 ;;
    c4 <- bneck_conf 24 5 96 40 true "HS" 2 1 ;;
    c5 <- bneck_conf 40 5 240 40 true "HS" 1 1 ;;
    c6 <- bneck_conf 40 5 240 40 true "HS" 1 1 ;;
    c7 <- bneck_conf 40 5 120 48 true "HS" 1 1 ;;
    c8 <- bneck_conf 48 5 144 48 true "HS" 1 1 ;;
    c9 <- bneck_conf 48 5 288 (96 / reduce_divider) true "HS" 2 dilation ;;
    c10 <- bneck_conf (96 / reduce_divider) 5 (576 / reduce_divider)
             (96 / reduce_divider) true "HS" 1 dilation ;;
    c11 <- bneck_conf (96 / reduce_divider) 5 (576 / reduce_divider)
             (96 / reduce_divider) true "HS" 1 dilation ;;
    last_channel <- lift (adjust_channels (1024 / reduce_divider)) ;;
    ret ([c1; c2; c3; c4; c5; c6; c7; c8; c9; c10; c11], last_channel)
  else raise (ValueError "Unsupported model type").

Definition empty_world : world := World ∅ ∅ [].

(** ** Auxiliary notions for the statements *)

(** [preserves f m]: running [m] leaves the component [f] of the store as
    it was, whether [m] returns or raises. *)
Definition preserves {X A} (f : world -> X) (m : M A) : Prop :=
  forall w, f (snd (m w)) = f w.

(** Sample objects on which the general statements are instantiated: the
    first bottleneck of the small architecture and a residual one. *)
Definition sample_config (stride iw : Z) : InvertedResidualConfig.t :=
  InvertedResidualConfig.mk 16 3 16 16 true false stride 1 iw.

Definition sample_world (stride iw : Z) : world :=
  World {[ 0%nat := sample_config stride iw ]} ∅ [].




Definition log (w : world) (s : string) : world :=
  World (configs w) (lists w) (stdout w ++ [s]).

(** The width of a block's squeeze-excitation stage is computed when the
    block is built, from the expanded width of the config: the
    computation is defined when the channel adjuster returns on it (it
    raises [OverflowError] on a width too large for a double). *)
Definition squeeze_defined (c : InvertedResidualConfig.t) : Prop :=
  InvertedResidualConfig.use_se c = true ->
  exists q,
    _make_divisible (Int (InvertedResidualConfig.expanded_channels c / 4)) 8 None = Ok q.

(** A config the assembler can build a block from. *)
Definition valid_config (w : world) (l : loc) : Prop :=
  exists c, configs w !! l = Some c
    /\ (InvertedResidualConfig.stride c = 1 \/ InvertedResidualConfig.stride c = 2)
    /\ squeeze_defined c.

(** The config objects of the store with their [iw] field blanked: two
    stores agree on it when they hold the same objects with the same
    fields, [iw] apart. *)
Definition configs_but_iw (w : world) : gmap loc InvertedResidualConfig.t :=
  (fun c => InvertedResidualConfig.set_iw c 0) <$> configs w.

(** The mode the assembly loop assigns at a value of [feature_count]. *)
Definition assigned_mode (iw : list Z) (feature_count : Z) : Z :=
  match list_index feature_count MobileNetV3.iw_layer with
  | Some layer => default 0 (iw !! (layer + 2)%nat)
  | None => 0
  end.

(** The small architecture as [mobilenet_v3] assembles it (width 1.0, no
    reduced tail, no dilation, 1000 classes), with a given selector. *)
Definition small_model (iw : list Z) : M MobileNetV3.t :=
  sl <- _mobilenet_v3_conf "mobilenet_v3_small" float_1_0 0 false false ;;
  MobileNetV3.__init__ (fst sl) (snd sl) 1000 None iw.

(** [model.features(x)] *)
Definition features_forward (model : MobileNetV3.t) (x : value) : M value :=
  sequential_forward feature_layer_forward (MobileNetV3.features model) x.

(** The store and the config list that [_mobilenet_v3_conf] produces for
    the small architecture from an empty store. *)
Definition small_world : world :=
  snd (_mobilenet_v3_conf "mobilenet_v3_small" float_1_0 0 false false empty_world).

Definition small_setting : list loc :=
  [0; 1; 2; 3; 4; 5; 6; 7; 8; 9; 10]%nat.

(** The whitening modes of the Conv-Norm-Activation stages of a block, in
    order. *)
Definition cna_modes (b : InvertedResidual.t) : list Z :=
  omap (fun m => match m with
                 | CNA c => Some (ConvNormActivation.iw c)
                 | SE _ => None
                 end) (InvertedResidual.conv b).

(** The number of blocks of a network whose whitening mode is 1 or 2. *)
Definition whitened_blocks (model : MobileNetV3.t) : nat :=
  length (List.filter
            (fun l => match l with
                      | FBlock b => (InvertedResidual.iw b =? 1) || (InvertedResidual.iw b =? 2)
                      | FConv _ => false
                      end)
            (MobileNetV3.features model)).

(** The accumulator a caller hands to a forward pass, as the store has it. *)
Definition accumulator (w : world) (l : loc) : list value := default [] (lists w !! l).

(** A batch of one 224 x 224 RGB image paired with the accumulator at
    location 0. *)
Definition image_pair : value := VSeq [VTensor [1; 3; 224; 224]; VRef 0%nat].

(** The store and the config list of the small architecture with dilation. *)
Definition dilated_world : world :=
  snd (_mobilenet_v3_conf "mobilenet_v3_small" float_1_0 0 false true empty_world).

(** What a computation can return, what it can never do, and how it may
    change the accumulators. *)
Definition returns_only {A} (P : A -> Prop) (m : M A) : Prop :=
  forall w a w', m w = (Ok a, w') -> P a.

Definition never_returns {A} (m : M A) : Prop :=
  forall w, is_raise (fst (m w)) = true.

Definition append_only {A} (m : M A) : Prop :=
  forall w l, accumulator w l `prefix_of` accumulator (snd (m w)) l.


(** The normalisation a Conv-Norm-Activation stage selects for a mode. *)
Definition mode_layer (iw planes : Z) : TorchModule :=
  if iw =? 1 then InstanceWhitening planes
  else if iw =? 2 then InstanceWhitening planes
  else if iw =? 3 then InstanceNorm2d planes false
  else if iw =? 4 then InstanceNorm2d planes true
  else EmptySequential.

(** Results of the block-level forwards: a pair that carries a given
    accumulator, any pair, or [None] or a pair. *)
Definition pair_with (acc : value) (v : value) : Prop := exists y, v = VSeq [y; acc].

Definition is_pair (v : value) : Prop := exists a b, v = VSeq [a; b].

Definition none_or_pair (v : value) : Prop := v = VNone \/ is_pair v.

(** The stages [InvertedResidual.__init__] puts in [conv] for a config,
    given the squeeze-excitation stage it built, if any. *)
Definition block_stages (c : InvertedResidualConfig.t) (nl : Z -> TorchModule)
    (se : option SqueezeExcitation.t) : list conv_layer :=
  let act := if InvertedResidualConfig.use_hs c then Activation Hardswish else Activation ReLU in
  (if negb (InvertedResidualConfig.expanded_channels c =? InvertedResidualConfig.input_channels c)
   then [CNA (ConvNormActivation.__init__
                (InvertedResidualConfig.input_channels c)
                (InvertedResidualConfig.expanded_channels c) 1 1 1 1
                (Some nl) (Some act) (InvertedResidualConfig.iw c))]
   else [])
  ++ [CNA (ConvNormActivation.__init__
             (InvertedResidualConfig.expanded_channels c)
             (InvertedResidualConfig.expanded_channels c)
             (InvertedResidualConfig.kernel c)
             (if 1 <? InvertedResidualConfig.dilation c
              then 1 else InvertedResidualConfig.stride c)
             (InvertedResidualConfig.expanded_channels c)
             (InvertedResidualConfig.dilation c)
             (Some nl) (Some act) (InvertedResidualConfig.iw c))]
  ++ match se with Some s => [SE s] | None => [] end
  ++ [CNA (ConvNormActivation.__init__
             (InvertedResidualConfig.expanded_channels c)
             (InvertedResidualConfig.out_channels c) 1 1 1 1
             (Some nl) None (InvertedResidualConfig.iw c))].

(** The normalisation an inverted residual block selects for a mode. *)
Definition block_mode_layer (iw planes : Z) : TorchModule :=
  if iw =? 1 then InstanceWhitening planes
  else if iw =? 2 then InstanceWhitening planes
  else if iw =? 3 then InstanceNorm2d planes false
  else if iw =? 4 then InstanceNorm2d planes false
  else EmptySequential.

(** The block [InvertedResidual.__init__] returns for a config. *)
Definition built_block (l : loc) (c : InvertedResidualConfig.t) (nl : Z -> TorchModule)
    (se : option SqueezeExcitation.t) : InvertedResidual.t :=
  InvertedResidual.mk
    ((InvertedResidualConfig.stride c =? 1)
     && (InvertedResidualConfig.input_channels c =? InvertedResidualConfig.out_channels c))
    l (InvertedResidualConfig.iw c) (InvertedResidualConfig.expanded_channels c)
    (block_mode_layer (InvertedResidualConfig.iw c) (InvertedResidualConfig.out_channels c))
    (block_stages c nl se)
    (InvertedResidualConfig.out_channels c)
    (1 <? InvertedResidualConfig.stride c).


(** ** Auxiliary notions for doubles

    The value [m * 2^e] of a mantissa and an exponent is compared through
    an integer, its multiple by a fixed power of two below every exponent
    that occurs. *)
Definition scale_base : Z := -2200.
Definition scaled (m e : Z) : Z := m * 2 ^ (e - scale_base).

Definition canonical (m e : Z) : Prop := fexp 53 1024 (Zdigits2 m + e) = e.

(** The first stage of rounding: the mantissa [M] at exponent [e] is
    brought to the exponent [e + k] and rounded to an integer there. *)
Definition round_shift (M e k : Z) : Z * Z :=
  let '(mrs, e') := shr (shr_record_of_loc M loc_Exact) e k in
  (round_nearest_even (shr_m mrs) (loc_of_shr_record mrs), e').

(** The float of a mantissa and an exponent, once rounded. *)
Definition float_pack (s : bool) (m e : Z) : float :=
  match m with
  | Z0 => S754_zero s
  | Zpos p => if e <=? 1024 - 53 then S754_finite s p e else S754_infinity s
  | Zneg _ => S754_nan
  end.

Definition valid_float (f : float) : Prop := valid_binary 53 1024 f = true.

Definition float_finite (f : float) : bool :=
  match f with
  | S754_zero _ | S754_finite _ _ _ => true
  | _ => false
  end.

(** Finite and not below zero. *)
Definition float_nonneg (f : float) : Prop :=
  match f with
  | S754_zero _ | S754_finite false _ _ => True
  | _ => False
  end.

(** The scaled value of a finite float. *)
Definition fscaled (f : float) : Z :=
  match f with
  | S754_finite s m e => cond_Zopp s (scaled (Zpos m) e)
  | _ => 0
  end.

(** A number that is not negative: an [int] that is at least 0, or a
    double that is zero, positive or the positive infinity. *)
Definition number_nonneg (v : number) : Prop :=
  match v with
  | Int n => 0 <= n
  | Float f => valid_float f /\ (float_nonneg f \/ f = S754_infinity false)
  end.

(** [v <= n] for a number and an [int]. *)
Definition number_le (v : number) (n : Z) : bool :=
  match v with
  | Int k => k <=? n
  | Float f => negb (int_lt_float n f)
  end.


(** A width multiplier between 0 and [2 ^ 511]: with a channel count in
    the same range the product is within the doubles. *)
Definition width_in_range (wm : float) : Prop :=
  valid_float wm /\ float_nonneg wm /\ int_lt_float (2 ^ 511) wm = false.
(** * Properties *)

(** ** Rounding to binary64 *)

Lemma fexp_spec (z : Z) : fexp 53 1024 z = Z.max (z - 53) (-1074).
Proof. reflexivity. Qed.

Lemma Zdigits2_log2 (n : Z) : 0 < n -> Zdigits2 n = Z.log2 n + 1.
Proof.
  destruct n as [|p|p]; try lia. intros _. cbn [Zdigits2].
  induction p as [p IH|p IH|].
  - cbn [digits2_pos]. rewrite Pos2Z.inj_succ, IH.
    rewrite Pos2Z.inj_xI. rewrite Z.log2_succ_double by lia. lia.
  - cbn [digits2_pos]. rewrite Pos2Z.inj_succ, IH.
    rewrite Pos2Z.inj_xO. rewrite Z.log2_double by lia. lia.
  - reflexivity.
Qed.

Lemma Zdigits2_bounds (n : Z) :
  0 < n -> 2 ^ (Zdigits2 n - 1) <= n < 2 ^ Zdigits2 n.
Proof.
  intros H. rewrite Zdigits2_log2 by exact H.
  pose proof (Z.log2_spec n H). replace (Z.log2 n + 1 - 1) with (Z.log2 n) by lia.
  replace (Z.log2 n + 1) with (Z.succ (Z.log2 n)) by lia. lia.
Qed.

Lemma Zdigits2_pos (n : Z) : 0 < n -> 0 < Zdigits2 n.
Proof. intros H. rewrite Zdigits2_log2 by exact H. pose proof (Z.log2_nonneg n). lia. Qed.

Lemma Zdigits2_mono (a b : Z) : 0 < a -> a <= b -> Zdigits2 a <= Zdigits2 b.
Proof.
  intros Ha Hab. rewrite !Zdigits2_log2 by lia.
  pose proof (Z.log2_le_mono a b Hab). lia.
Qed.

Lemma Zdigits2_mul_pow2 (a k : Z) : 0 < a -> 0 <= k -> Zdigits2 (a * 2 ^ k) = Zdigits2 a + k.
Proof.
  intros Ha Hk. assert (0 < 2 ^ k) by (apply Z.pow_pos_nonneg; lia).
  rewrite !Zdigits2_log2 by nia. rewrite Z.log2_mul_pow2 by lia. lia.
Qed.

Lemma Zdigits2_div_pow2 (a k : Z) :
  0 <= k -> 0 < a / 2 ^ k -> Zdigits2 (a / 2 ^ k) = Zdigits2 a - k.
Proof.
  intros Hk Hq. assert (Hp : 0 < 2 ^ k) by (apply Z.pow_pos_nonneg; lia).
  assert (Ha : 0 < a).
  { destruct (Z_lt_le_dec 0 a) as [|Hle]; [assumption|].
    assert (a / 2 ^ k <= 0) by (apply Z.div_le_upper_bound; lia). lia. }
  rewrite !Zdigits2_log2 by lia.
  rewrite <- Z.shiftr_div_pow2 by lia. rewrite Z.log2_shiftr by lia.
  rewrite <- Z.shiftr_div_pow2 in Hq by lia.
  assert (~ (Z.log2 a < k)).
  { intros Hlt. rewrite (Z.shiftr_eq_0 a k) in Hq by lia. lia. }
  lia.
Qed.

Lemma Zdigits2_unique (n d : Z) : 2 ^ (d - 1) <= n < 2 ^ d -> 0 < d -> Zdigits2 n = d.
Proof.
  intros H Hd. assert (0 < 2 ^ (d - 1)) by (apply Z.pow_pos_nonneg; lia).
  rewrite Zdigits2_log2 by lia.
  rewrite (Z.log2_unique n (d - 1)); [lia|lia|].
  replace (Z.succ (d - 1)) with d by lia. exact H.
Qed.

(** *** Scaled values *)

Lemma scaled_pos (m e : Z) : 0 < m -> scale_base <= e -> 0 < scaled m e.
Proof.
  intros Hm He. unfold scaled.
  assert (0 < 2 ^ (e - scale_base)) by (apply Z.pow_pos_nonneg; lia). nia.
Qed.

Lemma scaled_shift (m e k : Z) :
  0 <= k -> scale_base <= e -> scaled m (e + k) = scaled (m * 2 ^ k) e.
Proof.
  intros Hk He. unfold scaled.
  replace (e + k - scale_base) with (k + (e - scale_base)) by lia.
  rewrite Z.pow_add_r by lia. ring.
Qed.

Lemma scaled_le (a b e : Z) : scale_base <= e -> (scaled a e <= scaled b e <-> a <= b).
Proof.
  intros He. unfold scaled.
  assert (0 < 2 ^ (e - scale_base)) by (apply Z.pow_pos_nonneg; lia). nia.
Qed.

Lemma scaled_lt (a b e : Z) : scale_base <= e -> (scaled a e < scaled b e <-> a < b).
Proof.
  intros He. unfold scaled.
  assert (0 < 2 ^ (e - scale_base)) by (apply Z.pow_pos_nonneg; lia). nia.
Qed.

Lemma scaled_pow2 (d e : Z) : 0 <= d -> scale_base <= e -> scaled (2 ^ d) e = 2 ^ (d + e - scale_base).
Proof.
  intros Hd He. unfold scaled. rewrite <- Z.pow_add_r by lia. f_equal. lia.
Qed.

(** The magnitude, the number of digits plus the exponent, grows with the
    value. *)
Lemma magnitude_le (m1 e1 m2 e2 : Z) :
  0 < m1 -> 0 < m2 -> scale_base <= e1 -> scale_base <= e2 ->
  scaled m1 e1 <= scaled m2 e2 -> Zdigits2 m1 + e1 <= Zdigits2 m2 + e2.
Proof.
  intros H1 H2 He1 He2 Hle.
  pose proof (Zdigits2_bounds m1 H1) as [Hl1 _].
  pose proof (Zdigits2_bounds m2 H2) as [_ Hu2].
  pose proof (Zdigits2_pos m1 H1). pose proof (Zdigits2_pos m2 H2).
  assert (Ha : scaled (2 ^ (Zdigits2 m1 - 1)) e1 <= scaled m1 e1) by (apply scaled_le; lia).
  assert (Hb : scaled m2 e2 < scaled (2 ^ Zdigits2 m2) e2) by (apply scaled_lt; lia).
  rewrite scaled_pow2 in Ha, Hb by lia.
  assert (Hc : 2 ^ (Zdigits2 m1 - 1 + e1 - scale_base) < 2 ^ (Zdigits2 m2 + e2 - scale_base)) by lia.
  apply Z.pow_lt_mono_r_iff in Hc; lia.
Qed.

Lemma fexp_mono (a b : Z) : a <= b -> fexp 53 1024 a <= fexp 53 1024 b.
Proof. rewrite !fexp_spec. lia. Qed.

Lemma canonical_digits (m e : Z) : canonical m e -> Zdigits2 m <= 53 /\ -1074 <= e.
Proof. unfold canonical. rewrite fexp_spec. lia. Qed.

(** *** Shifting a mantissa right *)

Lemma iter_pos_nat {A} (f : A -> A) (p : positive) (x : A) :
  SpecFloat.iter_pos f p x = Nat.iter (Pos.to_nat p) f x.
Proof.
  revert x. induction p as [p IH|p IH|]; intros x; cbn [SpecFloat.iter_pos].
  - rewrite !IH. rewrite Pos2Nat.inj_xI.
    replace (S (2 * Pos.to_nat p)) with (Pos.to_nat p + (Pos.to_nat p + 1))%nat by lia.
    rewrite !Nat.iter_add. reflexivity.
  - rewrite !IH. rewrite Pos2Nat.inj_xO.
    replace (2 * Pos.to_nat p)%nat with (Pos.to_nat p + Pos.to_nat p)%nat by lia.
    rewrite Nat.iter_add. reflexivity.
  - reflexivity.
Qed.

Lemma shr_1_m (r : shr_record) : 0 <= shr_m r -> shr_m (shr_1 r) = shr_m r / 2.
Proof.
  destruct r as [m r s]. cbn [shr_m]. intros Hm.
  destruct m as [|[p|p|]|p]; cbn [shr_1 shr_m]; try lia; try reflexivity.
  - apply (Z.div_unique _ 2 _ 1); lia.
  - apply (Z.div_unique _ 2 _ 0); lia.
Qed.

Lemma shr_1_r (r : shr_record) : 0 <= shr_m r -> shr_r (shr_1 r) = Z.odd (shr_m r).
Proof.
  destruct r as [m r s]. cbn [shr_m]. intros Hm.
  destruct m as [|[p|p|]|p]; cbn [shr_1 shr_r]; try reflexivity; lia.
Qed.

Lemma shr_1_s (r : shr_record) : shr_s (shr_1 r) = shr_r r || shr_s r.
Proof. destruct r as [m r s]. destruct m as [|[p|p|]|[p|p|]]; reflexivity. Qed.

(** [n] steps give the quotient by [2 ^ n]; the two guard bits are both
    clear when the division is exact. *)
Lemma shr_iter (M : Z) (n : nat) :
  0 <= M ->
  let r := Nat.iter n shr_1 (Build_shr_record M false false) in
  shr_m r = M / 2 ^ Z.of_nat n
  /\ (M mod 2 ^ Z.of_nat n = 0 -> shr_r r = false /\ shr_s r = false).
Proof.
  intros HM. induction n as [|n IH]; cbn zeta.
  - change (Nat.iter 0 shr_1 ?x) with x. cbn [shr_m shr_r shr_s]. change (2 ^ Z.of_nat 0) with 1.
    rewrite Z.div_1_r. auto.
  - cbn zeta in IH. destruct IH as [IHm IHx]. rewrite Nat.iter_succ.
    set (r := Nat.iter n shr_1 _) in *.
    assert (Hp : 0 < 2 ^ Z.of_nat n) by (apply Z.pow_pos_nonneg; lia).
    assert (Hr : 0 <= shr_m r) by (rewrite IHm; apply Z.div_pos; lia).
    rewrite Nat2Z.inj_succ, Z.pow_succ_r by lia. split.
    + rewrite shr_1_m by exact Hr. rewrite IHm.
      rewrite Z.div_div by lia. f_equal. lia.
    + intros Hx.
      assert (Hq : M = 2 * 2 ^ Z.of_nat n * (M / (2 * 2 ^ Z.of_nat n))).
      { pose proof (Z.div_mod M (2 * 2 ^ Z.of_nat n)). lia. }
      assert (Hx' : M mod 2 ^ Z.of_nat n = 0).
      { rewrite Hq. replace (2 * 2 ^ Z.of_nat n * (M / (2 * 2 ^ Z.of_nat n)))
          with ((2 * (M / (2 * 2 ^ Z.of_nat n))) * 2 ^ Z.of_nat n) by ring.
        apply Z.mod_mul. lia. }
      destruct (IHx Hx') as [Hrr Hrs].
      rewrite shr_1_s, Hrr, Hrs. rewrite shr_1_r by exact Hr. rewrite IHm. split; [|reflexivity].
      assert (He : M / 2 ^ Z.of_nat n = 2 * (M / (2 * 2 ^ Z.of_nat n))).
      { rewrite Hq at 1.
        replace (2 * 2 ^ Z.of_nat n * (M / (2 * 2 ^ Z.of_nat n)))
          with ((2 * (M / (2 * 2 ^ Z.of_nat n))) * 2 ^ Z.of_nat n) by ring.
        apply Z.div_mul. lia. }
      rewrite He. rewrite Z.odd_mul. reflexivity.
Qed.

Lemma round_nearest_even_bounds (m : Z) (l : location) :
  m <= round_nearest_even m l <= m + 1.
Proof. destruct l as [|[| |]]; cbn [round_nearest_even]; try destruct (Z.even m); lia. Qed.

Lemma round_shift_spec (M e k : Z) :
  0 <= M -> 0 <= k ->
  exists m1, round_shift M e k = (m1, e + k)
    /\ M / 2 ^ k <= m1 <= M / 2 ^ k + 1
    /\ (M mod 2 ^ k = 0 -> m1 = M / 2 ^ k).
Proof.
  intros HM Hk. unfold round_shift, shr. cbn [shr_record_of_loc].
  destruct k as [|p|p]; try lia.
  - exists M. rewrite Z.add_0_r. change (2 ^ 0) with 1. rewrite Z.div_1_r.
    cbn. split; [reflexivity|]. split; [lia|auto].
  - rewrite iter_pos_nat.
    destruct (shr_iter M (Pos.to_nat p) HM) as [Hm Hx]. cbv zeta in Hm, Hx.
    rewrite positive_nat_Z in Hm, Hx.
    set (r := Nat.iter _ _ _) in *.
    eexists. split; [reflexivity|]. rewrite <- Hm. split.
    + apply round_nearest_even_bounds.
    + intros H0. destruct (Hx H0) as [Hr Hs]. destruct r as [m r s].
      cbn in Hr, Hs. subst. reflexivity.
Qed.

(** Rounding up stops at the first integer multiple above the value. *)
Lemma round_shift_upper (M k m1 U : Z) :
  0 <= M -> 0 <= k ->
  M / 2 ^ k <= m1 <= M / 2 ^ k + 1 -> (M mod 2 ^ k = 0 -> m1 = M / 2 ^ k) ->
  M <= U * 2 ^ k -> m1 <= U.
Proof.
  intros HM Hk Hb Hx HU.
  assert (Hp : 0 < 2 ^ k) by (apply Z.pow_pos_nonneg; lia).
  pose proof (Z.div_mod M (2 ^ k)) as Hdm. pose proof (Z.mod_pos_bound M (2 ^ k) Hp) as Hmod.
  destruct (Z.eq_dec (M mod 2 ^ k) 0) as [E|N].
  - rewrite (Hx E). apply Z.div_le_upper_bound; [exact Hp|]. rewrite Z.mul_comm. exact HU.
  - assert (M / 2 ^ k < U); [|lia].
    assert (M <> U * 2 ^ k) by (intros ->; apply N; apply Z.mod_mul; lia).
    apply Z.div_lt_upper_bound; [exact Hp|]. rewrite Z.mul_comm. lia.
Qed.

(** *** The two stages of [binary_round_aux] *)

Lemma round_aux_cases (s : bool) (M : positive) (e : Z) :
  e <= fexp 53 1024 (Zdigits2 (Zpos M) + e) ->
  exists m1 m2 e2,
    let e1 := fexp 53 1024 (Zdigits2 (Zpos M) + e) in
    (Zpos M / 2 ^ (e1 - e) <= m1 <= Zpos M / 2 ^ (e1 - e) + 1)
    /\ (Zpos M mod 2 ^ (e1 - e) = 0 -> m1 = Zpos M / 2 ^ (e1 - e))
    /\ binary_round_aux 53 1024 s (Zpos M) e loc_Exact = float_pack s m2 e2
    /\ (fexp 53 1024 (Zdigits2 m1 + e1) <= e1 /\ m2 = m1 /\ e2 = e1
        \/ e1 < fexp 53 1024 (Zdigits2 m1 + e1)
           /\ e2 = fexp 53 1024 (Zdigits2 m1 + e1) /\ m2 = m1 / 2 ^ (e2 - e1)).
Proof.
  intros Hk. set (e1 := fexp 53 1024 (Zdigits2 (Zpos M) + e)) in *.
  destruct (round_shift_spec (Zpos M) e (e1 - e)) as (m1 & H1 & Hb & Hx); [lia|lia|].
  replace (e + (e1 - e)) with e1 in H1 by lia.
  assert (Hm1 : 0 <= m1).
  { assert (0 <= Zpos M / 2 ^ (e1 - e)); [|lia].
    apply Z.div_pos; [lia|]. apply Z.pow_pos_nonneg; lia. }
  set (e2' := fexp 53 1024 (Zdigits2 m1 + e1)).
  assert (Hunf : binary_round_aux 53 1024 s (Zpos M) e loc_Exact
                 = let '(mrs, e'') := shr (shr_record_of_loc m1 loc_Exact) e1 (e2' - e1) in
                   float_pack s (shr_m mrs) e'').
  { unfold binary_round_aux, shr_fexp. fold e1. unfold round_shift in H1.
    destruct (shr (shr_record_of_loc (Zpos M) loc_Exact) e (e1 - e)) as [mrs e'].
    inversion H1; subst. fold e2'.
    destruct (shr _ _ _) as [mrs2 e'']. reflexivity. }
  exists m1. destruct (Z_le_gt_dec e2' e1) as [Hle|Hgt].
  - exists m1, e1. cbv zeta. fold e1. split; [exact Hb|]. split; [exact Hx|]. split.
    + rewrite Hunf. unfold shr. destruct (e2' - e1) as [|p|p] eqn:E; try lia; reflexivity.
    + left. fold e2'. repeat split; lia.
  - exists (m1 / 2 ^ (e2' - e1)), e2'. cbv zeta. fold e1. split; [exact Hb|]. split; [exact Hx|].
    split.
    + rewrite Hunf. unfold shr. destruct (e2' - e1) as [|p|p] eqn:E; try lia.
      rewrite iter_pos_nat. cbn [shr_record_of_loc].
      destruct (shr_iter m1 (Pos.to_nat p) Hm1) as [Hm _]. cbv zeta in Hm.
      rewrite positive_nat_Z in Hm. rewrite Hm. f_equal. lia.
    + right. fold e2'. repeat split; lia.
Qed.

Lemma bounded_iff (m : positive) (e : Z) :
  bounded 53 1024 m e = true <-> canonical (Zpos m) e /\ e <= 971.
Proof.
  unfold bounded, canonical_mantissa, canonical. cbn [Zdigits2].
  rewrite andb_true_iff, Z.eqb_eq, Z.leb_le. reflexivity.
Qed.

Lemma float_pack_cases (s : bool) (m e : Z) :
  0 <= m ->
  (m = 0 /\ float_pack s m e = S754_zero s)
  \/ (exists p, m = Zpos p /\ e <= 971 /\ float_pack s m e = S754_finite s p e)
  \/ (0 < m /\ 971 < e /\ float_pack s m e = S754_infinity s).
Proof.
  intros Hm. destruct m as [|p|p]; try lia.
  - left. auto.
  - right. cbn [float_pack]. change (1024 - 53) with 971.
    destruct (Z.leb_spec e 971).
    + left. exists p. auto.
    + right. repeat split; lia.
Qed.

(** What the two stages leave is canonical. *)
Lemma round_aux_canonical (M : positive) (e m1 m2 e2 : Z) :
  e <= fexp 53 1024 (Zdigits2 (Zpos M) + e) ->
  let e1 := fexp 53 1024 (Zdigits2 (Zpos M) + e) in
  Zpos M / 2 ^ (e1 - e) <= m1 ->
  (fexp 53 1024 (Zdigits2 m1 + e1) <= e1 /\ m2 = m1 /\ e2 = e1
   \/ e1 < fexp 53 1024 (Zdigits2 m1 + e1)
      /\ e2 = fexp 53 1024 (Zdigits2 m1 + e1) /\ m2 = m1 / 2 ^ (e2 - e1)) ->
  0 < m2 -> canonical m2 e2.
Proof.
  intros Hk e1 Hb Hc Hm2. unfold canonical.
  assert (Hp : 0 < 2 ^ (e1 - e)) by (apply Z.pow_pos_nonneg; lia).
  assert (Hq : 0 <= Zpos M / 2 ^ (e1 - e)) by (apply Z.div_pos; lia).
  destruct Hc as [(Hle & -> & ->)|(Hlt & He2 & Hm)].
  - apply Z.le_antisymm; [exact Hle|].
    destruct (Z.eq_dec (Zpos M / 2 ^ (e1 - e)) 0) as [E|N].
    + assert (HM : Zpos M < 2 ^ (e1 - e)).
      { apply Z.div_small_iff in E; lia. }
      pose proof (Zdigits2_bounds (Zpos M) eq_refl) as [Hl _].
      assert (Hd : Zdigits2 (Zpos M) - 1 < e1 - e).
      { apply (Z.pow_lt_mono_r_iff 2); lia. }
      pose proof (fexp_spec (Zdigits2 (Zpos M) + e)) as F1. fold e1 in F1.
      rewrite fexp_spec. lia.
    + assert (Hd : Zdigits2 (Zpos M / 2 ^ (e1 - e)) = Zdigits2 (Zpos M) - (e1 - e)).
      { apply Zdigits2_div_pow2; lia. }
      pose proof (Zdigits2_mono (Zpos M / 2 ^ (e1 - e)) m1 ltac:(lia) Hb) as Hmono.
      replace e1 with (fexp 53 1024 (Zdigits2 (Zpos M) + e)) at 1 by reflexivity.
      apply fexp_mono. lia.
  - assert (Hd : Zdigits2 m2 = Zdigits2 m1 - (e2 - e1)).
    { rewrite Hm. apply Zdigits2_div_pow2; [lia|]. rewrite <- Hm. exact Hm2. }
    rewrite Hd. replace (Zdigits2 m1 - (e2 - e1) + e2) with (Zdigits2 m1 + e1) by lia.
    symmetry. exact He2.
Qed.

Lemma round_aux_valid (s : bool) (M : positive) (e : Z) :
  e <= fexp 53 1024 (Zdigits2 (Zpos M) + e) ->
  valid_binary 53 1024 (binary_round_aux 53 1024 s (Zpos M) e loc_Exact) = true.
Proof.
  intros Hk. destruct (round_aux_cases s M e Hk) as (m1 & m2 & e2 & Hb & _ & -> & Hc).
  cbv zeta in Hb, Hc.
  assert (Hp : 0 < 2 ^ (fexp 53 1024 (Zdigits2 (Zpos M) + e) - e))
    by (apply Z.pow_pos_nonneg; lia).
  assert (Hq : 0 <= Zpos M / 2 ^ (fexp 53 1024 (Zdigits2 (Zpos M) + e) - e))
    by (apply Z.div_pos; lia).
  assert (Hm2 : 0 <= m2).
  { destruct Hc as [(_ & -> & _)|(Hlt & He2 & ->)]; [lia|].
    apply Z.div_pos; [lia|]. apply Z.pow_pos_nonneg; lia. }
  destruct (float_pack_cases s m2 e2 Hm2) as [(_ & ->)|[(p & Hp2 & He & ->)|(_ & _ & ->)]];
    try reflexivity.
  cbn [valid_binary]. apply bounded_iff. split; [|exact He]. rewrite <- Hp2.
  apply (round_aux_canonical M e m1 m2 e2 Hk); [lia|exact Hc|lia].
Qed.

(** A representable upper bound of the value bounds its rounding. *)
Lemma round_aux_upper (s : bool) (M : positive) (e u eu : Z) :
  e <= fexp 53 1024 (Zdigits2 (Zpos M) + e) -> scale_base <= e ->
  0 < u -> canonical u eu -> eu <= 971 ->
  scaled (Zpos M) e <= scaled u eu ->
  binary_round_aux 53 1024 s (Zpos M) e loc_Exact = S754_zero s
  \/ exists m e',
       binary_round_aux 53 1024 s (Zpos M) e loc_Exact = S754_finite s m e'
       /\ scaled (Zpos m) e' <= scaled u eu.
Proof.
  intros Hk He Hu Hcu Heu Hle.
  destruct (round_aux_cases s M e Hk) as (m1 & m2 & e2 & Hb & Hx & -> & Hc).
  cbv zeta in Hb, Hx, Hc.
  set (e1 := fexp 53 1024 (Zdigits2 (Zpos M) + e)) in *.
  pose proof (canonical_digits u eu Hcu) as [_ Hemin].
  assert (He1min : -1074 <= e1) by (unfold e1; rewrite fexp_spec; lia).
  assert (He1 : e1 <= eu).
  { unfold e1. rewrite <- Hcu. apply fexp_mono.
    apply magnitude_le; unfold scale_base in *; lia. }
  assert (Hp : 0 < 2 ^ (e1 - e)) by (apply Z.pow_pos_nonneg; lia).
  assert (Hq : 0 <= Zpos M / 2 ^ (e1 - e)) by (apply Z.div_pos; lia).
  assert (Hm1 : scaled m1 e1 <= scaled u eu).
  { replace eu with (e1 + (eu - e1)) by lia.
    rewrite scaled_shift by (unfold scale_base in *; lia).
    apply scaled_le; [unfold scale_base in *; lia|].
    apply (round_shift_upper (Zpos M) (e1 - e)); try lia.
    apply (scaled_le _ _ e He).
    rewrite <- scaled_shift by lia. replace (e + (e1 - e)) with e1 by lia.
    rewrite <- scaled_shift by (unfold scale_base in *; lia).
    replace (e1 + (eu - e1)) with eu by lia. exact Hle. }
  assert (Hm2 : 0 <= m2 /\ scaled m2 e2 <= scaled u eu /\ (0 < m2 -> e2 <= eu)).
  { destruct Hc as [(_ & -> & ->)|(Hlt & He2 & Hm)]; [repeat split; lia|].
    assert (Hm1pos : 0 < m1).
    { destruct (Z.eq_dec m1 0) as [E|]; [|lia]. subst m1.
      cbn [Zdigits2] in Hlt. rewrite fexp_spec in Hlt. lia. }
    assert (Hp2 : 0 < 2 ^ (e2 - e1)) by (apply Z.pow_pos_nonneg; lia).
    split; [subst m2; apply Z.div_pos; lia|]. split.
    - apply Z.le_trans with (scaled m1 e1); [|exact Hm1].
      replace e2 with (e1 + (e2 - e1)) at 1 by lia.
      rewrite scaled_shift by (unfold scale_base in *; lia).
      apply scaled_le; [unfold scale_base in *; lia|].
      subst m2. rewrite Z.mul_comm. apply Z.mul_div_le. lia.
    - intros _. rewrite He2, <- Hcu. apply fexp_mono.
      apply magnitude_le; unfold scale_base in *; lia. }
  destruct Hm2 as (Hm2 & Hs2 & He2).
  destruct (float_pack_cases s m2 e2 Hm2) as [(_ & ->)|[(p & Hp2 & _ & ->)|(Hpos & Hbig & _)]].
  - left. reflexivity.
  - right. exists p, e2. split; [reflexivity|]. rewrite <- Hp2. exact Hs2.
  - specialize (He2 Hpos). lia.
Qed.

(** A representable lower bound of the value bounds its rounding. *)
Lemma round_aux_lower (s : bool) (M : positive) (e l el : Z) :
  e <= fexp 53 1024 (Zdigits2 (Zpos M) + e) -> scale_base <= e ->
  0 < l -> canonical l el ->
  scaled l el <= scaled (Zpos M) e ->
  binary_round_aux 53 1024 s (Zpos M) e loc_Exact = S754_infinity s
  \/ exists m e',
       binary_round_aux 53 1024 s (Zpos M) e loc_Exact = S754_finite s m e'
       /\ scaled l el <= scaled (Zpos m) e'.
Proof.
  intros Hk He Hl Hcl Hle.
  destruct (round_aux_cases s M e Hk) as (m1 & m2 & e2 & Hb & _ & -> & Hc).
  cbv zeta in Hb, Hc.
  set (e1 := fexp 53 1024 (Zdigits2 (Zpos M) + e)) in *.
  pose proof (canonical_digits l el Hcl) as [Hdl Hemin].
  pose proof (Zdigits2_bounds l Hl) as [_ Hlu].
  pose proof (Zdigits2_pos l Hl) as Hdlpos.
  assert (Hl53 : l < 2 ^ 53).
  { apply Z.lt_le_trans with (2 ^ Zdigits2 l); [lia|]. apply Z.pow_le_mono_r; lia. }
  assert (He1 : el <= e1).
  { unfold e1. rewrite <- Hcl. apply fexp_mono.
    apply magnitude_le; unfold scale_base in *; lia. }
  assert (Hp : 0 < 2 ^ (e1 - e)) by (apply Z.pow_pos_nonneg; lia).
  (* the value is below 2^(53 + el) *)
  assert (Hlt53 : scaled l el < 2 ^ (53 + el - scale_base)).
  { rewrite <- scaled_pow2 by (unfold scale_base in *; lia).
    apply scaled_lt; [unfold scale_base in *; lia|exact Hl53]. }
  assert (Hbig : forall m x, 2 ^ 52 <= m -> el < x ->
                   scaled l el <= scaled m x).
  { intros m x Hm Hx.
    apply Z.le_trans with (scaled (2 ^ 52) x).
    - rewrite scaled_pow2 by (unfold scale_base in *; lia).
      apply Z.lt_le_incl. apply Z.lt_le_trans with (1 := Hlt53).
      apply Z.pow_le_mono_r; unfold scale_base in *; lia.
    - apply scaled_le; [unfold scale_base in *; lia|exact Hm]. }
  assert (Hfull : forall m x, 0 < m -> -1074 < fexp 53 1024 (Zdigits2 m + x) ->
                    2 ^ 52 <= m / 2 ^ (fexp 53 1024 (Zdigits2 m + x) - x)
                    \/ fexp 53 1024 (Zdigits2 m + x) < x).
  { intros m x Hm Hf. rewrite fexp_spec in *.
    destruct (Z_lt_le_dec (Zdigits2 m + x - 53) x) as [Hs|Hs]; [right; lia|left].
    replace (Z.max (Zdigits2 m + x - 53) (-1074) - x) with (Zdigits2 m - 53) by lia.
    pose proof (Zdigits2_bounds m Hm) as [Hlo _].
    apply Z.div_le_lower_bound; [apply Z.pow_pos_nonneg; lia|].
    rewrite <- Z.pow_add_r by lia.
    replace (Zdigits2 m - 53 + 52) with (Zdigits2 m - 1) by lia. exact Hlo. }
  assert (Hm1' : scaled l el <= scaled (Zpos M / 2 ^ (e1 - e)) e1).
  { destruct (Z.eq_dec el e1) as [E|N].
    - rewrite E. apply scaled_le; [unfold scale_base in *; lia|].
      apply Z.div_le_lower_bound; [lia|].
      apply (scaled_le _ _ e He). rewrite Z.mul_comm.
      rewrite <- scaled_shift by lia. replace (e + (e1 - e)) with e1 by lia.
      rewrite <- E. exact Hle.
    - apply Hbig; [|lia].
      assert (Hf : -1074 < e1) by lia.
      destruct (Hfull (Zpos M) e eq_refl Hf) as [H|H]; [exact H|]. fold e1 in H. lia. }
  assert (Hm1 : scaled l el <= scaled m1 e1).
  { apply Z.le_trans with (1 := Hm1'). apply scaled_le; [unfold scale_base in *; lia|lia]. }
  assert (Hm1pos : 0 < m1).
  { pose proof (scaled_pos l el Hl ltac:(unfold scale_base in *; lia)).
    assert (0 < scaled m1 e1) by lia. unfold scaled in *.
    assert (0 < 2 ^ (e1 - scale_base)) by (apply Z.pow_pos_nonneg; unfold scale_base in *; lia).
    nia. }
  assert (Hm2 : 0 < m2 /\ scaled l el <= scaled m2 e2).
  { destruct Hc as [(_ & -> & ->)|(Hlt & He2 & Hm)]; [split; [lia|exact Hm1]|].
    assert (Hf : -1074 < fexp 53 1024 (Zdigits2 m1 + e1)) by lia.
    destruct (Hfull m1 e1 Hm1pos Hf) as [H|H]; [|lia].
    rewrite <- He2, <- Hm in H. split; [lia|]. apply Hbig; lia. }
  destruct Hm2 as (Hm2 & Hs2).
  destruct (float_pack_cases s m2 e2 ltac:(lia)) as [(E & _)|[(p & Hp2 & _ & ->)|(_ & _ & ->)]].
  - lia.
  - right. exists p, e2. split; [reflexivity|]. rewrite <- Hp2. exact Hs2.
  - left. reflexivity.
Qed.

(** *** [binary_round]: alignment, then the two stages *)

Lemma pos_iter_xO (m d : positive) : Zpos (Pos.iter xO m d) = Zpos m * 2 ^ Zpos d.
Proof.
  induction d as [|d IH] using Pos.peano_ind.
  - cbn. lia.
  - rewrite Pos.iter_succ, Pos2Z.inj_xO, IH, Pos2Z.inj_succ, Z.pow_succ_r by lia. ring.
Qed.

Lemma shl_align_spec (m : positive) (e e' : Z) :
  exists mz, shl_align m e e' = (mz, Z.min e e')
    /\ Zpos mz = Zpos m * 2 ^ (e - Z.min e e').
Proof.
  unfold shl_align. destruct (e' - e) as [|p|p] eqn:E.
  - exists m. rewrite Z.min_l by lia. rewrite Z.sub_diag. split; [reflexivity|cbn; lia].
  - exists m. rewrite Z.min_l by lia. rewrite Z.sub_diag. split; [reflexivity|cbn; lia].
  - exists (Pos.iter xO m p). rewrite Z.min_r by lia. split; [reflexivity|].
    rewrite pos_iter_xO. f_equal. f_equal. lia.
Qed.

(** [binary_round] hands the second function a mantissa that is long
    enough, with the same value. *)
Lemma binary_round_aligned (s : bool) (m : positive) (e : Z) :
  scale_base <= e ->
  exists mz ez,
    binary_round 53 1024 s m e = binary_round_aux 53 1024 s (Zpos mz) ez loc_Exact
    /\ ez <= fexp 53 1024 (Zdigits2 (Zpos mz) + ez)
    /\ scale_base <= ez
    /\ scaled (Zpos mz) ez = scaled (Zpos m) e.
Proof.
  intros He. unfold binary_round.
  change (Zpos (digits2_pos m)) with (Zdigits2 (Zpos m)).
  set (e' := fexp 53 1024 (Zdigits2 (Zpos m) + e)).
  destruct (shl_align_spec m e e') as (mz & -> & Hmz).
  assert (He' : -1074 <= e') by (unfold e'; rewrite fexp_spec; lia).
  exists mz, (Z.min e e'). split; [reflexivity|].
  assert (Hd : Zdigits2 (Zpos mz) + Z.min e e' = Zdigits2 (Zpos m) + e).
  { rewrite Hmz, Zdigits2_mul_pow2 by lia. lia. }
  split; [rewrite Hd; fold e'; lia|]. split; [unfold scale_base in *; lia|].
  rewrite Hmz. rewrite <- scaled_shift by (unfold scale_base in *; lia).
  f_equal. lia.
Qed.

Lemma round_valid (s : bool) (m : positive) (e : Z) :
  scale_base <= e -> valid_float (binary_round 53 1024 s m e).
Proof.
  intros He. destruct (binary_round_aligned s m e He) as (mz & ez & -> & Hk & _).
  apply round_aux_valid. exact Hk.
Qed.

Lemma round_upper (s : bool) (m : positive) (e u eu : Z) :
  scale_base <= e -> 0 < u -> canonical u eu -> eu <= 971 ->
  scaled (Zpos m) e <= scaled u eu ->
  binary_round 53 1024 s m e = S754_zero s
  \/ exists m' e',
       binary_round 53 1024 s m e = S754_finite s m' e'
       /\ scaled (Zpos m') e' <= scaled u eu.
Proof.
  intros He Hu Hc Heu Hle.
  destruct (binary_round_aligned s m e He) as (mz & ez & -> & Hk & Hez & Hv).
  apply round_aux_upper; try assumption. rewrite Hv. exact Hle.
Qed.

Lemma round_lower (s : bool) (m : positive) (e l el : Z) :
  scale_base <= e -> 0 < l -> canonical l el ->
  scaled l el <= scaled (Zpos m) e ->
  binary_round 53 1024 s m e = S754_infinity s
  \/ exists m' e',
       binary_round 53 1024 s m e = S754_finite s m' e'
       /\ scaled l el <= scaled (Zpos m') e'.
Proof.
  intros He Hl Hc Hle.
  destruct (binary_round_aligned s m e He) as (mz & ez & -> & Hk & Hez & Hv).
  apply round_aux_lower; try assumption. rewrite Hv. exact Hle.
Qed.

(** A value that has a representation in the format is the least and
    the greatest bound of itself. *)
Lemma representable (M e : Z) :
  0 < M -> Zdigits2 M <= 53 -> -1074 <= e -> Zdigits2 M + e <= 1024 ->
  exists u eu, 0 < u /\ canonical u eu /\ eu <= 971 /\ scaled u eu = scaled M e.
Proof.
  intros HM Hd He Hmax.
  set (eu := fexp 53 1024 (Zdigits2 M + e)).
  assert (Heu : -1074 <= eu <= e /\ eu <= 971) by (unfold eu; rewrite fexp_spec; lia).
  exists (M * 2 ^ (e - eu)), eu.
  assert (0 < 2 ^ (e - eu)) by (apply Z.pow_pos_nonneg; lia).
  split; [nia|]. split; [|split; [lia|]].
  - unfold canonical. rewrite Zdigits2_mul_pow2 by lia.
    replace (Zdigits2 M + (e - eu) + eu) with (Zdigits2 M + e) by lia. reflexivity.
  - rewrite <- scaled_shift by (unfold scale_base; lia). f_equal. lia.
Qed.

Lemma round_exact (s : bool) (m : positive) (e u eu : Z) :
  scale_base <= e -> 0 < u -> canonical u eu -> eu <= 971 ->
  scaled u eu = scaled (Zpos m) e ->
  exists m' e',
    binary_round 53 1024 s m e = S754_finite s m' e'
    /\ scaled (Zpos m') e' = scaled (Zpos m) e.
Proof.
  intros He Hu Hc Heu Hv.
  destruct (round_upper s m e u eu He Hu Hc Heu ltac:(lia)) as [Hz|(m1 & e1 & H1 & Hle)];
  destruct (round_lower s m e u eu He Hu Hc ltac:(lia)) as [Hi|(m2 & e2 & H2 & Hge)];
    try congruence.
  exists m1, e1. split; [exact H1|]. rewrite H1 in H2. inversion H2; subst. lia.
Qed.

(** *** The operations on nonnegative doubles *)

Lemma valid_finite (s : bool) (m : positive) (e : Z) :
  valid_float (S754_finite s m e) <-> canonical (Zpos m) e /\ e <= 971.
Proof. unfold valid_float. cbn [valid_binary]. apply bounded_iff. Qed.

Lemma valid_exponent (s : bool) (m : positive) (e : Z) :
  valid_float (S754_finite s m e) -> -1074 <= e <= 971.
Proof.
  intros H. apply valid_finite in H as [Hc He]. apply canonical_digits in Hc. lia.
Qed.

(** The power of two [2 ^ j] as a double. *)
Lemma pow2_canonical (j : Z) :
  -1022 <= j <= 1023 ->
  canonical (2 ^ 52) (j - 52) /\ j - 52 <= 971 /\ scaled (2 ^ 52) (j - 52) = scaled 1 j.
Proof.
  intros Hj. split; [|split; [lia|]].
  - unfold canonical. change (Zdigits2 (2 ^ 52)) with 53. rewrite fexp_spec. lia.
  - replace j with (j - 52 + 52) at 2 by lia.
    rewrite scaled_shift by (unfold scale_base; lia). f_equal.
Qed.

Lemma scaled_0 (e : Z) : scaled 0 e = 0.
Proof. reflexivity. Qed.

Lemma scaled_add (a b e : Z) : scaled (a + b) e = scaled a e + scaled b e.
Proof. unfold scaled. ring. Qed.

Lemma scaled_mono_exp (m e1 e2 : Z) :
  0 <= m -> scale_base <= e1 <= e2 -> scaled m e1 <= scaled m e2.
Proof.
  intros Hm He. unfold scaled.
  assert (2 ^ (e1 - scale_base) <= 2 ^ (e2 - scale_base)) by (apply Z.pow_le_mono_r; lia).
  nia.
Qed.

(** [float_round] of a positive integer mantissa. *)
Lemma float_round_pos (n e : Z) :
  0 < n -> scale_base <= e ->
  valid_float (float_round n e)
  /\ (forall l el, 0 < l -> canonical l el -> scaled l el <= scaled n e ->
        float_round n e = S754_infinity false
        \/ exists m' e', float_round n e = S754_finite false m' e'
                         /\ scaled l el <= scaled (Zpos m') e')
  /\ (forall u eu, 0 < u -> canonical u eu -> eu <= 971 -> scaled n e <= scaled u eu ->
        float_round n e = S754_zero false
        \/ exists m' e', float_round n e = S754_finite false m' e'
                         /\ scaled (Zpos m') e' <= scaled u eu).
Proof.
  intros Hn He. destruct n as [|p|p]; try lia. unfold float_round. cbn [binary_normalize].
  split; [apply round_valid; exact He|]. split.
  - intros l el Hl Hc Hle. apply round_lower; assumption.
  - intros u eu Hu Hc Heu Hle. apply round_upper; assumption.
Qed.

(** A positive integer mantissa at an exponent in the normal range
    rounds to a positive double or overflows. *)
Lemma float_round_positive (n e : Z) :
  0 < n -> -1022 <= e <= 1023 ->
  float_round n e = S754_infinity false
  \/ exists m' e', float_round n e = S754_finite false m' e'
       /\ valid_float (S754_finite false m' e')
       /\ scaled 1 e <= scaled (Zpos m') e'.
Proof.
  intros Hn He.
  destruct (float_round_pos n e Hn ltac:(unfold scale_base; lia)) as (Hv & Hlo & _).
  destruct (pow2_canonical e He) as (Hc & _ & Hs).
  destruct (Hlo (2 ^ 52) (e - 52) ltac:(lia) Hc) as [Hi|(m' & e' & Hr & Hle)].
  - rewrite Hs. apply scaled_le; [unfold scale_base; lia|lia].
  - left. exact Hi.
  - right. exists m', e'. rewrite Hr in Hv. rewrite Hs in Hle. auto.
Qed.

Lemma float_round_bounded (n e j : Z) :
  0 < n -> -1022 <= e -> -1022 <= j <= 1023 -> scaled n e <= scaled 1 j ->
  exists m' e', float_round n e = S754_finite false m' e'
       /\ valid_float (S754_finite false m' e')
       /\ scaled (Zpos m') e' <= scaled 1 j.
Proof.
  intros Hn He Hj Hle.
  assert (He' : e <= 1023).
  { destruct (Z_le_gt_dec e 1023) as [|Hgt]; [assumption|exfalso].
    assert (scaled 1 j < scaled n e); [|lia].
    apply Z.le_lt_trans with (scaled 1 1023);
      [apply scaled_mono_exp; unfold scale_base; lia|].
    apply Z.lt_le_trans with (scaled 1 e).
    - unfold scaled. rewrite !Z.mul_1_l. apply Z.pow_lt_mono_r; unfold scale_base; lia.
    - apply scaled_le; [unfold scale_base; lia|lia]. }
  destruct (float_round_pos n e Hn ltac:(unfold scale_base; lia)) as (_ & _ & Hup).
  destruct (pow2_canonical j Hj) as (Hc & Hb & Hs).
  destruct (float_round_positive n e Hn ltac:(lia)) as [Hi|(m' & e' & Hr & Hv & Hlo)];
    destruct (Hup (2 ^ 52) (j - 52) ltac:(lia) Hc Hb ltac:(lia)) as [Hz|(m2 & e2 & Hr2 & Hle2)];
    try congruence.
  exists m', e'. split; [exact Hr|]. split; [exact Hv|].
  rewrite Hr in Hr2. inversion Hr2; subst. lia.
Qed.

(** Addition of two positive doubles. *)
Lemma float_add_pos (mx : positive) (ex : Z) (my : positive) (ey : Z) :
  valid_float (S754_finite false mx ex) -> valid_float (S754_finite false my ey) ->
  let r := float_add (S754_finite false mx ex) (S754_finite false my ey) in
  let sum := scaled (Zpos mx) ex + scaled (Zpos my) ey in
  valid_float r
  /\ (forall l el, 0 < l -> canonical l el -> scaled l el <= sum ->
        r = S754_infinity false
        \/ exists m e, r = S754_finite false m e /\ scaled l el <= scaled (Zpos m) e)
  /\ (forall u eu, 0 < u -> canonical u eu -> eu <= 971 -> sum <= scaled u eu ->
        r = S754_zero false
        \/ exists m e, r = S754_finite false m e /\ scaled (Zpos m) e <= scaled u eu).
Proof.
  intros Hx Hy r sum.
  pose proof (valid_exponent _ _ _ Hx) as Hex. pose proof (valid_exponent _ _ _ Hy) as Hey.
  set (ez := Z.min ex ey).
  destruct (shl_align_spec mx ex ez) as (ax & Hax & Hvx).
  destruct (shl_align_spec my ey ez) as (ay & Hay & Hvy).
  assert (Hr : r = float_round (Zpos ax + Zpos ay) ez).
  { unfold r, float_add, SFadd. fold ez. rewrite Hax, Hay. reflexivity. }
  assert (Hmin1 : Z.min ex ez = ez) by (unfold ez; lia).
  assert (Hmin2 : Z.min ey ez = ez) by (unfold ez; lia).
  rewrite Hmin1 in Hvx. rewrite Hmin2 in Hvy.
  assert (Hsum : scaled (Zpos ax + Zpos ay) ez = sum).
  { unfold sum. rewrite scaled_add, Hvx, Hvy.
    rewrite <- !scaled_shift by (unfold scale_base, ez; lia).
    f_equal; f_equal; lia. }
  destruct (float_round_pos (Zpos ax + Zpos ay) ez ltac:(lia)
              ltac:(unfold scale_base, ez; lia)) as (Hv & Hlo & Hup).
  rewrite Hr. rewrite Hsum in Hlo, Hup. auto.
Qed.

(** Multiplication of two positive doubles. *)
Lemma float_mul_aligned (mx : positive) (ex : Z) (my : positive) (ey : Z) :
  canonical (Zpos mx) ex -> canonical (Zpos my) ey ->
  ex + ey <= fexp 53 1024 (Zdigits2 (Zpos (mx * my)) + (ex + ey)).
Proof.
  unfold canonical. rewrite !fexp_spec. intros Hx Hy.
  assert (Hdx : Zdigits2 (Zpos mx) <= Zdigits2 (Zpos (mx * my))).
  { apply Zdigits2_mono; [lia|]. rewrite Pos2Z.inj_mul. nia. }
  assert (Hdy : Zdigits2 (Zpos my) <= Zdigits2 (Zpos (mx * my))).
  { apply Zdigits2_mono; [lia|]. rewrite Pos2Z.inj_mul. nia. }
  lia.
Qed.

Lemma float_mul_pos (s : bool) (mx : positive) (ex : Z) (my : positive) (ey : Z) (sx sy : bool) :
  valid_float (S754_finite sx mx ex) -> valid_float (S754_finite sy my ey) ->
  let r := float_mul (S754_finite sx mx ex) (S754_finite sy my ey) in
  let prod := scaled (Zpos mx * Zpos my) (ex + ey) in
  valid_float r
  /\ (forall l el, 0 < l -> canonical l el -> scaled l el <= prod ->
        r = S754_infinity (xorb sx sy)
        \/ exists m e, r = S754_finite (xorb sx sy) m e /\ scaled l el <= scaled (Zpos m) e)
  /\ (forall u eu, 0 < u -> canonical u eu -> eu <= 971 -> prod <= scaled u eu ->
        r = S754_zero (xorb sx sy)
        \/ exists m e, r = S754_finite (xorb sx sy) m e /\ scaled (Zpos m) e <= scaled u eu).
Proof.
  intros Hx Hy r prod.
  pose proof (valid_exponent _ _ _ Hx) as Hex. pose proof (valid_exponent _ _ _ Hy) as Hey.
  apply valid_finite in Hx as [Hcx _]. apply valid_finite in Hy as [Hcy _].
  pose proof (float_mul_aligned mx ex my ey Hcx Hcy) as Hk.
  assert (Hr : r = binary_round_aux 53 1024 (xorb sx sy) (Zpos (mx * my)) (ex + ey) loc_Exact)
    by reflexivity.
  assert (Hb : scale_base <= ex + ey) by (unfold scale_base; lia).
  unfold prod. rewrite <- Pos2Z.inj_mul. rewrite Hr.
  split; [apply round_aux_valid; exact Hk|]. split.
  - intros l el Hl Hc Hle. apply round_aux_lower; assumption.
  - intros u eu Hu Hc Heu Hle. apply round_aux_upper; assumption.
Qed.

(** [int(f)] on a positive double is the floor of its value. *)
Lemma scaled_int (x e : Z) : scale_base <= e -> 0 <= e -> scaled x e = scaled (x * 2 ^ e) 0.
Proof.
  intros Hb He. rewrite <- scaled_shift by (unfold scale_base; lia). f_equal.
Qed.

Lemma scaled_frac (x e : Z) : scale_base <= e -> e <= 0 -> scaled x 0 = scaled (x * 2 ^ (- e)) e.
Proof.
  intros Hb He. rewrite <- scaled_shift by lia. f_equal. lia.
Qed.

Lemma int_of_float_floor (m : positive) (e : Z) :
  scale_base <= e ->
  exists t, int_of_float (S754_finite false m e) = Ok t
    /\ 0 <= t
    /\ scaled t 0 <= scaled (Zpos m) e < scaled (t + 1) 0.
Proof.
  intros He. cbn [int_of_float cond_Zopp]. destruct (Z.leb_spec 0 e) as [Hpos|Hneg].
  - eexists. split; [reflexivity|].
    assert (0 < 2 ^ e) by (apply Z.pow_pos_nonneg; lia).
    split; [nia|]. rewrite (scaled_int (Zpos m) e He Hpos).
    split; [lia|]. apply scaled_lt; [unfold scale_base; lia|lia].
  - eexists. split; [reflexivity|].
    assert (Hp : 0 < 2 ^ (- e)) by (apply Z.pow_pos_nonneg; lia).
    split; [apply Z.div_pos; lia|].
    rewrite !(scaled_frac _ e He) by lia.
    pose proof (Z.mul_div_le (Zpos m) (2 ^ (- e)) Hp).
    pose proof (Z.mul_succ_div_gt (Zpos m) (2 ^ (- e)) Hp).
    split; [apply scaled_le; [exact He|lia]|apply scaled_lt; [exact He|lia]].
Qed.

(** [n < f] compares the values. *)
Lemma int_lt_float_spec (n : Z) (f : float) :
  float_finite f = true -> (forall s m e, f = S754_finite s m e -> scale_base <= e) ->
  int_lt_float n f = (scaled n 0 <? fscaled f).
Proof.
  intros Hf He. destruct f as [s|s| |s m e]; try discriminate.
  - cbn [int_lt_float fscaled]. unfold scaled.
    assert (0 < 2 ^ (0 - scale_base)) by (apply Z.pow_pos_nonneg; unfold scale_base; lia).
    destruct (Z.ltb_spec n 0), (Z.ltb_spec (n * 2 ^ (0 - scale_base)) 0); try reflexivity; nia.
  - specialize (He s m e eq_refl). cbn [int_lt_float fscaled].
    assert (Hc : cond_Zopp s (scaled (Zpos m) e) = scaled (cond_Zopp s (Zpos m)) e).
    { destruct s; cbn [cond_Zopp]; unfold scaled; ring. }
    rewrite Hc. set (z := cond_Zopp s (Zpos m)).
    destruct (Z.leb_spec 0 e) as [Hpos|Hneg].
    + rewrite (scaled_int z e He Hpos).
      destruct (Z.ltb_spec n (z * 2 ^ e)), (Z.ltb_spec (scaled n 0) (scaled (z * 2 ^ e) 0));
        try reflexivity; exfalso.
      * apply (scaled_lt n (z * 2 ^ e) 0) in H; [lia|unfold scale_base; lia].
      * apply (scaled_lt n (z * 2 ^ e) 0) in H0; [lia|unfold scale_base; lia].
    + rewrite (scaled_frac n e He) by lia.
      destruct (Z.ltb_spec (n * 2 ^ (- e)) z), (Z.ltb_spec (scaled (n * 2 ^ (- e)) e) (scaled z e));
        try reflexivity; exfalso.
      * apply (scaled_lt (n * 2 ^ (- e)) z e) in H; [lia|exact He].
      * apply (scaled_lt (n * 2 ^ (- e)) z e) in H0; [lia|exact He].
Qed.

(** ** The channel adjuster *)

Lemma make_divisible_unfold (v : number) (divisor : Z) (min_value : option Z)
    (h fv : float) (t : Z) :
  divisor <> 0 ->
  int_half divisor = Ok h -> to_float v = Ok fv ->
  int_of_float (float_add fv h) = Ok t ->
  _make_divisible v divisor min_value
  = let lo := match min_value with None => divisor | Some m => m end in
    let new_v := Z.max lo (t / divisor * divisor) in
    if int_lt_float new_v (float_mul float_0_9 fv) then Ok (new_v + divisor) else Ok new_v.
Proof.
  intros Hd Hh Hv Ht. unfold _make_divisible, py_floordiv. rewrite Hh, Hv, Ht.
  destruct (Z.eqb_spec divisor 0); [contradiction|reflexivity].
Qed.

Lemma make_divisible_inv (v : number) (divisor : Z) (min_value : option Z) (r : Z) :
  _make_divisible v divisor min_value = Ok r ->
  exists h fv t,
    divisor <> 0 /\ int_half divisor = Ok h /\ to_float v = Ok fv
    /\ int_of_float (float_add fv h) = Ok t.
Proof.
  unfold _make_divisible, py_floordiv.
  destruct (int_half divisor) as [h|] eqn:Hh; [|discriminate].
  destruct (to_float v) as [fv|] eqn:Hv; [|discriminate].
  destruct (int_of_float (float_add fv h)) as [t|] eqn:Ht; [|discriminate].
  destruct (Z.eqb_spec divisor 0); [discriminate|].
  intros _. exists h, fv, t. repeat split; auto.
Qed.

(** The result is the clamped multiple or one step above it; either way
    it is at least the minimum and as divisible as the minimum. *)
Lemma make_divisible_multiple (v : number) (divisor : Z) (min_value : option Z) (r : Z) :
  0 < divisor ->
  _make_divisible v divisor min_value = Ok r ->
  let lo := match min_value with None => divisor | Some m => m end in
  lo <= r /\ ((divisor | lo) -> (divisor | r)).
Proof.
  intros Hd Hr lo.
  destruct (make_divisible_inv _ _ _ _ Hr) as (h & fv & t & Hn & Hh & Hv & Ht).
  rewrite (make_divisible_unfold v divisor min_value h fv t Hn Hh Hv Ht) in Hr.
  cbv zeta in Hr. fold lo in Hr.
  assert (Hm : (divisor | lo) -> (divisor | Z.max lo (t / divisor * divisor))).
  { intros Hlo. destruct (Z.max_spec lo (t / divisor * divisor)) as [[_ ->]|[_ ->]];
      [exists (t / divisor); reflexivity|exact Hlo]. }
  destruct (int_lt_float _ _) in Hr; inversion Hr; subst r.
  - split; [lia|]. intros Hlo. apply Z.divide_add_r; [auto|apply Z.divide_refl].
  - split; [lia|exact Hm].
Qed.

Lemma round_down_bounds (t d : Z) : 0 < d -> t / d * d <= t < t / d * d + d.
Proof.
  intros Hd. pose proof (Z.mul_div_le t d Hd). pose proof (Z.mul_succ_div_gt t d Hd). lia.
Qed.

Lemma int_half_pos (d : Z) (h : float) :
  0 < d -> int_half d = Ok h ->
  exists m e, h = S754_finite false m e /\ valid_float h
    /\ scaled 1 (-1) <= scaled (Zpos m) e.
Proof.
  intros Hd. unfold int_half.
  destruct (float_round_positive d (-1) Hd ltac:(lia)) as [->|(m & e & -> & Hv & Hle)];
    [discriminate|].
  intros H. inversion H; subst. exists m, e. auto.
Qed.

Lemma float_of_int_nonneg (n : Z) (f : float) :
  0 <= n -> float_of_int n = Ok f -> valid_float f /\ float_nonneg f.
Proof.
  intros Hn. unfold float_of_int.
  destruct (Z.eq_dec n 0) as [->|Hne].
  - intros H. inversion H. split; reflexivity.
  - destruct (float_round_positive n 0 ltac:(lia) ltac:(lia)) as [->|(m & e & -> & Hv & _)];
      [discriminate|].
    intros H. inversion H; subst. split; [exact Hv|exact I].
Qed.

Lemma to_float_nonneg (v : number) (fv : float) :
  number_nonneg v -> to_float v = Ok fv ->
  valid_float fv /\ (float_nonneg fv \/ fv = S754_infinity false).
Proof.
  destruct v as [n|f]; cbn [number_nonneg to_float].
  - intros Hn H. destruct (float_of_int_nonneg n fv Hn H). auto.
  - intros Hf H. inversion H; subst. exact Hf.
Qed.

(** [v + h] for a double [v] that is not negative and a positive [h]. *)
Lemma float_add_nonneg (fv : float) (m : positive) (e : Z) :
  valid_float fv -> float_nonneg fv -> valid_float (S754_finite false m e) ->
  let s := float_add fv (S754_finite false m e) in
  let sum := fscaled fv + scaled (Zpos m) e in
  valid_float s
  /\ (forall l el, 0 < l -> canonical l el -> scaled l el <= sum ->
        s = S754_infinity false
        \/ exists ms es, s = S754_finite false ms es /\ scaled l el <= scaled (Zpos ms) es)
  /\ (forall u eu, 0 < u -> canonical u eu -> eu <= 971 -> sum <= scaled u eu ->
        exists ms es, s = S754_finite false ms es /\ scaled (Zpos ms) es <= scaled u eu)
  /\ (s = S754_infinity false
      \/ exists ms es, s = S754_finite false ms es /\ fscaled fv <= scaled (Zpos ms) es).
Proof.
  intros Hv Hn Hh s sum.
  pose proof (valid_exponent _ _ _ Hh) as Heh.
  destruct fv as [s0|s0| |[|] mv ev]; try contradiction.
  - (* zero *)
    assert (Hs : s = S754_finite false m e) by reflexivity.
    unfold sum. cbn [fscaled]. rewrite Hs. split; [exact Hh|]. split; [|split].
    + intros l el _ _ Hle. right. exists m, e. split; [reflexivity|lia].
    + intros u eu _ _ _ Hle. exists m, e. split; [reflexivity|lia].
    + right. exists m, e. split; [reflexivity|].
      apply Z.lt_le_incl. apply scaled_pos; [lia|unfold scale_base; lia].
  - (* positive *)
    destruct (float_add_pos mv ev m e Hv Hh) as (Hvs & Hlo & Hup). cbv zeta in Hvs, Hlo, Hup.
    fold s in Hvs, Hlo, Hup. unfold sum. cbn [fscaled cond_Zopp].
    pose proof (valid_exponent _ _ _ Hv) as Hev.
    apply valid_finite in Hv as [Hcv _].
    assert (Hpos : 0 < scaled (Zpos m) e) by (apply scaled_pos; [lia|unfold scale_base; lia]).
    assert (Hlow : s = S754_infinity false
                   \/ exists ms es, s = S754_finite false ms es
                        /\ scaled (Zpos mv) ev <= scaled (Zpos ms) es).
    { apply (Hlo (Zpos mv) ev); [lia|exact Hcv|lia]. }
    split; [exact Hvs|]. split; [exact Hlo|]. split; [|exact Hlow].
    intros u eu Hu Hc Heu Hle.
    destruct (Hup u eu Hu Hc Heu Hle) as [Hz|H]; [|exact H].
    destruct Hlow as [Hi|(ms & es & Hs & _)]; congruence.
Qed.

(** [0.9 * v] is not above [v], for a double [v] that is not negative. *)
Lemma float_mul_0_9 (fv : float) :
  valid_float fv -> float_nonneg fv ->
  let p := float_mul float_0_9 fv in
  float_finite p = true
  /\ (forall s m e, p = S754_finite s m e -> scale_base <= e)
  /\ 0 <= fscaled p <= fscaled fv.
Proof.
  intros Hv Hn p.
  assert (H09 : valid_float float_0_9) by reflexivity.
  destruct fv as [s0|s0| |[|] mv ev]; try contradiction.
  - assert (Hp : p = S754_zero s0) by (destruct s0; reflexivity).
    rewrite Hp. split; [reflexivity|]. split; [discriminate|]. cbn [fscaled]. lia.
  - destruct (float_mul_pos false 8106479329266893 (-53) mv ev false false H09 Hv)
      as (Hvp & _ & Hup).
    cbv zeta in Hvp, Hup. fold float_0_9 in Hvp, Hup. fold p in Hvp, Hup.
    pose proof (valid_exponent _ _ _ Hv) as Hev.
    pose proof Hv as Hv'. apply valid_finite in Hv' as [Hcv Hbv].
    cbn [xorb] in Hup.
    destruct (Hup (Zpos mv) ev ltac:(lia) Hcv Hbv) as [Hz|(m & e & Hp & Hle)].
    + assert (E : scaled (Zpos mv) ev = scaled (Zpos mv * 2 ^ 53) (-53 + ev)).
      { rewrite <- scaled_shift by (unfold scale_base; lia). f_equal. lia. }
      rewrite E. apply scaled_le; [unfold scale_base; lia|].
      change (2 ^ 53) with 9007199254740992. lia.
    + rewrite Hz. split; [reflexivity|]. split; [discriminate|]. cbn [fscaled cond_Zopp].
      split; [lia|]. apply Z.lt_le_incl. apply scaled_pos; [lia|unfold scale_base; lia].
    + rewrite Hp in Hvp. pose proof (valid_exponent _ _ _ Hvp) as Hep.
      rewrite Hp. split; [reflexivity|]. split.
      * intros s1 m1 e1 E. inversion E; subst. unfold scale_base; lia.
      * cbn [fscaled cond_Zopp]. split; [|exact Hle].
        apply Z.lt_le_incl. apply scaled_pos; [lia|unfold scale_base; lia].
Qed.

(** What holds of a returned result when [v] is not negative: it is not
    below the double [0.9 * v]. *)
Lemma make_divisible_nine_tenths (v : number) (divisor : Z) (min_value : option Z)
    (r : Z) (fv : float) :
  number_nonneg v -> 0 < divisor ->
  _make_divisible v divisor min_value = Ok r ->
  to_float v = Ok fv ->
  int_lt_float r (float_mul float_0_9 fv) = false.
Proof.
  intros Hv Hd Hr Hfv.
  destruct (make_divisible_inv _ _ _ _ Hr) as (h & fv' & t & Hn & Hh & Hv' & Ht).
  rewrite Hfv in Hv'. inversion Hv'; subst fv'. clear Hv'.
  rewrite (make_divisible_unfold v divisor min_value h fv t Hn Hh Hfv Ht) in Hr.
  cbv zeta in Hr.
  set (lo := match min_value with None => divisor | Some m => m end) in *.
  set (new_v := Z.max lo (t / divisor * divisor)) in *.
  destruct (int_lt_float new_v (float_mul float_0_9 fv)) eqn:Hlt;
    inversion Hr; subst r; [|exact Hlt].
  destruct (to_float_nonneg v fv Hv Hfv) as [Hvalid [Hnn|Hinf]].
  2:{ subst fv. destruct (int_half_pos divisor h Hd Hh) as (m & e & -> & _).
      discriminate Ht. }
  destruct (int_half_pos divisor h Hd Hh) as (m & e & -> & Hvh & _).
  destruct (float_add_nonneg fv m e Hvalid Hnn Hvh) as (Hvs & _ & _ & Hlow).
  cbv zeta in Hvs, Hlow.
  destruct Hlow as [Hi|(ms & es & Hs & Hle)]; [rewrite Hi in Ht; discriminate|].
  rewrite Hs in Ht, Hvs. pose proof (valid_exponent _ _ _ Hvs) as Hes.
  destruct (int_of_float_floor ms es ltac:(unfold scale_base; lia)) as (t' & Ht' & Ht0 & Hfl).
  rewrite Ht' in Ht. inversion Ht; subst t'.
  destruct (float_mul_0_9 fv Hvalid Hnn) as (Hfin & Hexp & Hp). cbv zeta in Hfin, Hexp, Hp.
  rewrite (int_lt_float_spec _ _ Hfin Hexp).
  apply Z.ltb_ge.
  pose proof (round_down_bounds t divisor Hd) as [_ Hrd].
  assert (Hstep : scaled (t + 1) 0 <= scaled (new_v + divisor) 0).
  { apply scaled_le; [unfold scale_base; lia|]. unfold new_v. lia. }
  lia.
Qed.

Lemma scaled_1_succ (j : Z) : scale_base <= j -> scaled 1 (j + 1) = 2 * scaled 1 j.
Proof.
  intros Hj. unfold scaled. replace (j + 1 - scale_base) with (Z.succ (j - scale_base)) by lia.
  rewrite Z.pow_succ_r by lia. ring.
Qed.

Lemma scaled_pow2_int (j : Z) : 0 <= j -> scaled (2 ^ j) 0 = scaled 1 j.
Proof.
  intros Hj. rewrite <- (Z.mul_1_l (2 ^ j)). rewrite <- scaled_int by (unfold scale_base; lia).
  reflexivity.
Qed.

(** Conversions of numbers that are not negative and not above [2 ^ j]. *)
Lemma float_of_int_bounded (n j : Z) :
  0 <= n <= 2 ^ j -> 0 <= j <= 1023 ->
  exists f, float_of_int n = Ok f /\ valid_float f /\ float_nonneg f
            /\ fscaled f <= scaled 1 j.
Proof.
  intros Hn Hj. unfold float_of_int. destruct (Z.eq_dec n 0) as [->|Hne].
  - exists (S754_zero false). repeat split.
    cbn [fscaled]. apply Z.lt_le_incl. apply scaled_pos; [lia|unfold scale_base; lia].
  - destruct (float_round_bounded n 0 j ltac:(lia) ltac:(lia) ltac:(lia))
      as (m & e & -> & Hv & Hle).
    + rewrite <- scaled_pow2_int by lia. apply scaled_le; [unfold scale_base; lia|lia].
    + exists (S754_finite false m e). repeat split; auto.
Qed.

Lemma int_half_bounded (d j : Z) :
  0 < d <= 2 ^ (j + 1) -> 0 <= j <= 1023 ->
  exists m e, int_half d = Ok (S754_finite false m e)
    /\ valid_float (S754_finite false m e)
    /\ scaled (Zpos m) e <= scaled 1 j.
Proof.
  intros Hd Hj. unfold int_half.
  destruct (float_round_bounded d (-1) j ltac:(lia) ltac:(lia) ltac:(lia))
    as (m & e & -> & Hv & Hle).
  - replace j with (-1 + (j + 1)) at 1 by lia.
    rewrite scaled_shift by (unfold scale_base; lia). rewrite Z.mul_1_l.
    apply scaled_le; [unfold scale_base; lia|lia].
  - exists m, e. auto.
Qed.

Lemma to_float_bounded (v : number) (j : Z) :
  number_nonneg v -> number_le v (2 ^ j) = true -> 0 <= j <= 1023 ->
  exists f, to_float v = Ok f /\ valid_float f /\ float_nonneg f
            /\ fscaled f <= scaled 1 j.
Proof.
  destruct v as [n|f]; cbn [number_nonneg number_le to_float].
  - intros Hn Hle Hj. apply Z.leb_le in Hle. apply float_of_int_bounded; lia.
  - intros (Hv & Hn) Hle Hj. apply negb_true_iff in Hle.
    destruct Hn as [Hn| ->]; [|discriminate].
    exists f. split; [reflexivity|]. split; [exact Hv|]. split; [exact Hn|].
    rewrite int_lt_float_spec in Hle.
    + apply Z.ltb_ge in Hle. rewrite scaled_pow2_int in Hle by lia. exact Hle.
    + destruct f as [s|s| |s m e]; try contradiction; reflexivity.
    + intros s m e ->. pose proof (valid_exponent _ _ _ Hv). unfold scale_base. lia.
Qed.

Lemma three_halves_canonical :
  canonical (3 * 2 ^ 51) 971 /\ scaled (3 * 2 ^ 51) 971 = 3 * scaled 1 1022.
Proof.
  split; [reflexivity|].
  replace 971 with (1022 + - 51) by lia. unfold scaled.
  replace (1022 - scale_base) with (51 + (1022 + -51 - scale_base)) by (unfold scale_base; lia).
  rewrite (Z.pow_add_r 2 51) by (unfold scale_base; lia). ring.
Qed.

(** The adjuster returns for every number and divisor up to [2 ^ 1023]. *)
Lemma make_divisible_returns (v : number) (divisor : Z) (min_value : option Z) :
  number_nonneg v -> number_le v (2 ^ 1023) = true ->
  0 < divisor <= 2 ^ 1023 ->
  exists r, _make_divisible v divisor min_value = Ok r.
Proof.
  intros Hv Hle Hd.
  destruct (int_half_bounded divisor 1022 ltac:(lia) ltac:(lia)) as (m & e & Hh & Hvh & Hhle).
  destruct (to_float_bounded v 1023 Hv Hle ltac:(lia)) as (fv & Hfv & Hvalid & Hnn & Hfle).
  destruct (float_add_nonneg fv m e Hvalid Hnn Hvh) as (Hvs & _ & Hup & _).
  cbv zeta in Hvs, Hup.
  destruct three_halves_canonical as [Hc Hs].
  destruct (Hup (3 * 2 ^ 51) 971 ltac:(lia) Hc ltac:(lia)) as (ms & es & Hsum & _).
  { rewrite Hs. pose proof (scaled_1_succ 1022 ltac:(unfold scale_base; lia)) as E.
    change (1022 + 1) with 1023 in E. lia. }
  rewrite Hsum in Hvs. pose proof (valid_exponent _ _ _ Hvs) as Hes.
  destruct (int_of_float_floor ms es ltac:(unfold scale_base; lia)) as (t & Ht & _).
  rewrite <- Hsum in Ht.
  rewrite (make_divisible_unfold v divisor min_value _ fv t ltac:(lia) Hh Hfv Ht).
  cbv zeta. destruct (int_lt_float _ _); eauto.
Qed.

(** *** Exact cases *)

Lemma Zdigits2_le (n d : Z) : 0 < n -> n < 2 ^ d -> 0 <= d -> Zdigits2 n <= d.
Proof.
  intros Hn Hlt Hd. pose proof (Zdigits2_bounds n Hn) as [Hlo _].
  pose proof (Zdigits2_pos n Hn).
  assert (H2 : 2 ^ (Zdigits2 n - 1) < 2 ^ d) by lia.
  apply Z.pow_lt_mono_r_iff in H2; lia.
Qed.

(** A mantissa of at most 53 bits at an exponent of the normal range
    rounds to itself. *)
Lemma float_round_exact (n e : Z) :
  0 < n < 2 ^ 53 -> -1074 <= e <= 971 ->
  exists m' e', float_round n e = S754_finite false m' e'
    /\ valid_float (S754_finite false m' e')
    /\ scaled (Zpos m') e' = scaled n e.
Proof.
  intros Hn He.
  assert (Hd : Zdigits2 n <= 53) by (apply Zdigits2_le; lia).
  destruct (representable n e ltac:(lia) Hd ltac:(lia) ltac:(lia)) as (u & eu & Hu & Hc & Heu & Hs).
  destruct (float_round_pos n e ltac:(lia) ltac:(unfold scale_base; lia)) as (Hv & Hlo & Hup).
  destruct (Hlo u eu Hu Hc ltac:(lia)) as [Hi|(m1 & e1 & H1 & Hge)];
    destruct (Hup u eu Hu Hc Heu ltac:(lia)) as [Hz|(m2 & e2 & H2 & Hle)]; try congruence.
  exists m1, e1. rewrite H1 in Hv, H2. inversion H2; subst. repeat split; auto. lia.
Qed.

Lemma float_add_exact (fv : float) (m : positive) (e n ez : Z) :
  valid_float fv -> float_nonneg fv -> valid_float (S754_finite false m e) ->
  0 < n < 2 ^ 53 -> -1074 <= ez <= 971 ->
  fscaled fv + scaled (Zpos m) e = scaled n ez ->
  exists ms es, float_add fv (S754_finite false m e) = S754_finite false ms es
    /\ valid_float (S754_finite false ms es)
    /\ scaled (Zpos ms) es = scaled n ez.
Proof.
  intros Hv Hn Hh Hr He Hsum.
  assert (Hd : Zdigits2 n <= 53) by (apply Zdigits2_le; lia).
  destruct (representable n ez ltac:(lia) Hd ltac:(lia) ltac:(lia)) as (u & eu & Hu & Hc & Heu & Hs).
  destruct (float_add_nonneg fv m e Hv Hn Hh) as (Hvs & Hlo & Hup & _). cbv zeta in Hvs, Hlo, Hup.
  destruct (Hup u eu Hu Hc Heu ltac:(lia)) as (ms & es & Hsm & Hle).
  destruct (Hlo u eu Hu Hc ltac:(lia)) as [Hi|(m2 & e2 & H2 & Hge)]; [congruence|].
  rewrite Hsm in H2, Hvs. inversion H2; subst. exists m2, e2. repeat split; auto. lia.
Qed.

Lemma int_of_float_exact (m : positive) (e t : Z) :
  scale_base <= e -> scaled (Zpos m) e = scaled t 0 ->
  int_of_float (S754_finite false m e) = Ok t.
Proof.
  intros He Hs. destruct (int_of_float_floor m e He) as (t' & -> & _ & Hlo & Hhi).
  rewrite Hs in Hlo, Hhi.
  apply scaled_le in Hlo; [|unfold scale_base; lia].
  apply scaled_lt in Hhi; [|unfold scale_base; lia].
  f_equal. lia.
Qed.

Lemma int_of_float_half (m : positive) (e n : Z) :
  scale_base <= e -> scaled (Zpos m) e = scaled n (-1) ->
  int_of_float (S754_finite false m e) = Ok (n / 2).
Proof.
  intros He Hs. destruct (int_of_float_floor m e He) as (t' & -> & _ & Hlo & Hhi).
  rewrite Hs in Hlo, Hhi.
  rewrite (scaled_frac t' (-1)) in Hlo by (unfold scale_base; lia).
  rewrite (scaled_frac (t' + 1) (-1)) in Hhi by (unfold scale_base; lia).
  apply scaled_le in Hlo; [|unfold scale_base; lia].
  apply scaled_lt in Hhi; [|unfold scale_base; lia].
  change (2 ^ (- -1)) with 2 in *. f_equal.
  apply (Z.div_unique n 2 t' (n - 2 * t')); lia.
Qed.

(** No bump when the candidate is not below [v]. *)
Lemma no_bump (fv : float) (n : Z) :
  valid_float fv -> float_nonneg fv -> fscaled fv <= scaled n 0 ->
  int_lt_float n (float_mul float_0_9 fv) = false.
Proof.
  intros Hv Hn Hle. destruct (float_mul_0_9 fv Hv Hn) as (Hfin & Hexp & Hp).
  cbv zeta in Hfin, Hexp, Hp. rewrite (int_lt_float_spec _ _ Hfin Hexp).
  apply Z.ltb_ge. lia.
Qed.

(** A positive multiple of the divisor that is small enough for the
    arithmetic on doubles to be exact, and not below the minimum, comes
    back unchanged. *)
Lemma make_divisible_fixed (v : number) (fv : float) (k divisor : Z) (min_value : option Z) :
  0 < divisor -> 0 < k -> 2 * (k * divisor) + divisor < 2 ^ 53 ->
  match min_value with None => divisor | Some m => m end <= k * divisor ->
  to_float v = Ok fv -> valid_float fv -> float_nonneg fv ->
  fscaled fv = scaled (k * divisor) 0 ->
  _make_divisible v divisor min_value = Ok (k * divisor).
Proof.
  intros Hd Hk Hsmall Hlo Hfv Hvalid Hnn Hval.
  assert (Hkd : 0 < k * divisor) by nia.
  assert (Hdk : divisor <= k * divisor) by nia.
  destruct (float_round_exact divisor (-1) ltac:(lia) ltac:(lia)) as (mh & eh & Hh & Hvh & Hsh).
  assert (Hhalf : int_half divisor = Ok (S754_finite false mh eh))
    by (unfold int_half; rewrite Hh; reflexivity).
  destruct (float_add_exact fv mh eh (2 * (k * divisor) + divisor) (-1) Hvalid Hnn Hvh
              ltac:(lia) ltac:(lia)) as (ms & es & Hs & Hvs & Hss).
  { rewrite Hval, Hsh, scaled_add. f_equal.
    rewrite (scaled_frac (k * divisor) (-1)) by (unfold scale_base; lia).
    f_equal. change (2 ^ (- -1)) with 2. lia. }
  pose proof (valid_exponent _ _ _ Hvs) as Hes.
  pose proof (int_of_float_half ms es _ ltac:(unfold scale_base; lia) Hss) as Ht.
  rewrite <- Hs in Ht.
  rewrite (make_divisible_unfold v divisor min_value _ fv _ ltac:(lia) Hhalf Hfv Ht).
  cbv zeta.
  assert (Hq : (2 * (k * divisor) + divisor) / 2 / divisor = k).
  { rewrite Z.div_div by lia. symmetry.
    apply (Z.div_unique _ (2 * divisor) k divisor); lia. }
  rewrite Hq. rewrite Z.max_r by lia.
  rewrite (no_bump fv (k * divisor) Hvalid Hnn) by lia. reflexivity.
Qed.

Lemma float_of_int_exact (n : Z) :
  0 < n < 2 ^ 53 ->
  exists m e, float_of_int n = Ok (S754_finite false m e)
    /\ valid_float (S754_finite false m e)
    /\ scaled (Zpos m) e = scaled n 0.
Proof.
  intros Hn. destruct (float_round_exact n 0 Hn ltac:(lia)) as (m & e & Hr & Hv & Hs).
  exists m, e. unfold float_of_int. rewrite Hr. auto.
Qed.

(** *** Validity of the results, whatever the signs *)








(** C4, as amended.  For every number [v] that is not negative (an
    [int], or a double, the positive infinity included), every positive
    divisor and every optional minimum: the channel adjuster returns
    when [v] and the divisor are at most [2 ^ 1023]; and whenever it
    returns, its result is at least the minimum in force (the divisor
    when none is given), is a multiple of the divisor if the minimum in
    force is one, and is not below the double [0.9 * v] that the
    function computes and compares it with. *)
Theorem make_divisible_bounds (v : number) (divisor : Z) (min_value : option Z) :
  number_nonneg v -> 0 < divisor ->
  (number_le v (2 ^ 1023) = true -> divisor <= 2 ^ 1023 ->
   exists r, _make_divisible v divisor min_value = Ok r)
  /\ (forall r, _make_divisible v divisor min_value = Ok r ->
        match min_value with None => divisor | Some m => m end <= r
        /\ ((divisor | match min_value with None => divisor | Some m => m end)
            -> (divisor | r))
        /\ (forall fv, to_float v = Ok fv ->
              int_lt_float r (float_mul float_0_9 fv) = false)).
Proof.
  intros Hv Hd. split.
  - intros Hle Hdle. apply make_divisible_returns; [exact Hv|exact Hle|lia].
  - intros r Hr. destruct (make_divisible_multiple v divisor min_value r Hd Hr) as [Hlo Hdiv].
    split; [exact Hlo|]. split; [exact Hdiv|].
    intros fv Hfv. exact (make_divisible_nine_tenths v divisor min_value r fv Hv Hd Hr Hfv).
Qed.

Lemma make_divisible_bounds_witness :
  exists r, _make_divisible (Float (float_round 72 0)) 8 None = Ok r
    /\ 8 <= r /\ (8 | r)
    /\ int_lt_float r (float_mul float_0_9 (float_round 72 0)) = false.
Proof.
  destruct (make_divisible_bounds (Float (float_round 72 0)) 8 None) as [Hret Hres].
  - split; [reflexivity|left; exact I].
  - lia.
  - destruct Hret as [r Hr]; [reflexivity|vm_compute; discriminate|].
    exists r. destruct (Hres r Hr) as (Hlo & Hdiv & Hnt).
    split; [exact Hr|]. split; [exact Hlo|]. split; [apply Hdiv; apply Z.divide_refl|].
    apply Hnt. reflexivity.
Defined.

(** C4 as stated fails when a minimum is given that is not a multiple of
    the divisor: for [v = 0.0], divisor 8 and minimum 3 the result is 3. *)
Lemma make_divisible_not_multiple :
  _make_divisible (Float (S754_zero false)) 8 (Some 3) = Ok 3 /\ ~ (8 | 3).
Proof.
  split; [reflexivity|]. intros [k Hk]. lia.
Qed.

(** Nor is the result always at least 0.9 v in exact arithmetic: the
    guard compares with the rounded product.  For the double
    [v = 8.88888888888889], which is [5003999585967218 * 2 ^ -49], and
    divisor 8 the product [0.9 * v] rounds to [8.0], the result is 8, and
    [10 * 8 < 9 * v]. *)
Lemma make_divisible_below_nine_tenths :
  _make_divisible (Float (S754_finite false 5003999585967218 (-49))) 8 None = Ok 8
  /\ float_mul float_0_9 (S754_finite false 5003999585967218 (-49)) = float_round 8 0
  /\ 10 * (8 * 2 ^ 49) < 9 * 5003999585967218.
Proof.
  split; [vm_compute; reflexivity|]. split; [vm_compute; reflexivity|]. reflexivity.
Qed.

(** The fixed points among the [int]s and the doubles of integers. *)
Lemma make_divisible_fixed_aux (k divisor : Z) (min_value : option Z) :
  0 < divisor -> 0 < k -> 2 * (k * divisor) + divisor < 2 ^ 53 ->
  match min_value with None => divisor | Some m => m end <= k * divisor ->
  _make_divisible (Int (k * divisor)) divisor min_value = Ok (k * divisor)
  /\ _make_divisible (Float (float_round (k * divisor) 0)) divisor min_value
     = Ok (k * divisor).
Proof.
  intros Hd Hk Hsmall Hlo.
  assert (Hkd : 0 < k * divisor) by nia.
  destruct (float_of_int_exact (k * divisor) ltac:(lia)) as (m & e & Hf & Hv & Hs).
  assert (Hr : float_round (k * divisor) 0 = S754_finite false m e).
  { unfold float_of_int in Hf. destruct (float_round (k * divisor) 0); inversion Hf; reflexivity. }
  split.
  - apply (make_divisible_fixed _ (S754_finite false m e)); auto. exact I.
  - rewrite Hr. apply (make_divisible_fixed _ (S754_finite false m e)); auto. exact I.
Qed.

(** *** The channel counts of a config *)

Lemma scaled_mul (m1 e1 m2 e2 : Z) :
  scale_base <= e1 -> scale_base <= e2 -> scale_base <= e1 + e2 ->
  scaled (m1 * m2) (e1 + e2) * 2 ^ (- scale_base) = scaled m1 e1 * scaled m2 e2.
Proof.
  intros H1 H2 H12. unfold scaled.
  replace (m1 * m2 * 2 ^ (e1 + e2 - scale_base) * 2 ^ (- scale_base))
    with (m1 * m2 * (2 ^ (e1 + e2 - scale_base) * 2 ^ (- scale_base))) by ring.
  rewrite <- Z.pow_add_r by (unfold scale_base in *; lia).
  replace (e1 + e2 - scale_base + - scale_base) with ((e1 - scale_base) + (e2 - scale_base)) by lia.
  rewrite Z.pow_add_r by lia. ring.
Qed.

(** The product of two doubles that are not negative and not above
    [2 ^ i] and [2 ^ j]. *)
Lemma float_mul_bounded (x y : float) (i j : Z) :
  valid_float x -> float_nonneg x -> valid_float y -> float_nonneg y ->
  0 <= i -> 0 <= j -> i + j <= 1023 ->
  fscaled x <= scaled 1 i -> fscaled y <= scaled 1 j ->
  valid_float (float_mul x y) /\ float_nonneg (float_mul x y)
  /\ fscaled (float_mul x y) <= scaled 1 (i + j).
Proof.
  intros Hvx Hnx Hvy Hny Hi Hj Hij Hx Hy.
  assert (Hpos : 0 <= scaled 1 (i + j)).
  { apply Z.lt_le_incl. apply scaled_pos; [lia|unfold scale_base; lia]. }
  destruct x as [sx|sx| |[|] mx ex]; try contradiction;
    destruct y as [sy|sy| |[|] my ey]; try contradiction;
    try (split; [reflexivity|]; split; [exact I|]; exact Hpos).
  cbn [fscaled cond_Zopp] in Hx, Hy.
  pose proof (valid_exponent _ _ _ Hvx) as Hex. pose proof (valid_exponent _ _ _ Hvy) as Hey.
  destruct (float_mul_pos false mx ex my ey false false Hvx Hvy) as (Hv & _ & Hup).
  cbv zeta in Hv, Hup. cbn [xorb] in Hup.
  destruct (pow2_canonical (i + j) ltac:(lia)) as (Hc & Hb & Hs).
  destruct (Hup (2 ^ 52) (i + j - 52) ltac:(lia) Hc Hb) as [Hz|(m & e & Hp & Hle)].
  - rewrite Hs.
    pose proof (scaled_mul (Zpos mx) ex (Zpos my) ey) as E1.
    pose proof (scaled_mul 1 i 1 j) as E2. rewrite Z.mul_1_l in E2.
    assert (Hc0 : 0 < 2 ^ (- scale_base)) by (apply Z.pow_pos_nonneg; unfold scale_base; lia).
    assert (H1 : 0 <= scaled (Zpos mx) ex)
      by (apply Z.lt_le_incl; apply scaled_pos; [lia|unfold scale_base; lia]).
    assert (H2 : 0 <= scaled (Zpos my) ey)
      by (apply Z.lt_le_incl; apply scaled_pos; [lia|unfold scale_base; lia]).
    specialize (E1 ltac:(unfold scale_base; lia) ltac:(unfold scale_base; lia)
                   ltac:(unfold scale_base; lia)).
    specialize (E2 ltac:(unfold scale_base; lia) ltac:(unfold scale_base; lia)
                   ltac:(unfold scale_base; lia)).
    assert (scaled (Zpos mx) ex * scaled (Zpos my) ey <= scaled 1 i * scaled 1 j) by nia.
    nia.
  - rewrite Hz. split; [reflexivity|]. split; [exact I|]. exact Hpos.
  - rewrite Hp in Hv |- *. split; [exact Hv|]. split; [exact I|].
    cbn [fscaled cond_Zopp]. rewrite Hs in Hle. exact Hle.
Qed.

Lemma width_in_range_bound (wm : float) :
  width_in_range wm -> valid_float wm /\ float_nonneg wm /\ fscaled wm <= scaled 1 511.
Proof.
  intros (Hv & Hn & Hle). split; [exact Hv|]. split; [exact Hn|].
  rewrite int_lt_float_spec in Hle.
  - apply Z.ltb_ge in Hle. rewrite scaled_pow2_int in Hle by lia. exact Hle.
  - destruct wm as [s|s| |s m e]; try contradiction; reflexivity.
  - intros s m e ->. pose proof (valid_exponent _ _ _ Hv). unfold scale_base. lia.
Qed.

(** Channel counts and width multipliers between 0 and [2 ^ 511] are
    adjusted: the call returns. *)
Lemma adjust_channels_returns (channels : Z) (wm : float) :
  0 <= channels <= 2 ^ 511 -> width_in_range wm ->
  exists r, InvertedResidualConfig.adjust_channels channels wm = Ok r.
Proof.
  intros Hc Hw. apply width_in_range_bound in Hw as (Hvw & Hnw & Hlw).
  unfold InvertedResidualConfig.adjust_channels.
  destruct (float_of_int_bounded channels 511 Hc ltac:(lia)) as (fc & -> & Hvc & Hnc & Hlc).
  destruct (float_mul_bounded fc wm 511 511 Hvc Hnc Hvw Hnw ltac:(lia) ltac:(lia) ltac:(lia)
              Hlc Hlw) as (Hvp & Hnp & Hlp).
  apply make_divisible_returns.
  - split; [exact Hvp|left; exact Hnp].
  - cbn [number_le]. apply negb_true_iff. rewrite int_lt_float_spec.
    + apply Z.ltb_ge. rewrite scaled_pow2_int by lia.
      apply Z.le_trans with (1 := Hlp). apply scaled_mono_exp; [lia|unfold scale_base; lia].
    + destruct (float_mul fc wm) as [s|s| |s m e]; try contradiction; reflexivity.
    + intros s m e E. rewrite E in Hvp. pose proof (valid_exponent _ _ _ Hvp).
      unfold scale_base. lia.
  - split; [lia|]. apply Z.lt_le_incl. reflexivity.
Qed.




(** ** Reasoning about the monad *)

Lemma bind_ok {A B} (m : M A) (k : A -> M B) w a w' :
  m w = (Ok a, w') -> bind m k w = k a w'.
Proof. unfold bind. intros ->. reflexivity. Qed.

Lemma bind_raise {A B} (m : M A) (k : A -> M B) w e w' :
  m w = (Raise e, w') -> bind m k w = (Raise e, w').
Proof. unfold bind. intros ->. reflexivity. Qed.

Lemma preserves_ret {X A} (f : world -> X) (a : A) : preserves f (ret a).
Proof. intros w. reflexivity. Qed.

Lemma preserves_raise {X A} (f : world -> X) e : preserves f (@raise A e).
Proof. intros w. reflexivity. Qed.

Lemma preserves_lift {X A} (f : world -> X) (r : result A) : preserves f (lift r).
Proof. intros w. reflexivity. Qed.

Lemma preserves_bind {X A B} (f : world -> X) (m : M A) (k : A -> M B) :
  preserves f m -> (forall a, preserves f (k a)) -> preserves f (bind m k).
Proof.
  intros Hm Hk w. unfold bind. specialize (Hm w).
  destruct (m w) as [[a|e] w1]; simpl in *.
  - rewrite Hk. exact Hm.
  - exact Hm.
Qed.

Lemma preserves_if {X A} (f : world -> X) (b : bool) (m1 m2 : M A) :
  preserves f m1 -> preserves f m2 -> preserves f (if b then m1 else m2).
Proof. destruct b; auto. Qed.

Lemma preserves_call {X} (f : world -> X) m x : preserves f (call m x).
Proof. apply preserves_lift. Qed.

Lemma preserves_read_list {X} (f : world -> X) l : preserves f (read_list l).
Proof. intros w. reflexivity. Qed.

Lemma preserves_read_config {X} (f : world -> X) l : preserves f (read_config l).
Proof. intros w. unfold read_config. destruct (configs w !! l); reflexivity. Qed.

Lemma preserves_seq_item {X} (f : world -> X) vs i : preserves f (seq_item vs i).
Proof. unfold seq_item. destruct (vs !! i); [apply preserves_ret|apply preserves_raise]. Qed.

Lemma preserves_sequential_getitem {X A} (f : world -> X) (ls : list A) i :
  preserves f (sequential_getitem ls i).
Proof.
  unfold sequential_getitem. destruct (ls !! i); [apply preserves_ret|apply preserves_raise].
Qed.

Lemma preserves_py_len {X} (f : world -> X) v : preserves f (py_len v).
Proof.
  destruct v as [|[|d s]|items|l]; simpl;
    try apply preserves_ret; try apply preserves_raise.
  apply preserves_bind; [apply preserves_read_list|intros; apply preserves_ret].
Qed.

Lemma preserves_py_getitem {X} (f : world -> X) v i : preserves f (py_getitem v i).
Proof.
  destruct v as [|[|d s]|items|l]; simpl;
    try apply preserves_raise; try apply preserves_seq_item.
  - apply preserves_if; [apply preserves_ret|apply preserves_raise].
  - apply preserves_bind; [apply preserves_read_list|intros; apply preserves_seq_item].
Qed.

Lemma preserves_unpack2 {X} (f : world -> X) v : preserves f (unpack2 v).
Proof.
  destruct v as [|[|d s]|items|l]; simpl; try apply preserves_raise.
  - apply preserves_if; [apply preserves_ret|apply preserves_raise].
  - destruct items as [|a [|b [|c r]]]; try apply preserves_raise. apply preserves_ret.
  - apply preserves_bind; [apply preserves_read_list|].
    intros [|a [|b [|c r]]]; try apply preserves_raise. apply preserves_ret.
Qed.

Lemma preserves_print_configs s : preserves configs (print s).
Proof. intros w. reflexivity. Qed.

Lemma preserves_print_lists s : preserves lists (print s).
Proof. intros w. reflexivity. Qed.

Lemma preserves_append_configs t v : preserves configs (py_append t v).
Proof.
  destruct t; simpl; try apply preserves_raise.
  apply preserves_bind; [apply preserves_read_list|]. intros vs w. reflexivity.
Qed.

Create HintDb frame.
#[export] Hint Resolve preserves_ret preserves_raise preserves_lift preserves_call
  preserves_read_list preserves_read_config preserves_seq_item
  preserves_sequential_getitem preserves_py_len preserves_py_getitem
  preserves_unpack2 preserves_print_configs preserves_print_lists
  preserves_append_configs : frame.

(** Peels binds and conditionals, then closes the leaves from the hints. *)
Ltac frame :=
  repeat first
    [ apply preserves_bind; [|intros]
    | apply preserves_if
    | match goal with
      | |- preserves _ (match ?x with _ => _ end) => destruct x
      end
    | solve [auto with frame] ].

(** ** Construction of the blocks *)

Lemma py_len_world (v : value) (w : world) : snd (py_len v w) = w.
Proof. destruct v as [|[|d s]|items|l]; reflexivity. Qed.

Lemma py_len_run (v : value) (w : world) (n : Z) :
  fst (py_len v w) = Ok n -> py_len v w = (Ok n, w).
Proof.
  intros H. pose proof (py_len_world v w) as Hw.
  destruct (py_len v w) as [r w']. simpl in *. congruence.
Qed.

Lemma CNA_init_iw i o k s g d nl act m :
  ConvNormActivation.iw (ConvNormActivation.__init__ i o k s g d nl act m) = m.
Proof. unfold ConvNormActivation.__init__. reflexivity. Qed.

(** What [InvertedResidual.__init__] builds from a config whose stride
    passes the check and whose squeeze width is defined: the store is
    left alone, the block and each of its
    Conv-Norm-Activation stages take the config's mode, and the
    squeeze-excitation stage comes from [se_layer] on the expanded width. *)
Lemma InvertedResidual_init_ok (w : world) (l : loc) (c : InvertedResidualConfig.t) nl se :
  configs w !! l = Some c ->
  (1 <=? InvertedResidualConfig.stride c) && (InvertedResidualConfig.stride c <=? 2) = true ->
  squeeze_defined c ->
  exists b, InvertedResidual.__init__ l nl se w = (Ok b, w)
    /\ InvertedResidual.iw b = InvertedResidualConfig.iw c
    /\ InvertedResidual.cnf b = l
    /\ InvertedResidual.use_res_connect b =
         (InvertedResidualConfig.stride c =? 1)
         && (InvertedResidualConfig.input_channels c =? InvertedResidualConfig.out_channels c)
    /\ InvertedResidual.instance_norm_layer b =
         (if InvertedResidualConfig.iw c =? 1
          then InstanceWhitening (InvertedResidualConfig.out_channels c)
          else if InvertedResidualConfig.iw c =? 2
          then InstanceWhitening (InvertedResidualConfig.out_channels c)
          else if InvertedResidualConfig.iw c =? 3
          then InstanceNorm2d (InvertedResidualConfig.out_channels c) false
          else if InvertedResidualConfig.iw c =? 4
          then InstanceNorm2d (InvertedResidualConfig.out_channels c) false
          else EmptySequential)
    /\ (forall m, In (CNA m) (InvertedResidual.conv b) ->
          ConvNormActivation.iw m = InvertedResidualConfig.iw c)
    /\ (forall s, In (SE s) (InvertedResidual.conv b) ->
          exists sq, s = se (InvertedResidualConfig.expanded_channels c) sq).
Proof.
  intros Hl Hs Hq. unfold InvertedResidual.__init__.
  rewrite (bind_ok _ _ w c w) by (unfold read_config; rewrite Hl; reflexivity).
  rewrite Hs. cbn [negb].
  destruct (InvertedResidualConfig.use_se c) eqn:Hse.
  - destruct (Hq Hse) as [sq Hsq].
    unfold bind at 1. unfold bind at 1. unfold lift. rewrite Hsq. cbn [ret].
    eexists. split; [reflexivity|]. cbn.
    repeat split; try reflexivity.
    + intros m Hm.
      destruct (negb _); cbn in Hm;
        repeat (destruct Hm as [Hm|Hm]; [inversion Hm; subst; apply CNA_init_iw || discriminate|]);
        try contradiction.
    + intros s Hm.
      destruct (negb _); cbn in Hm;
        repeat (destruct Hm as [Hm|Hm]; [inversion Hm; subst; eauto|]);
        try contradiction.
  - unfold bind at 1. cbn [ret].
    eexists. split; [reflexivity|]. cbn.
    repeat split; try reflexivity.
    + intros m Hm.
      destruct (negb _); cbn in Hm;
        repeat (destruct Hm as [Hm|Hm]; [inversion Hm; subst; apply CNA_init_iw|]);
        try contradiction.
    + intros s Hm.
      destruct (negb _); cbn in Hm;
        repeat (destruct Hm as [Hm|Hm]; [inversion Hm|]);
        try contradiction.
Qed.

(** A config from which the constructor returned a block has its squeeze
    width defined. *)
Lemma InvertedResidual_init_defined (w w' : world) (l : loc) (c : InvertedResidualConfig.t)
    nl se (b : InvertedResidual.t) :
  configs w !! l = Some c ->
  InvertedResidual.__init__ l nl se w = (Ok b, w') ->
  squeeze_defined c.
Proof.
  intros Hl H Hse. unfold InvertedResidual.__init__ in H.
  rewrite (bind_ok _ _ w c w) in H by (unfold read_config; rewrite Hl; reflexivity).
  destruct (negb _); [discriminate|]. rewrite Hse in H.
  destruct (_make_divisible (Int (InvertedResidualConfig.expanded_channels c / 4)) 8 None)
    as [q|e] eqn:Hq; [eauto|].
  unfold bind at 1 in H. unfold bind at 1 in H. unfold lift in H.
  try rewrite Hq in H. discriminate.
Qed.

Lemma stride_check_spec (s : Z) :
  (1 <=? s) && (s <=? 2) = true <-> (s = 1 \/ s = 2).
Proof. rewrite andb_true_iff, !Z.leb_le. lia. Qed.

(** ** Stride validation (C6) *)

(** The exceptions of the channel adjuster: a double that overflows, a
    NaN, a zero divisor. *)
Lemma make_divisible_exn (v : number) (divisor : Z) (min_value : option Z) (e : exn) :
  _make_divisible v divisor min_value = Raise e ->
  (exists msg, e = OverflowError msg)
  \/ e = ValueError "cannot convert float NaN to integer"
  \/ e = ZeroDivisionError "integer division or modulo by zero".
Proof.
  unfold _make_divisible, int_half, to_float, float_of_int, py_floordiv.
  destruct (float_round divisor (-1)); try (intros H; inversion H; eauto; fail);
    (destruct v as [n|f];
     [destruct (float_round n 0) as [?|?| |? ? ?];
      try (intros H; inversion H; eauto; fail)|]);
    match goal with
    | |- context [int_of_float ?x] =>
        destruct x; cbn [int_of_float]; try (intros H; inversion H; eauto; fail)
    end;
    destruct (divisor =? 0); try (intros H; inversion H; eauto; fail);
    destruct (int_lt_float _ _); intros H; inversion H.
Qed.

(** With a stride that passes the check, the constructor returns or
    raises as the computation of the squeeze width does. *)
Lemma InvertedResidual_init_squeeze_raises (w : world) (l : loc)
    (c : InvertedResidualConfig.t) nl se (e : exn) :
  configs w !! l = Some c ->
  (1 <=? InvertedResidualConfig.stride c) && (InvertedResidualConfig.stride c <=? 2) = true ->
  InvertedResidualConfig.use_se c = true ->
  _make_divisible (Int (InvertedResidualConfig.expanded_channels c / 4)) 8 None = Raise e ->
  InvertedResidual.__init__ l nl se w = (Raise e, w).
Proof.
  intros Hl Hs Hse Hr. unfold InvertedResidual.__init__.
  rewrite (bind_ok _ _ w c w) by (unfold read_config; rewrite Hl; reflexivity).
  rewrite Hs, Hse. cbn [negb]. unfold bind at 1. unfold bind at 1. unfold lift.
  rewrite Hr. reflexivity.
Qed.

(** C6. Constructing an Inverted Residual Block from a config raises the
    configuration error [ValueError "illegal stride value"] if and only if
    the config's stride is neither 1 nor 2.  The construction returns a
    block (and leaves the store as it was) if and only if the stride is 1
    or 2 and the width of the squeeze-excitation stage, when the config
    asks for one, is defined. *)
Theorem InvertedResidual_init_stride (w : world) (l : loc)
    (c : InvertedResidualConfig.t) (nl : Z -> TorchModule)
    (se : Z -> Z -> SqueezeExcitation.t) :
  configs w !! l = Some c ->
  (InvertedResidual.__init__ l nl se w = (Raise (ValueError "illegal stride value"), w)
     <-> ~ (InvertedResidualConfig.stride c = 1 \/ InvertedResidualConfig.stride c = 2))
  /\ ((exists b, InvertedResidual.__init__ l nl se w = (Ok b, w))
     <-> (InvertedResidualConfig.stride c = 1 \/ InvertedResidualConfig.stride c = 2)
         /\ squeeze_defined c).
Proof.
  intros Hl.
  destruct ((1 <=? InvertedResidualConfig.stride c)
            && (InvertedResidualConfig.stride c <=? 2)) eqn:Hs.
  - pose proof (proj1 (stride_check_spec _) Hs) as Hok.
    assert (Hcases : squeeze_defined c
                     \/ exists e, InvertedResidual.__init__ l nl se w = (Raise e, w)
                                  /\ e <> ValueError "illegal stride value"
                                  /\ ~ squeeze_defined c).
    { unfold squeeze_defined. destruct (InvertedResidualConfig.use_se c) eqn:Hse.
      - destruct (_make_divisible (Int (InvertedResidualConfig.expanded_channels c / 4)) 8 None)
          as [q|e] eqn:Hq.
        + left. eauto.
        + right. exists e. split.
          * apply (InvertedResidual_init_squeeze_raises w l c); assumption.
          * split.
            -- apply make_divisible_exn in Hq as [[msg ->]|[->| ->]]; discriminate.
            -- intros H. destruct (H eq_refl) as [q Hq']. discriminate.
      - left. discriminate. }
    destruct Hcases as [Hq|(e & He & Hne & Hnq)].
    + destruct (InvertedResidual_init_ok w l c nl se Hl Hs Hq) as (b & Hb & _).
      split; split.
      * rewrite Hb. discriminate.
      * intros Hn. contradiction.
      * intros _. auto.
      * intros _. eauto.
    + split; split.
      * rewrite He. intros H. inversion H. contradiction.
      * intros Hn. contradiction.
      * intros [b Hb]. rewrite He in Hb. discriminate.
      * intros [_ Hq]. contradiction.
  - assert (Hbad : ~ (InvertedResidualConfig.stride c = 1 \/ InvertedResidualConfig.stride c = 2)).
    { intros Hok. apply stride_check_spec in Hok. congruence. }
    assert (Hr : InvertedResidual.__init__ l nl se w
                 = (Raise (ValueError "illegal stride value"), w)).
    { unfold InvertedResidual.__init__.
      rewrite (bind_ok _ _ w c w) by (unfold read_config; rewrite Hl; reflexivity).
      rewrite Hs. reflexivity. }
    split; split.
    + intros _. exact Hbad.
    + intros _. exact Hr.
    + intros [b Hb]. rewrite Hr in Hb. discriminate.
    + intros [Hok _]. contradiction.
Qed.

Lemma InvertedResidual_init_stride_witness :
  (InvertedResidual.__init__ 0%nat BatchNorm2d InvertedResidual.default_se_layer
     (sample_world 3 0) = (Raise (ValueError "illegal stride value"), sample_world 3 0)
     <-> ~ (InvertedResidualConfig.stride (sample_config 3 0) = 1
            \/ InvertedResidualConfig.stride (sample_config 3 0) = 2))
  /\ ((exists b, InvertedResidual.__init__ 0%nat BatchNorm2d
                   InvertedResidual.default_se_layer (sample_world 3 0)
                 = (Ok b, sample_world 3 0))
     <-> (InvertedResidualConfig.stride (sample_config 3 0) = 1
          \/ InvertedResidualConfig.stride (sample_config 3 0) = 2)
         /\ squeeze_defined (sample_config 3 0)).
Proof.
  apply (InvertedResidual_init_stride (sample_world 3 0) 0%nat (sample_config 3 0)).
  reflexivity.
Defined.

(** ** Normalisation selected by the whitening mode (C7) *)

(** C7. Modes 3 and 4 in the three components that instantiate the
    whitening module.  Squeeze-Excitation and Conv-Norm-Activation select
    instance normalisation without affine parameters for mode 3 and with
    them for mode 4; the Inverted Residual Block selects instance
    normalisation without affine parameters for mode 4 as well as for
    mode 3, so that its mode 4 does not have the learnable parameters
    (for every config from which a block can be built: the stride passes
    the check and the squeeze width is defined). *)
Theorem mode_4_instance_norm (w : world) (l : loc) (c : InvertedResidualConfig.t)
    (nl : Z -> TorchModule) (se : Z -> Z -> SqueezeExcitation.t) :
  configs w !! l = Some c ->
  (InvertedResidualConfig.stride c = 1 \/ InvertedResidualConfig.stride c = 2) ->
  squeeze_defined c ->
  InvertedResidualConfig.iw c = 4 ->
  (forall i s a sa,
      SqueezeExcitation.instance_norm_layer (SqueezeExcitation.__init__ i s a sa 3)
        = InstanceNorm2d s false
      /\ SqueezeExcitation.instance_norm_layer (SqueezeExcitation.__init__ i s a sa 4)
        = InstanceNorm2d s true)
  /\ (forall i o k s g d n a,
      get_module "instance_norm_layer"
        (ConvNormActivation._modules (ConvNormActivation.__init__ i o k s g d n a 3))
        = Some (InstanceNorm2d o false)
      /\ get_module "instance_norm_layer"
        (ConvNormActivation._modules (ConvNormActivation.__init__ i o k s g d n a 4))
        = Some (InstanceNorm2d o true))
  /\ exists b, InvertedResidual.__init__ l nl se w = (Ok b, w)
      /\ InvertedResidual.iw b = 4
      /\ InvertedResidual.instance_norm_layer b
         = InstanceNorm2d (InvertedResidualConfig.out_channels c) false.
Proof.
  intros Hl Hs Hq Hm. split; [|split].
  - intros. split; reflexivity.
  - intros. destruct a; split; reflexivity.
  - apply stride_check_spec in Hs.
    destruct (InvertedResidual_init_ok w l c nl se Hl Hs Hq) as (b & Hb & Hiw & _ & _ & Hn & _).
    exists b. rewrite Hiw, Hn, Hm. repeat split; auto.
Qed.

Lemma mode_4_instance_norm_witness :
  exists b, InvertedResidual.__init__ 0%nat BatchNorm2d InvertedResidual.default_se_layer
              (sample_world 1 4) = (Ok b, sample_world 1 4)
    /\ InvertedResidual.iw b = 4
    /\ InvertedResidual.instance_norm_layer b = InstanceNorm2d 16 false.
Proof.
  apply (mode_4_instance_norm (sample_world 1 4) 0%nat (sample_config 1 4)
           BatchNorm2d InvertedResidual.default_se_layer).
  - reflexivity.
  - left. reflexivity.
  - intros _. eexists. vm_compute. reflexivity.
  - reflexivity.
Defined.

(** ** Inputs of the wrong arity (C8) *)


Lemma CNA_forward_wrong_arity self (x_tuple : value) (w : world) (n : Z) :
  fst (py_len x_tuple w) = Ok n -> n <> 2 ->
  ConvNormActivation.forward self x_tuple w = (Ok VNone, log w "error in BN forward path").
Proof.
  intros Hlen Hn. apply py_len_run in Hlen. apply Z.eqb_neq in Hn.
  unfold ConvNormActivation.forward. rewrite (bind_ok _ _ _ _ _ Hlen), Hn. reflexivity.
Qed.





(** ** The squeeze-excitation stage of a block (C10) *)

Lemma whitening_step_off (layer : TorchModule) (x w_arr : value) :
  whitening_step 0 layer x w_arr = ret x.
Proof. reflexivity. Qed.


Lemma default_se_forward_frame (i s : Z) (x_tuple : value) :
  preserves lists (SqueezeExcitation.forward (InvertedResidual.default_se_layer i s) x_tuple).
Proof.
  unfold SqueezeExcitation.forward, SqueezeExcitation._scale.
  cbn [InvertedResidual.default_se_layer SqueezeExcitation.__init__
       SqueezeExcitation.iw SqueezeExcitation.instance_norm_layer].
  unfold whitening_step. change (1 <=? 0) with false. cbv iota.
  frame.
Qed.




(** ** The assembly loop *)

Lemma list_index_iw_layer (p : Z) (k : nat) :
  list_index p MobileNetV3.iw_layer = Some k -> (k <= 4)%nat.
Proof.
  unfold MobileNetV3.iw_layer. cbn [list_index].
  repeat match goal with
         | |- context [?a =? p] => destruct (a =? p); cbn [option_map]
         end; intros H; inversion H; lia.
Qed.

Lemma assigned_mode_positions (iw : list Z) (p : Z) :
  1 <= p ->
  (p = 2 -> assigned_mode iw p = default 0 (iw !! 3%nat))
  /\ (p = 7 -> assigned_mode iw p = default 0 (iw !! 4%nat))
  /\ (p = 11 -> assigned_mode iw p = default 0 (iw !! 5%nat))
  /\ (p = 12 -> assigned_mode iw p = default 0 (iw !! 6%nat))
  /\ (p <> 2 -> p <> 7 -> p <> 11 -> p <> 12 -> assigned_mode iw p = 0).
Proof.
  intros Hp. repeat split; try (intros ->; reflexivity).
  intros H2 H7 H11 H12. unfold assigned_mode, MobileNetV3.iw_layer. cbn [list_index].
  destruct (Z.eqb_spec 0 p); [lia|]. destruct (Z.eqb_spec 2 p); [lia|].
  destruct (Z.eqb_spec 7 p); [lia|]. destruct (Z.eqb_spec 11 p); [lia|].
  destruct (Z.eqb_spec 12 p); [lia|]. reflexivity.
Qed.

(** One turn of the loop, once the selector is known to be long enough. *)
Lemma build_blocks_step nl (iw : list Z) cnf rest fc layers :
  (7 <= length iw)%nat ->
  MobileNetV3.build_blocks nl iw (cnf :: rest) fc layers
  = (assign_iw cnf (assigned_mode iw (fc + 1)) ;;;
     b <- InvertedResidual.__init__ cnf nl InvertedResidual.default_se_layer ;;
     MobileNetV3.build_blocks nl iw rest (fc + 1) (layers ++ [FBlock b])).
Proof.
  intros Hlen. cbn [MobileNetV3.build_blocks]. unfold assigned_mode.
  destruct (list_index (fc + 1) MobileNetV3.iw_layer) as [k|] eqn:Hk; [|reflexivity].
  apply list_index_iw_layer in Hk.
  destruct (lookup_lt_is_Some_2 iw (k + 2)%nat) as [v Hv]; [lia|].
  unfold list_getitem. rewrite Hv. reflexivity.
Qed.

Lemma assign_iw_run (w : world) (l : loc) (c : InvertedResidualConfig.t) (v : Z) :
  configs w !! l = Some c ->
  assign_iw l v w
  = (Ok tt, World (<[l := InvertedResidualConfig.set_iw c v]> (configs w)) (lists w) (stdout w)).
Proof. intros H. unfold assign_iw. rewrite H. reflexivity. Qed.

Lemma valid_config_assign (w : world) (l l' : loc) (c : InvertedResidualConfig.t) (v : Z) :
  configs w !! l = Some c -> valid_config w l' ->
  valid_config
    (World (<[l := InvertedResidualConfig.set_iw c v]> (configs w)) (lists w) (stdout w)) l'.
Proof.
  intros Hl (c' & Hc' & Hs). unfold valid_config. cbn [configs].
  destruct (decide (l = l')) as [->|Hne].
  - rewrite lookup_insert_eq. eexists. split; [reflexivity|].
    rewrite Hl in Hc'. inversion Hc'; subst. exact Hs.
  - rewrite lookup_insert_ne by exact Hne. eauto.
Qed.

Lemma configs_but_iw_assign (w : world) (l : loc) (c : InvertedResidualConfig.t) (v : Z) :
  configs w !! l = Some c ->
  configs_but_iw
    (World (<[l := InvertedResidualConfig.set_iw c v]> (configs w)) (lists w) (stdout w))
  = configs_but_iw w.
Proof.
  intros Hl. unfold configs_but_iw. cbn [configs].
  rewrite fmap_insert. apply insert_id. rewrite lookup_fmap, Hl. reflexivity.
Qed.

(** The loop on configs that are all valid: it returns, appends one block
    per config in order, each with the mode assigned at its position, and
    changes nothing in the store but [iw] fields. *)
Lemma build_blocks_ok nl (iw : list Z) :
  (7 <= length iw)%nat ->
  forall setting fc layers w,
    (forall l, In l setting -> valid_config w l) ->
    exists blocks w',
      MobileNetV3.build_blocks nl iw setting fc layers w
        = (Ok (layers ++ map FBlock blocks), w')
      /\ length blocks = length setting
      /\ (forall (j : nat) b, blocks !! j = Some b ->
            InvertedResidual.iw b = assigned_mode iw (fc + 1 + Z.of_nat j))
      /\ configs_but_iw w' = configs_but_iw w
      /\ lists w' = lists w /\ stdout w' = stdout w.
Proof.
  intros Hlen. induction setting as [|cnf rest IH]; intros fc layers w Hv.
  - exists [], w. cbn. rewrite app_nil_r. repeat split; auto.
    intros j b Hj. rewrite lookup_nil in Hj. discriminate.
  - rewrite build_blocks_step by exact Hlen.
    destruct (Hv cnf (or_introl eq_refl)) as (c & Hc & Hs & Hq).
    set (v := assigned_mode iw (fc + 1)).
    set (w1 := World (<[cnf := InvertedResidualConfig.set_iw c v]> (configs w))
                     (lists w) (stdout w)).
    rewrite (bind_ok _ _ w tt w1) by (apply assign_iw_run; exact Hc).
    assert (Hc1 : configs w1 !! cnf = Some (InvertedResidualConfig.set_iw c v))
      by (unfold w1; cbn [configs]; apply lookup_insert_eq).
    assert (Hs1 : (1 <=? InvertedResidualConfig.stride (InvertedResidualConfig.set_iw c v))
                  && (InvertedResidualConfig.stride (InvertedResidualConfig.set_iw c v) <=? 2)
                  = true)
      by (apply stride_check_spec; exact Hs).
    destruct (InvertedResidual_init_ok w1 cnf _ nl InvertedResidual.default_se_layer Hc1 Hs1 Hq)
      as (b & Hb & Hiw & _).
    rewrite (bind_ok _ _ w1 b w1) by exact Hb.
    destruct (IH (fc + 1) (layers ++ [FBlock b]) w1) as (blocks & w' & Hrun & Hl & Hm & Hf & Hli & Hso).
    { intros l Hin. apply valid_config_assign; [exact Hc|]. apply Hv. right. exact Hin. }
    exists (b :: blocks), w'. split; [|split; [|split; [|split; [|split]]]].
    + rewrite Hrun. rewrite <- app_assoc. reflexivity.
    + cbn. rewrite Hl. reflexivity.
    + intros [|j] b' Hj.
      * cbn in Hj. inversion Hj; subst b'. rewrite Hiw. cbn. fold v.
        unfold v. f_equal. lia.
      * cbn in Hj. rewrite (Hm j b' Hj). f_equal. lia.
    + rewrite Hf. apply configs_but_iw_assign. exact Hc.
    + rewrite Hli. reflexivity.
    + rewrite Hso. reflexivity.
Qed.

Lemma bind_inv_ok {A B} (m : M A) (k : A -> M B) w b w' :
  bind m k w = (Ok b, w') -> exists a w1, m w = (Ok a, w1) /\ k a w1 = (Ok b, w').
Proof.
  unfold bind. destruct (m w) as [[a|e] w1]; intros H; [eauto|discriminate].
Qed.

(** Whenever the loop returns, it has appended one block per config. *)
Lemma build_blocks_shape nl (iw : list Z) setting :
  forall fc layers w layers' w',
    MobileNetV3.build_blocks nl iw setting fc layers w = (Ok layers', w') ->
    exists blocks, layers' = layers ++ map FBlock blocks /\ length blocks = length setting.
Proof.
  induction setting as [|cnf rest IH]; intros fc layers w layers' w' H.
  - cbn in H. inversion H; subst. exists []. cbn. rewrite app_nil_r. auto.
  - cbn [MobileNetV3.build_blocks] in H.
    destruct (list_index (fc + 1) MobileNetV3.iw_layer).
    + apply bind_inv_ok in H as (v & w1 & _ & H).
      apply bind_inv_ok in H as (u & w2 & _ & H).
      apply bind_inv_ok in H as (b & w3 & _ & H).
      apply IH in H as (blocks & -> & Hl).
      exists (b :: blocks). rewrite <- app_assoc. cbn. auto.
    + apply bind_inv_ok in H as (u & w2 & _ & H).
      apply bind_inv_ok in H as (b & w3 & _ & H).
      apply IH in H as (blocks & -> & Hl).
      exists (b :: blocks). rewrite <- app_assoc. cbn. auto.
Qed.

Lemma last_in (l : list loc) (a : loc) : In (List.last (a :: l) a) (a :: l).
Proof.
  assert (H : a :: l <> []) by discriminate.
  rewrite (app_removelast_last a H) at 2. apply in_or_app. right. left. reflexivity.
Qed.

Lemma configs_but_iw_lookup (w w' : world) (l : loc) :
  configs_but_iw w' = configs_but_iw w ->
  is_Some (configs w !! l) -> is_Some (configs w' !! l).
Proof.
  unfold configs_but_iw. intros E [c Hc].
  assert (H : ((fun c => InvertedResidualConfig.set_iw c 0) <$> configs w') !! l
              = Some (InvertedResidualConfig.set_iw c 0))
    by (rewrite E, lookup_fmap, Hc; reflexivity).
  rewrite lookup_fmap in H. destruct (configs w' !! l); [eauto|discriminate].
Qed.

(** ** Which blocks take their mode from the selector (C2) *)

(** C2, as amended.  Assembly of a non-empty sequence of valid configs
    with a selector of at least 7 entries returns a network whose
    [features] hold, after the stem, one block per config; the block at
    position [i] (counted from 1) takes its whitening mode from the
    selector exactly at the positions 2, 7, 11 and 12, from the entries
    3, 4, 5 and 6 of the selector in that order, and has mode 0 at every
    other position. *)
Theorem assembly_assigns_modes (setting : list loc) (last_channel num_classes : Z)
    (nl : option (Z -> TorchModule)) (iw : list Z) (w : world) :
  (forall l, In l setting -> valid_config w l) ->
  setting <> [] ->
  (7 <= length iw)%nat ->
  exists model w',
    MobileNetV3.__init__ setting last_channel num_classes nl iw w = (Ok model, w')
    /\ forall i : nat, (1 <= i <= length setting)%nat ->
         exists b, MobileNetV3.features model !! i = Some (FBlock b)
           /\ (i = 2%nat -> iw !! 3%nat = Some (InvertedResidual.iw b))
           /\ (i = 7%nat -> iw !! 4%nat = Some (InvertedResidual.iw b))
           /\ (i = 11%nat -> iw !! 5%nat = Some (InvertedResidual.iw b))
           /\ (i = 12%nat -> iw !! 6%nat = Some (InvertedResidual.iw b))
           /\ (i <> 2%nat -> i <> 7%nat -> i <> 11%nat -> i <> 12%nat ->
               InvertedResidual.iw b = 0).
Proof.
  intros Hv Hne Hlen. destruct setting as [|first rest]; [contradiction|]. clear Hne.
  unfold MobileNetV3.__init__.
  destruct (Hv first (or_introl eq_refl)) as (c0 & Hc0 & _).
  rewrite (bind_ok _ _ w c0 w) by (unfold read_config; rewrite Hc0; reflexivity).
  set (norm := match nl with None => BatchNorm2d | Some f => f end).
  set (stem := FConv _).
  destruct (build_blocks_ok norm iw Hlen (first :: rest) 0 [stem] w Hv)
    as (blocks & w' & Hrun & Hl & Hm & Hf & _).
  rewrite (bind_ok _ _ _ _ _ Hrun).
  destruct (configs_but_iw_lookup w w' (List.last (first :: rest) first) Hf) as [cl Hcl].
  { destruct (Hv _ (last_in rest first)) as (c & Hc & _). eauto. }
  rewrite (bind_ok _ _ w' cl w') by (unfold read_config; rewrite Hcl; reflexivity).
  eexists. eexists. split; [reflexivity|].
  cbn [MobileNetV3.features]. intros i Hi.
  destruct i as [|j]; [lia|].
  destruct (lookup_lt_is_Some_2 blocks j) as [b Hb]; [lia|].
  exists b. split.
  { rewrite <- app_assoc. cbn [app]. rewrite lookup_cons.
    rewrite lookup_app_l by (rewrite length_map; lia).
    change (map FBlock blocks) with (FBlock <$> blocks).
    rewrite list_lookup_fmap, Hb. reflexivity. }
  pose proof (Hm j b Hb) as Hmode.
  replace (0 + 1 + Z.of_nat j) with (Z.of_nat (S j)) in Hmode by lia.
  destruct (assigned_mode_positions iw (Z.of_nat (S j))) as (P2 & P7 & P11 & P12 & P0); [lia|].
  assert (Hsel : forall k : nat, (k < 7)%nat -> iw !! k = Some (default 0 (iw !! k))).
  { intros k Hk. destruct (lookup_lt_is_Some_2 iw k) as [v ->]; [lia|]. reflexivity. }
  repeat split.
  - intros E. rewrite Hmode, P2 by (rewrite E; reflexivity). apply Hsel. lia.
  - intros E. rewrite Hmode, P7 by (rewrite E; reflexivity). apply Hsel. lia.
  - intros E. rewrite Hmode, P11 by (rewrite E; reflexivity). apply Hsel. lia.
  - intros E. rewrite Hmode, P12 by (rewrite E; reflexivity). apply Hsel. lia.
  - intros N2 N7 N11 N12. rewrite Hmode. apply P0; lia.
Qed.

Lemma small_setting_valid (l : loc) : In l small_setting -> valid_config small_world l.
Proof.
  intros Hin. cbn in Hin.
  repeat (destruct Hin as [<-|Hin];
          [eexists; split; [vm_compute; reflexivity|];
           split; [first [left; reflexivity|right; reflexivity]|];
           intros Hse; first [discriminate Hse|eexists; vm_compute; reflexivity]|]).
  contradiction.
Qed.

Lemma assembly_assigns_modes_witness :
  exists model w',
    MobileNetV3.__init__ small_setting 1024 1000 None [0; 0; 0; 1; 2; 3; 4] small_world
      = (Ok model, w')
    /\ forall i : nat, (1 <= i <= length small_setting)%nat ->
         exists b, MobileNetV3.features model !! i = Some (FBlock b)
           /\ (i = 2%nat -> [0; 0; 0; 1; 2; 3; 4] !! 3%nat = Some (InvertedResidual.iw b))
           /\ (i = 7%nat -> [0; 0; 0; 1; 2; 3; 4] !! 4%nat = Some (InvertedResidual.iw b))
           /\ (i = 11%nat -> [0; 0; 0; 1; 2; 3; 4] !! 5%nat = Some (InvertedResidual.iw b))
           /\ (i = 12%nat -> [0; 0; 0; 1; 2; 3; 4] !! 6%nat = Some (InvertedResidual.iw b))
           /\ (i <> 2%nat -> i <> 7%nat -> i <> 11%nat -> i <> 12%nat ->
               InvertedResidual.iw b = 0).
Proof.
  apply (assembly_assigns_modes small_setting 1024 1000 None [0; 0; 0; 1; 2; 3; 4] small_world).
  - exact small_setting_valid.
  - discriminate.
  - cbn. lia.
Defined.

(** C2 as stated fails: with the selector [1, 1, 1, 2, 1, 1, 1], which
    holds no 0, the small network's block at position 1 has mode 0 (the
    claim has it take its mode from the selector), the block at position 2
    has mode 2 (the claim forces it to 0), and the block at position 3 has
    mode 0 (the claim has it take its mode from the selector). *)
Lemma assembly_positions_counterexample :
  exists model w',
    small_model [1; 1; 1; 2; 1; 1; 1] empty_world = (Ok model, w')
    /\ (exists b, MobileNetV3.features model !! 1%nat = Some (FBlock b)
                  /\ InvertedResidual.iw b = 0)
    /\ (exists b, MobileNetV3.features model !! 2%nat = Some (FBlock b)
                  /\ InvertedResidual.iw b = 2)
    /\ (exists b, MobileNetV3.features model !! 3%nat = Some (FBlock b)
                  /\ InvertedResidual.iw b = 0).
Proof.
  eexists. eexists. split; [vm_compute; reflexivity|].
  repeat split; eexists; (split; [cbn [MobileNetV3.features]; reflexivity|reflexivity]).
Qed.

(** ** The top-level forward on a tensor (C1) *)

(** C1.  On every network that assembly returns, the top-level [forward]
    of a tensor whose leading dimension is not 2, a batch of one image of
    shape (1, 3, 224, 224) in particular, returns no logits: the stem sees
    an input of length other than 2, prints its error and returns [None],
    and the first inverted residual block raises [TypeError] on taking the
    length of [None]. *)
Theorem forward_on_tensor_raises (setting : list loc) (last_channel num_classes : Z)
    (nl : option (Z -> TorchModule)) (iw : list Z) (w w' : world)
    (model : MobileNetV3.t) (d : Z) (shape : list Z) (w0 : world) :
  MobileNetV3.__init__ setting last_channel num_classes nl iw w = (Ok model, w') ->
  d <> 2 ->
  MobileNetV3.forward model (VTensor (d :: shape)) w0
  = (Raise (TypeError "object of type 'NoneType' has no len()"),
     log w0 "error in BN forward path").
Proof.
  intros Hinit Hd. unfold MobileNetV3.__init__ in Hinit.
  destruct setting as [|first rest]; [discriminate|].
  apply bind_inv_ok in Hinit as (c0 & w1 & _ & Hinit).
  apply bind_inv_ok in Hinit as (layers & w2 & Hb & Hinit).
  apply bind_inv_ok in Hinit as (cl & w3 & _ & Hinit).
  inversion Hinit; subst model w'. clear Hinit.
  apply build_blocks_shape in Hb as (blocks & -> & Hl).
  destruct blocks as [|b blocks]; [discriminate|].
  unfold MobileNetV3.forward, MobileNetV3._forward_impl.
  cbn [MobileNetV3.features app map sequential_forward feature_layer_forward].
  assert (Hstem : forall stem, ConvNormActivation.forward stem (VTensor (d :: shape)) w0
                               = (Ok VNone, log w0 "error in BN forward path")).
  { intros stem. apply (CNA_forward_wrong_arity stem (VTensor (d :: shape)) w0 d);
      [reflexivity|exact Hd]. }
  apply bind_raise.
  rewrite (bind_ok _ _ _ _ _ (Hstem _)). reflexivity.
Qed.

Lemma forward_on_tensor_raises_witness :
  exists model,
    fst (small_model MobileNetV3.default_iw empty_world) = Ok model
    /\ MobileNetV3.forward model (VTensor [1; 3; 224; 224]) empty_world
       = (Raise (TypeError "object of type 'NoneType' has no len()"),
          log empty_world "error in BN forward path").
Proof.
  eexists. split; [vm_compute; reflexivity|].
  eapply (forward_on_tensor_raises small_setting 1024 1000 None MobileNetV3.default_iw
            small_world _ _ 1 [3; 224; 224] empty_world).
  - vm_compute. reflexivity.
  - lia.
Defined.

(** ** What assembly and the forward passes leave alone (C9) *)

Lemma preserves_list_getitem {X} (f : world -> X) xs i : preserves f (list_getitem xs i).
Proof. unfold list_getitem. destruct (xs !! i); auto with frame. Qed.

Lemma preserves_InvertedResidual_init {X} (f : world -> X) l nl se :
  preserves f (InvertedResidual.__init__ l nl se).
Proof. unfold InvertedResidual.__init__. cbv zeta. frame. Qed.

Lemma preserves_assign_iw_but_iw l v : preserves configs_but_iw (assign_iw l v).
Proof.
  intros w. unfold assign_iw. destruct (configs w !! l) as [c|] eqn:Hl; [|reflexivity].
  apply configs_but_iw_assign. exact Hl.
Qed.

Lemma preserves_assign_iw_lists l v : preserves lists (assign_iw l v).
Proof. intros w. unfold assign_iw. destruct (configs w !! l); reflexivity. Qed.

Lemma preserves_assign_iw_stdout l v : preserves stdout (assign_iw l v).
Proof. intros w. unfold assign_iw. destruct (configs w !! l); reflexivity. Qed.

#[export] Hint Resolve preserves_list_getitem preserves_InvertedResidual_init
  preserves_assign_iw_but_iw preserves_assign_iw_lists preserves_assign_iw_stdout : frame.

Lemma preserves_build_blocks {X} (f : world -> X) nl iw :
  (forall l v, preserves f (assign_iw l v)) ->
  forall setting fc layers, preserves f (MobileNetV3.build_blocks nl iw setting fc layers).
Proof.
  intros Ha. induction setting as [|cnf rest IH]; intros fc layers;
    cbn [MobileNetV3.build_blocks].
  - auto with frame.
  - destruct (list_index (fc + 1) MobileNetV3.iw_layer); frame; try apply Ha; apply IH.
Qed.

Lemma preserves_MobileNetV3_init {X} (f : world -> X) setting last_channel num_classes nl iw :
  (forall l v, preserves f (assign_iw l v)) ->
  preserves f (MobileNetV3.__init__ setting last_channel num_classes nl iw).
Proof.
  intros Ha. unfold MobileNetV3.__init__. destruct setting as [|first rest].
  - auto with frame.
  - cbv zeta. frame. apply preserves_build_blocks. exact Ha.
Qed.

Lemma preserves_whitening_step_configs iw layer x w_arr :
  preserves configs (whitening_step iw layer x w_arr).
Proof. unfold whitening_step. frame. Qed.

Lemma preserves_SE_forward_configs self x : preserves configs (SqueezeExcitation.forward self x).
Proof.
  pose proof preserves_whitening_step_configs.
  unfold SqueezeExcitation.forward, SqueezeExcitation._scale. frame.
Qed.

Lemma preserves_CNA_instance_norm_layer {X} (f : world -> X) self :
  preserves f (ConvNormActivation.instance_norm_layer self).
Proof. unfold ConvNormActivation.instance_norm_layer. frame. Qed.

Lemma preserves_CNA_loop_configs self rest :
  forall i x w_arr, preserves configs (ConvNormActivation.loop self i rest x w_arr).
Proof.
  induction rest as [|[k m] rest IH]; intros i x w_arr; cbn [ConvNormActivation.loop].
  - auto with frame.
  - apply preserves_bind; [|intros; apply IH].
    pose proof (preserves_CNA_instance_norm_layer configs self). frame.
Qed.

Lemma preserves_CNA_forward_configs self x : preserves configs (ConvNormActivation.forward self x).
Proof. unfold ConvNormActivation.forward. frame. apply preserves_CNA_loop_configs. Qed.

Lemma preserves_conv_layer_forward_configs m x : preserves configs (conv_layer_forward m x).
Proof.
  destruct m; [apply preserves_CNA_forward_configs|apply preserves_SE_forward_configs].
Qed.

Lemma preserves_IR_forward_configs self x : preserves configs (InvertedResidual.forward self x).
Proof.
  pose proof preserves_conv_layer_forward_configs.
  pose proof preserves_whitening_step_configs.
  unfold InvertedResidual.forward, InvertedResidual.stage. frame.
Qed.

Lemma preserves_sequential_forward {X A} (f : world -> X) (fwd : A -> value -> M value) layers :
  (forall m x, preserves f (fwd m x)) ->
  forall x, preserves f (sequential_forward fwd layers x).
Proof.
  intros Hf. induction layers as [|m rest IH]; intros x; cbn [sequential_forward].
  - auto with frame.
  - apply preserves_bind; [apply Hf|intros; apply IH].
Qed.

(** The constructor returns exactly the record of the three adjusted
    channel counts and of its other arguments. *)
Lemma config_init_spec (ic k ec oc : Z) (se : bool) (act : string) (s d : Z)
    (wm : float) (iw : Z) (cfg : InvertedResidualConfig.t) :
  InvertedResidualConfig.__init__ ic k ec oc se act s d wm iw = Ok cfg
  <-> exists a b c,
        InvertedResidualConfig.adjust_channels ic wm = Ok a
        /\ InvertedResidualConfig.adjust_channels ec wm = Ok b
        /\ InvertedResidualConfig.adjust_channels oc wm = Ok c
        /\ cfg = InvertedResidualConfig.mk a k b c se (String.eqb act "HS") s d iw.
Proof.
  unfold InvertedResidualConfig.__init__. split.
  - destruct (InvertedResidualConfig.adjust_channels ic wm) as [a|]; [|discriminate].
    destruct (InvertedResidualConfig.adjust_channels ec wm) as [b|]; [|discriminate].
    destruct (InvertedResidualConfig.adjust_channels oc wm) as [c|]; [|discriminate].
    intros H. inversion H. exists a, b, c. auto.
  - intros (a & b & c & -> & -> & -> & ->). reflexivity.
Qed.

Lemma config_init_returns (ic k ec oc : Z) (se : bool) (act : string) (s d : Z)
    (wm : float) (iw : Z) :
  width_in_range wm ->
  0 <= ic <= 2 ^ 511 -> 0 <= ec <= 2 ^ 511 -> 0 <= oc <= 2 ^ 511 ->
  exists cfg, InvertedResidualConfig.__init__ ic k ec oc se act s d wm iw = Ok cfg.
Proof.
  intros Hw Hic Hec Hoc.
  destruct (adjust_channels_returns ic wm Hic Hw) as [a Ha].
  destruct (adjust_channels_returns ec wm Hec Hw) as [b Hb].
  destruct (adjust_channels_returns oc wm Hoc Hw) as [c Hc].
  eexists. apply config_init_spec. exists a, b, c. auto.
Qed.

(** C9, as amended.  A config's channel counts are what the channel
    adjuster returns for the arguments of its constructor: the
    constructor returns exactly when the three adjustments do, and it
    does for channel counts and width multipliers between 0 and
    [2 ^ 511]; assembly never creates or drops a config object and
    changes no field of any config other than [iw], the one field it
    assigns to; the forward passes leave every config exactly as it is. *)
Theorem configs_frame :
  (forall ic k ec oc se act s d wm iw cfg,
      InvertedResidualConfig.__init__ ic k ec oc se act s d wm iw = Ok cfg
      <-> exists a b c,
            InvertedResidualConfig.adjust_channels ic wm = Ok a
            /\ InvertedResidualConfig.adjust_channels ec wm = Ok b
            /\ InvertedResidualConfig.adjust_channels oc wm = Ok c
            /\ cfg = InvertedResidualConfig.mk a k b c se (String.eqb act "HS") s d iw)
  /\ (forall ic k ec oc se act s d wm iw,
        width_in_range wm ->
        0 <= ic <= 2 ^ 511 -> 0 <= ec <= 2 ^ 511 -> 0 <= oc <= 2 ^ 511 ->
        exists cfg, InvertedResidualConfig.__init__ ic k ec oc se act s d wm iw = Ok cfg)
  /\ (forall setting last_channel num_classes nl iw,
        preserves configs_but_iw
          (MobileNetV3.__init__ setting last_channel num_classes nl iw))
  /\ (forall model x, preserves configs (MobileNetV3.forward model x)).
Proof.
  split; [|split; [|split]].
  - intros. apply config_init_spec.
  - intros. apply config_init_returns; assumption.
  - intros. apply preserves_MobileNetV3_init. auto with frame.
  - intros model x. unfold MobileNetV3.forward, MobileNetV3._forward_impl.
    apply preserves_bind.
    + apply preserves_sequential_forward. intros [c|b] y.
      * apply preserves_CNA_forward_configs.
      * apply preserves_IR_forward_configs.
    + intros. frame. apply preserves_sequential_forward. auto with frame.
Qed.

Lemma configs_frame_witness :
  exists cfg,
    InvertedResidualConfig.__init__ 16 3 72 24 false "RE" 2 1 float_1_0 0 = Ok cfg.
Proof.
  apply (proj1 (proj2 configs_frame) 16 3 72 24 false "RE" 2 1 float_1_0 0).
  - split; [reflexivity|]. split; [exact I|reflexivity].
  - split; [lia|vm_compute; discriminate].
  - split; [lia|vm_compute; discriminate].
  - split; [lia|vm_compute; discriminate].
Defined.

(** C9 as stated fails: the configs of the small architecture built with
    whitening mode 1 have mode 0 once a network has been assembled from
    them with the default selector. *)
Lemma assembly_overwrites_iw :
  let w1 := snd (_mobilenet_v3_conf "mobilenet_v3_small" float_1_0 1 false false empty_world) in
  let w2 := snd (MobileNetV3.__init__ small_setting 1024 1000 None
                   MobileNetV3.default_iw w1) in
  (InvertedResidualConfig.iw <$> configs w1 !! 1%nat) = Some 1
  /\ (InvertedResidualConfig.iw <$> configs w2 !! 1%nat) = Some 0
  /\ configs w2 <> configs w1.
Proof.
  cbv zeta. split; [vm_compute; reflexivity|]. split; [vm_compute; reflexivity|].
  intros E.
  assert (H : InvertedResidualConfig.iw <$>
                configs (snd (MobileNetV3.__init__ small_setting 1024 1000 None
                                MobileNetV3.default_iw
                                (snd (_mobilenet_v3_conf "mobilenet_v3_small" float_1_0 1 false
                                        false empty_world)))) !! 1%nat
              = Some 1) by (rewrite E; vm_compute; reflexivity).
  vm_compute in H. discriminate.
Qed.

(** ** The whitening step *)

(** A whitening step in mode 1 or 2 that is given a feature map appends
    exactly one entry, the auxiliary matrix, to the accumulator. *)
Lemma whitening_step_appends (m dim n c h wd : Z) (l : loc) (w : world) :
  m = 1 \/ m = 2 ->
  whitening_step m (InstanceWhitening dim) (VTensor [n; c; h; wd]) (VRef l) w
  = (Ok (VTensor [n; c; h; wd]),
     World (configs w) (<[l := accumulator w l ++ [VTensor [n; c; c]]]> (lists w)) (stdout w)).
Proof. intros [-> | ->]; reflexivity. Qed.

(** ** Residual blocks under dilation (C5) *)

(** C5.  The tenth block of the dilated small architecture is
    residual-eligible (stride 1, 96 channels in and out) and is built with
    the residual connection; on a feature map of shape (1, 96, 14, 14) its
    convolutional stages return shape (1, 96, 10, 10), since the padding of
    the depthwise stage does not grow with the dilation, and the residual
    add raises.  The same block without dilation returns the shape of its
    input. *)
Theorem dilated_residual_block_raises :
  (exists c b,
     configs dilated_world !! 9%nat = Some c
     /\ InvertedResidualConfig.stride c = 1
     /\ InvertedResidualConfig.input_channels c = InvertedResidualConfig.out_channels c
     /\ InvertedResidualConfig.dilation c = 2
     /\ InvertedResidual.__init__ 9%nat BatchNorm2d InvertedResidual.default_se_layer
          dilated_world = (Ok b, dilated_world)
     /\ InvertedResidual.use_res_connect b = true
     /\ fst (InvertedResidual.forward b (VSeq [VTensor [1; 96; 14; 14]; VRef 0%nat])
               dilated_world)
        = Raise (RuntimeError "the sizes of the tensors must match"))
  /\ (exists b,
        InvertedResidual.__init__ 9%nat BatchNorm2d InvertedResidual.default_se_layer
          small_world = (Ok b, small_world)
        /\ InvertedResidual.use_res_connect b = true
        /\ fst (InvertedResidual.forward b (VSeq [VTensor [1; 96; 14; 14]; VRef 0%nat])
                  small_world)
           = Ok (VSeq [VTensor [1; 96; 14; 14]; VRef 0%nat])).
Proof.
  split.
  - eexists. eexists. split; [vm_compute; reflexivity|].
    repeat (split; [vm_compute; reflexivity|]). vm_compute; reflexivity.
  - eexists. split; [vm_compute; reflexivity|].
    split; vm_compute; reflexivity.
Qed.
(** ** More on the channel adjuster *)

(** X1.  With no minimum given, the adjuster returns a multiple of the
    divisor that is at least the divisor whenever it returns, for every
    [v], negative ones included; and it returns exactly when
    [divisor / 2] and [v] are doubles and the sum [v + divisor / 2] is
    one that [int] accepts. *)
Theorem make_divisible_positive_multiple (v : number) (divisor : Z) :
  0 < divisor ->
  (forall r, _make_divisible v divisor None = Ok r -> divisor <= r /\ (divisor | r))
  /\ ((exists r, _make_divisible v divisor None = Ok r)
      <-> exists h fv t, int_half divisor = Ok h /\ to_float v = Ok fv
                         /\ int_of_float (float_add fv h) = Ok t).
Proof.
  intros Hd. split; [|split].
  - intros r Hr. destruct (make_divisible_multiple v divisor None r Hd Hr) as [Hlo Hdiv].
    split; [exact Hlo|]. apply Hdiv. apply Z.divide_refl.
  - intros [r Hr]. destruct (make_divisible_inv _ _ _ _ Hr) as (h & fv & t & _ & Hh & Hv & Ht).
    exists h, fv, t. auto.
  - intros (h & fv & t & Hh & Hv & Ht).
    rewrite (make_divisible_unfold v divisor None h fv t ltac:(lia) Hh Hv Ht).
    cbv zeta. destruct (int_lt_float _ _); eauto.
Qed.

Lemma make_divisible_positive_multiple_witness :
  exists r,
    _make_divisible (Float (S754_finite true 5629499534213120 (-51))) 8 None = Ok r
    /\ 8 <= r /\ (8 | r).
Proof.
  destruct (make_divisible_positive_multiple
              (Float (S754_finite true 5629499534213120 (-51))) 8) as [Hres Hret];
    [lia|].
  destruct (proj2 Hret) as [r Hr].
  - eexists. eexists. eexists.
    split; [vm_compute; reflexivity|]. split; [reflexivity|vm_compute; reflexivity].
  - exists r. split; [exact Hr|]. exact (Hres r Hr).
Defined.

(** *** Errors *)

Lemma shifted_full (m x : Z) :
  0 < m -> -1074 < fexp 53 1024 (Zdigits2 m + x) ->
  2 ^ 52 <= m / 2 ^ (fexp 53 1024 (Zdigits2 m + x) - x)
  \/ fexp 53 1024 (Zdigits2 m + x) < x.
Proof.
  intros Hm Hf. rewrite fexp_spec in *.
  destruct (Z_lt_le_dec (Zdigits2 m + x - 53) x) as [Hs|Hs]; [right; lia|left].
  replace (Z.max (Zdigits2 m + x - 53) (-1074) - x) with (Zdigits2 m - 53) by lia.
  pose proof (Zdigits2_bounds m Hm) as [Hlo _].
  apply Z.div_le_lower_bound; [apply Z.pow_pos_nonneg; lia|].
  rewrite <- Z.pow_add_r by lia.
  replace (Zdigits2 m - 53 + 52) with (Zdigits2 m - 1) by lia. exact Hlo.
Qed.

(** An integer of more than 1024 bits is too large for a double. *)
Lemma float_round_overflow (n : Z) : 2 ^ 1024 <= n -> float_round n 0 = S754_infinity false.
Proof.
  intros Hn. assert (H0 : 0 < 2 ^ 1024) by reflexivity.
  destruct n as [|p|p]; try lia. unfold float_round. cbn [binary_normalize].
  destruct (binary_round_aligned false p 0 ltac:(unfold scale_base; lia))
    as (mz & ez & -> & Hk & Hez & Hv).
  assert (Hd : 1025 <= Zdigits2 (Zpos mz) + ez).
  { assert (Hle : scaled (2 ^ 1024) 0 <= scaled (Zpos mz) ez).
    { rewrite Hv. apply scaled_le; [unfold scale_base; lia|exact Hn]. }
    apply magnitude_le in Hle; [|lia|lia|unfold scale_base; lia|exact Hez].
    change (Zdigits2 (2 ^ 1024)) with 1025 in Hle. lia. }
  destruct (round_aux_cases false mz ez Hk) as (m1 & m2 & e2 & Hb & _ & -> & Hc).
  cbv zeta in Hb, Hc. set (e1 := fexp 53 1024 (Zdigits2 (Zpos mz) + ez)) in *.
  assert (He1 : 972 <= e1) by (unfold e1; rewrite fexp_spec; lia).
  assert (Hm1 : 2 ^ 52 <= m1).
  { assert (Hf : -1074 < e1) by lia.
    destruct (shifted_full (Zpos mz) ez eq_refl Hf) as [H|H]; fold e1 in H; lia. }
  assert (H52 : 0 < 2 ^ 52) by reflexivity.
  assert (Hm2 : 0 < m2 /\ 971 < e2).
  { destruct Hc as [(_ & -> & ->)|(Hlt & He2 & Hm)]; [lia|].
    assert (Hf : -1074 < fexp 53 1024 (Zdigits2 m1 + e1)) by lia.
    destruct (shifted_full m1 e1 ltac:(lia) Hf) as [H|H]; [|lia].
    rewrite <- He2, <- Hm in H. lia. }
  destruct (float_pack_cases false m2 e2 ltac:(lia)) as [(E & _)|[(q & _ & He & _)|(_ & _ & ->)]];
    [lia|lia|reflexivity].
Qed.

(** X2.  The errors of the adjuster, for a divisor between 1 and
    [2 ^ 1023]: a NaN raises [ValueError], an infinity and an [int] of more
    than 1024 bits raise [OverflowError]; a zero divisor raises
    [ZeroDivisionError] on every finite double. *)
Theorem make_divisible_raises (divisor : Z) (min_value : option Z) :
  0 < divisor <= 2 ^ 1023 ->
  _make_divisible (Float S754_nan) divisor min_value
  = Raise (ValueError "cannot convert float NaN to integer")
  /\ (forall s, _make_divisible (Float (S754_infinity s)) divisor min_value
                = Raise (OverflowError "cannot convert float infinity to integer"))
  /\ (forall n, 2 ^ 1024 <= n ->
                _make_divisible (Int n) divisor min_value
                = Raise (OverflowError "int too large to convert to float"))
  /\ (forall f, float_finite f = true ->
                _make_divisible (Float f) 0 min_value
                = Raise (ZeroDivisionError "integer division or modulo by zero")).
Proof.
  intros Hd.
  destruct (int_half_bounded divisor 1022 ltac:(lia) ltac:(lia)) as (m & e & Hh & _).
  split; [|split; [|split]].
  - unfold _make_divisible. rewrite Hh. reflexivity.
  - intros s. unfold _make_divisible. rewrite Hh. reflexivity.
  - intros n Hn. unfold _make_divisible. rewrite Hh. cbn [to_float]. unfold float_of_int.
    rewrite (float_round_overflow n Hn). reflexivity.
  - intros f Hf. unfold _make_divisible.
    change (int_half 0) with (@Ok float (S754_zero false)). cbn [to_float].
    destruct f as [[|]|s| |s mf ef]; try discriminate; reflexivity.
Qed.

Lemma make_divisible_raises_witness :
  _make_divisible (Float S754_nan) 8 None
  = Raise (ValueError "cannot convert float NaN to integer").
Proof.
  apply (proj1 (make_divisible_raises 8 None ltac:(split; [lia|vm_compute; discriminate]))).
Defined.

(** X3.  A positive multiple of the divisor, not below the minimum in force
    and small enough for the arithmetic on doubles to be exact, is
    returned unchanged, whether it is given as an [int] or as a double. *)
Theorem make_divisible_fixed_point (k divisor : Z) (min_value : option Z) :
  0 < divisor -> 0 < k -> 2 * (k * divisor) + divisor < 2 ^ 53 ->
  match min_value with None => divisor | Some m => m end <= k * divisor ->
  _make_divisible (Int (k * divisor)) divisor min_value = Ok (k * divisor)
  /\ _make_divisible (Float (float_round (k * divisor) 0)) divisor min_value
     = Ok (k * divisor).
Proof. exact (make_divisible_fixed_aux k divisor min_value). Qed.

Lemma make_divisible_fixed_point_witness :
  _make_divisible (Int (9 * 8)) 8 None = Ok (9 * 8)
  /\ _make_divisible (Float (float_round (9 * 8) 0)) 8 None = Ok (9 * 8).
Proof.
  apply (make_divisible_fixed_point 9 8 None).
  - lia.
  - lia.
  - vm_compute. reflexivity.
  - vm_compute. discriminate.
Defined.

(** X4.  The adjuster is idempotent on results small enough for the
    arithmetic to be exact: adjusting its own result changes nothing. *)
Theorem make_divisible_idempotent (v : number) (divisor r : Z) :
  0 < divisor -> 2 * r + divisor < 2 ^ 53 ->
  _make_divisible v divisor None = Ok r ->
  _make_divisible (Int r) divisor None = Ok r.
Proof.
  intros Hd Hsmall Hr.
  destruct (make_divisible_multiple v divisor None r Hd Hr) as [Hlo Hdiv]. cbv zeta in Hlo, Hdiv.
  destruct (Hdiv (Z.divide_refl divisor)) as [k Hk]. subst r.
  assert (Hkpos : 0 < k) by nia.
  apply (proj1 (make_divisible_fixed_aux k divisor None Hd Hkpos Hsmall Hlo)).
Qed.

Lemma make_divisible_idempotent_witness :
  _make_divisible (Int 88) 8 None = Ok 88.
Proof.
  apply (make_divisible_idempotent (Float (S754_finite false 6368371348078592 (-46))) 8 88).
  - lia.
  - vm_compute. reflexivity.
  - vm_compute. reflexivity.
Defined.

(** X5.  Every config the constructor builds: its three channel counts are
    multiples of 8 that are at least 8, and the other fields are the
    arguments.  The constructor returns for all channel counts and width
    multipliers between 0 and [2 ^ 511]. *)
Theorem config_channels_multiples_of_8 (ic k ec oc : Z) (se : bool) (act : string)
    (s d : Z) (wm : float) (m : Z) :
  (forall c, InvertedResidualConfig.__init__ ic k ec oc se act s d wm m = Ok c ->
     (8 <= InvertedResidualConfig.input_channels c
      /\ (8 | InvertedResidualConfig.input_channels c))
     /\ (8 <= InvertedResidualConfig.expanded_channels c
         /\ (8 | InvertedResidualConfig.expanded_channels c))
     /\ (8 <= InvertedResidualConfig.out_channels c
         /\ (8 | InvertedResidualConfig.out_channels c))
     /\ InvertedResidualConfig.kernel c = k
     /\ InvertedResidualConfig.stride c = s
     /\ InvertedResidualConfig.dilation c = d
     /\ InvertedResidualConfig.use_se c = se
     /\ InvertedResidualConfig.iw c = m)
  /\ (width_in_range wm ->
      0 <= ic <= 2 ^ 511 -> 0 <= ec <= 2 ^ 511 -> 0 <= oc <= 2 ^ 511 ->
      exists c, InvertedResidualConfig.__init__ ic k ec oc se act s d wm m = Ok c).
Proof.
  split.
  - intros c Hc. apply config_init_spec in Hc as (a & b & c' & Ha & Hb & Hc & ->).
    cbn. unfold InvertedResidualConfig.adjust_channels in Ha, Hb, Hc.
    destruct (float_of_int ic); [|discriminate]. destruct (float_of_int ec); [|discriminate].
    destruct (float_of_int oc); [|discriminate].
    pose proof (make_divisible_multiple _ 8 None _ eq_refl Ha) as [Ha1 Ha2].
    pose proof (make_divisible_multiple _ 8 None _ eq_refl Hb) as [Hb1 Hb2].
    pose proof (make_divisible_multiple _ 8 None _ eq_refl Hc) as [Hc1 Hc2].
    cbv zeta in *. pose proof (Z.divide_refl 8). auto 15.
  - apply config_init_returns.
Qed.

Lemma config_channels_multiples_of_8_witness :
  exists c, InvertedResidualConfig.__init__ 16 3 72 24 false "RE" 2 1
              (S754_finite false 6755399441055744 (-53)) 0 = Ok c.
Proof.
  apply (proj2 (config_channels_multiples_of_8 16 3 72 24 false "RE" 2 1
                  (S754_finite false 6755399441055744 (-53)) 0)).
  - split; [reflexivity|]. split; [exact I|reflexivity].
  - split; [lia|vm_compute; discriminate].
  - split; [lia|vm_compute; discriminate].
  - split; [lia|vm_compute; discriminate].
Defined.

(** With width multiplier 1.0 a channel count that is a positive multiple
    of 8 below [2 ^ 52] is kept as it is. *)
Lemma adjust_channels_unit (channels : Z) :
  8 <= channels -> (8 | channels) -> channels < 2 ^ 52 ->
  InvertedResidualConfig.adjust_channels channels float_1_0 = Ok channels.
Proof.
  intros Hge [k Hk] Hlt. unfold InvertedResidualConfig.adjust_channels.
  assert (H52 : 2 ^ 53 = 2 * 2 ^ 52) by reflexivity.
  destruct (float_of_int_exact channels ltac:(lia)) as (m & e & -> & Hv & Hs).
  assert (H1 : valid_float float_1_0) by reflexivity.
  pose proof (valid_exponent _ _ _ Hv) as He.
  destruct (float_mul_pos false m e 4503599627370496 (-52) false false Hv H1)
    as (Hvp & Hlo & Hup). cbv zeta in Hvp, Hlo, Hup. cbn [xorb] in Hlo, Hup.
  fold float_1_0 in Hvp, Hlo, Hup.
  pose proof Hv as Hv'. apply valid_finite in Hv' as [Hc Hb].
  assert (Hprod : scaled (Zpos m * 4503599627370496) (e + -52) = scaled (Zpos m) e).
  { change 4503599627370496 with (2 ^ 52).
    rewrite <- scaled_shift by (unfold scale_base; lia). f_equal. lia. }
  destruct (Hlo (Zpos m) e ltac:(lia) Hc ltac:(lia)) as [Hi|(m1 & e1 & Hp1 & Hge1)];
    destruct (Hup (Zpos m) e ltac:(lia) Hc Hb ltac:(lia)) as [Hz|(m2 & e2 & Hp2 & Hle2)];
    try congruence.
  rewrite Hp1 in Hp2, Hvp. inversion Hp2; subst m2 e2. clear Hp2.
  subst channels.
  apply (make_divisible_fixed _ (S754_finite false m1 e1)); try lia.
  - rewrite <- Hp1. reflexivity.
  - exact Hvp.
  - exact I.
  - cbn [fscaled cond_Zopp]. lia.
Qed.

(** X6.  With width multiplier 1.0 a channel count that is a positive
    multiple of 8 below [2 ^ 52] is kept as it is. *)
Theorem adjust_channels_unit_width (channels : Z) :
  8 <= channels -> (8 | channels) -> channels < 2 ^ 52 ->
  InvertedResidualConfig.adjust_channels channels float_1_0 = Ok channels.
Proof. exact (adjust_channels_unit channels). Qed.

Lemma adjust_channels_unit_width_witness :
  InvertedResidualConfig.adjust_channels 576 float_1_0 = Ok 576.
Proof.
  apply (adjust_channels_unit_width 576).
  - lia.
  - exists 72. reflexivity.
  - vm_compute. reflexivity.
Defined.


(** ** Shapes through a Conv-Norm-Activation stage *)

Lemma CNA_init_modules (i o k s g d : Z) (nl : option (Z -> TorchModule))
    (act : option TorchModule) (m : Z) :
  ConvNormActivation._modules (ConvNormActivation.__init__ i o k s g d nl act m)
  = let norm := match nl with None => BatchNorm2d | Some f => f end in
    match act with
    | Some a =>
        [("0", Conv2d i o k s ((k - 1) / 2) d g false); ("1", norm o); ("2", a);
         ("3", mode_layer m o); ("instance_norm_layer", mode_layer m o)]
    | None =>
        [("0", Conv2d i o k s ((k - 1) / 2) d g false); ("1", norm o);
         ("2", mode_layer m o); ("instance_norm_layer", mode_layer m o)]
    end.
Proof. destruct act; reflexivity. Qed.

Lemma mode_layer_keeps_shape (m o n h wd : Z) :
  m <> 1 -> m <> 2 ->
  Torch.call (mode_layer m o) (VTensor [n; o; h; wd]) = Ok (VTensor [n; o; h; wd]).
Proof.
  intros H1 H2. unfold mode_layer.
  destruct (Z.eqb_spec m 1); [contradiction|]. destruct (Z.eqb_spec m 2); [contradiction|].
  destruct (m =? 3); [cbn; rewrite Z.eqb_refl; reflexivity|].
  destruct (m =? 4); [cbn; rewrite Z.eqb_refl; reflexivity|]. reflexivity.
Qed.

Lemma call_activation_layer (act : option activation_fn) (x : list Z) :
  forall a, option_map Activation act = Some a -> Torch.call a (VTensor x) = Ok (VTensor x).
Proof. intros a H. destruct act; inversion H. reflexivity. Qed.

(** The closing step of the stage's loop in a mode other than 1 and 2. *)
Lemma CNA_last_step (self : ConvNormActivation.t) (m o n h wd : Z) (w : world) :
  ConvNormActivation.iw self = m -> m <> 1 -> m <> 2 ->
  get_module "instance_norm_layer" (ConvNormActivation._modules self) = Some (mode_layer m o) ->
  (if 1 <=? ConvNormActivation.iw self then
     if (ConvNormActivation.iw self =? 1) || (ConvNormActivation.iw self =? 2) then
       layer <- ConvNormActivation.instance_norm_layer self ;;
       r <- call layer (VTensor [n; o; h; wd]) ;;
       xw <- unpack2 r ;;
       py_append (VRef 0%nat) (snd xw) ;;;
       ret (fst xw)
     else
       layer <- ConvNormActivation.instance_norm_layer self ;;
       call layer (VTensor [n; o; h; wd])
   else ret (VTensor [n; o; h; wd])) w
  = (Ok (VTensor [n; o; h; wd]), w).
Proof.
  intros Hm H1 H2 Hg. rewrite Hm.
  destruct (Z.eqb_spec m 1); [contradiction|]. destruct (Z.eqb_spec m 2); [contradiction|].
  destruct (1 <=? m); [|reflexivity]. cbn [orb].
  unfold ConvNormActivation.instance_norm_layer. rewrite Hg.
  unfold bind, ret, call, lift. rewrite mode_layer_keeps_shape by assumption. reflexivity.
Qed.

Ltac closed_tests :=
  repeat match goal with
         | |- context [?a =? ?b] =>
             let v := eval vm_compute in (a =? b) in
             match v with
             | true => change (a =? b) with true
             | false => change (a =? b) with false
             end
         end.

(** A stage in a mode other than 1 and 2 maps a feature map of its input
    width to the shape its convolution gives, hands the accumulator on and
    leaves the store alone. *)
Lemma CNA_forward_shape (i o k s g d : Z) (nl : option (Z -> TorchModule))
    (act : option activation_fn) (m n h wd h' w' : Z) (acc : value) (w0 : world) :
  m <> 1 -> m <> 2 ->
  nl = None \/ nl = Some BatchNorm2d ->
  Torch.conv2d_hw h wd k s ((k - 1) / 2) d = Ok (h', w') ->
  ConvNormActivation.forward
    (ConvNormActivation.__init__ i o k s g d nl (option_map Activation act) m)
    (VSeq [VTensor [n; i; h; wd]; acc]) w0
  = (Ok (VSeq [VTensor [n; o; h'; w']; acc]), w0).
Proof.
  intros H1 H2 Hnl Hconv.
  assert (Hmods := CNA_init_modules i o k s g d nl (option_map Activation act) m).
  cbv zeta in Hmods.
  assert (Hnorm : match nl with None => BatchNorm2d | Some f => f end = BatchNorm2d)
    by (destruct Hnl as [-> | ->]; reflexivity).
  rewrite Hnorm in Hmods. clear Hnorm Hnl.
  set (self := ConvNormActivation.__init__ i o k s g d nl (option_map Activation act) m) in *.
  assert (Hiw : ConvNormActivation.iw self = m) by reflexivity.
  assert (Hn1 : (m =? 1) = false) by (apply Z.eqb_neq; exact H1).
  assert (Hn2 : (m =? 2) = false) by (apply Z.eqb_neq; exact H2).
  assert (Hkeep := mode_layer_keeps_shape m o n h' w' H1 H2).
  unfold ConvNormActivation.forward.
  cbn [py_len length Z.of_nat Pos.of_succ_nat Pos.succ]. unfold bind at 1. cbn [ret].
  change (2 =? 2) with true. cbv iota.
  unfold py_getitem, seq_item. cbn [lookup list_lookup].
  unfold bind at 1. cbn [ret]. unfold bind at 1. cbn [ret].
  rewrite Hmods.
  destruct act as [f|]; cbn [option_map ConvNormActivation.loop] in *;
    unfold ConvNormActivation.instance_norm_layer;
    rewrite !Hmods, !Hiw, !Hn1, !Hn2;
    cbn [length get_module String.eqb Ascii.eqb Bool.eqb orb
         Z.of_nat Pos.of_succ_nat Pos.succ];
    closed_tests; cbv iota;
    unfold bind, call, lift, ret; cbn [Torch.call];
    rewrite !Z.eqb_refl, Hconv; cbn [Torch.call]; rewrite ?Z.eqb_refl, Hkeep;
    destruct (1 <=? m); rewrite ?Hkeep; reflexivity.
Qed.

Lemma CNA_forward_shape_witness :
  ConvNormActivation.forward
    (ConvNormActivation.__init__ 3 16 3 2 1 1 None (option_map Activation (Some Hardswish)) 0)
    (VSeq [VTensor [1; 3; 224; 224]; VRef 0%nat]) empty_world
  = (Ok (VSeq [VTensor [1; 16; 112; 112]; VRef 0%nat]), empty_world).
Proof.
  apply (CNA_forward_shape 3 16 3 2 1 1 None (Some Hardswish) 0 1 224 224 112 112).
  - lia.
  - lia.
  - left. reflexivity.
  - reflexivity.
Defined.







(** ** What a computation returns, and whether it returns *)

Lemma returns_only_ret {A} (P : A -> Prop) (a : A) : P a -> returns_only P (ret a).
Proof. intros H w a' w' E. inversion E; subst. exact H. Qed.

Lemma returns_only_raise {A} (P : A -> Prop) e : returns_only P (raise e).
Proof. intros w a w' E. discriminate. Qed.

Lemma returns_only_bind_dep {A B} (Q : A -> Prop) (P : B -> Prop) (m : M A) (k : A -> M B) :
  returns_only Q m -> (forall a, Q a -> returns_only P (k a)) -> returns_only P (bind m k).
Proof.
  intros Hm Hk w b w' E. apply bind_inv_ok in E as (a & w1 & Ea & Eb).
  exact (Hk a (Hm _ _ _ Ea) _ _ _ Eb).
Qed.

Lemma returns_only_bind {A B} (P : B -> Prop) (m : M A) (k : A -> M B) :
  (forall a, returns_only P (k a)) -> returns_only P (bind m k).
Proof.
  intros Hk. apply (returns_only_bind_dep (fun _ => True)); [intros ? ? ? ?; exact I|auto].
Qed.

Lemma returns_only_if {A} (P : A -> Prop) (b : bool) (m1 m2 : M A) :
  returns_only P m1 -> returns_only P m2 -> returns_only P (if b then m1 else m2).
Proof. destruct b; auto. Qed.

Lemma returns_only_weaken {A} (P Q : A -> Prop) (m : M A) :
  (forall a, P a -> Q a) -> returns_only P m -> returns_only Q m.
Proof. intros H Hm w a w' E. apply H. exact (Hm _ _ _ E). Qed.

Lemma never_returns_raise {A} e : never_returns (@raise A e).
Proof. intros w. reflexivity. Qed.

Lemma never_returns_bind_l {A B} (m : M A) (k : A -> M B) :
  never_returns m -> never_returns (bind m k).
Proof.
  intros Hm w. unfold bind. specialize (Hm w).
  destruct (m w) as [[a|e] w1]; [discriminate|reflexivity].
Qed.

Lemma never_returns_bind_dep {A B} (Q : A -> Prop) (m : M A) (k : A -> M B) :
  returns_only Q m -> (forall a, Q a -> never_returns (k a)) -> never_returns (bind m k).
Proof.
  intros Hm Hk w. unfold bind. destruct (m w) as [[a|e] w1] eqn:E; [|reflexivity].
  apply Hk. exact (Hm _ _ _ E).
Qed.

Lemma never_returns_bind_r {A B} (m : M A) (k : A -> M B) :
  (forall a, never_returns (k a)) -> never_returns (bind m k).
Proof.
  intros Hk. apply (never_returns_bind_dep (fun _ => True)); [intros ? ? ? ?; exact I|auto].
Qed.

Lemma never_returns_only {A} (P : A -> Prop) (m : M A) : never_returns m -> returns_only P m.
Proof. intros H w a w' E. specialize (H w). rewrite E in H. discriminate. Qed.

Lemma preserves_bind_dep {X A B} (f : world -> X) (Q : A -> Prop) (m : M A) (k : A -> M B) :
  preserves f m -> returns_only Q m -> (forall a, Q a -> preserves f (k a)) ->
  preserves f (bind m k).
Proof.
  intros Hm Hq Hk w. unfold bind. specialize (Hm w).
  destruct (m w) as [[a|e] w1] eqn:E; simpl in *.
  - rewrite (Hk a (Hq _ _ _ E)). exact Hm.
  - exact Hm.
Qed.

(** ** Accumulators only grow *)

Lemma append_only_of_preserves {A} (m : M A) : preserves lists m -> append_only m.
Proof. intros H w l. unfold accumulator. rewrite H. reflexivity. Qed.

Lemma append_only_bind {A B} (m : M A) (k : A -> M B) :
  append_only m -> (forall a, append_only (k a)) -> append_only (bind m k).
Proof.
  intros Hm Hk w l. unfold bind. specialize (Hm w l).
  destruct (m w) as [[a|e] w1]; simpl in *.
  - etransitivity; [exact Hm|apply Hk].
  - exact Hm.
Qed.

Lemma append_only_if {A} (b : bool) (m1 m2 : M A) :
  append_only m1 -> append_only m2 -> append_only (if b then m1 else m2).
Proof. destruct b; auto. Qed.

Lemma append_only_py_append (target v : value) : append_only (py_append target v).
Proof.
  destruct target as [| | |l0]; try (apply append_only_of_preserves; apply preserves_raise).
  intros w l. cbn. unfold accumulator. cbn.
  destruct (decide (l0 = l)) as [->|Hne].
  - rewrite lookup_insert_eq. cbn. apply prefix_app_r. reflexivity.
  - rewrite lookup_insert_ne by exact Hne. reflexivity.
Qed.

Lemma append_only_whitening_step iw layer x w_arr :
  append_only (whitening_step iw layer x w_arr).
Proof.
  unfold whitening_step.
  repeat first
    [ apply append_only_if
    | apply append_only_bind; [|intros]
    | apply append_only_py_append
    | apply append_only_of_preserves; solve [auto with frame] ].
Qed.

(** Peels a block-level forward down to its appends. *)
Ltac grow :=
  repeat first
    [ apply append_only_if
    | apply append_only_bind; [|intros]
    | apply append_only_py_append
    | apply append_only_whitening_step
    | solve [auto]
    | apply append_only_of_preserves; solve [frame]
    | match goal with
      | |- append_only (match ?x with _ => _ end) => destruct x
      end ].

Lemma append_only_SE_forward self x : append_only (SqueezeExcitation.forward self x).
Proof. unfold SqueezeExcitation.forward, SqueezeExcitation._scale. grow. Qed.

Lemma append_only_CNA_loop self rest :
  forall i x w_arr, append_only (ConvNormActivation.loop self i rest x w_arr).
Proof.
  induction rest as [|[k m] rest IH]; intros i x w_arr; cbn [ConvNormActivation.loop].
  - apply append_only_of_preserves. auto with frame.
  - apply append_only_bind; [|intros; apply IH].
    pose proof (preserves_CNA_instance_norm_layer lists self). grow.
Qed.

Lemma append_only_CNA_forward self x : append_only (ConvNormActivation.forward self x).
Proof.
  pose proof (append_only_CNA_loop self).
  unfold ConvNormActivation.forward. grow.
Qed.

Lemma append_only_conv_layer_forward m x : append_only (conv_layer_forward m x).
Proof. destruct m; [apply append_only_CNA_forward|apply append_only_SE_forward]. Qed.

Lemma append_only_IR_forward self x : append_only (InvertedResidual.forward self x).
Proof.
  pose proof append_only_conv_layer_forward.
  unfold InvertedResidual.forward, InvertedResidual.stage. grow.
Qed.

Lemma append_only_sequential_forward {A} (fwd : A -> value -> M value) layers :
  (forall m x, append_only (fwd m x)) ->
  forall x, append_only (sequential_forward fwd layers x).
Proof.
  intros Hf. induction layers as [|m rest IH]; intros x; cbn [sequential_forward].
  - apply append_only_of_preserves. auto with frame.
  - apply append_only_bind; [apply Hf|intros; apply IH].
Qed.

(** X14.  Every forward pass only ever appends to a list of the store: each
    accumulator it starts from is a prefix of what it leaves, whether the
    pass returns or raises. *)
Theorem forward_append_only :
  (forall self x, append_only (SqueezeExcitation.forward self x))
  /\ (forall self x, append_only (ConvNormActivation.forward self x))
  /\ (forall self x, append_only (InvertedResidual.forward self x))
  /\ (forall model x, append_only (features_forward model x))
  /\ (forall model x, append_only (MobileNetV3.forward model x)).
Proof.
  assert (Hfeat : forall model x, append_only (features_forward model x)).
  { intros model x. unfold features_forward. apply append_only_sequential_forward.
    intros [c|b] y; [apply append_only_CNA_forward|apply append_only_IR_forward]. }
  repeat split.
  - apply append_only_SE_forward.
  - apply append_only_CNA_forward.
  - apply append_only_IR_forward.
  - exact Hfeat.
  - intros model x. unfold MobileNetV3.forward, MobileNetV3._forward_impl.
    apply append_only_bind; [apply Hfeat|]. intros.
    apply append_only_of_preserves. frame.
    apply preserves_sequential_forward. auto with frame.
Qed.

(** ** The accumulator is handed on by reference *)

Lemma returns_only_bind_ret {A B} (P : B -> Prop) (a : A) (k : A -> M B) :
  returns_only P (k a) -> returns_only P (bind (ret a) k).
Proof. intros H. exact H. Qed.

Lemma returns_only_ext {A} (P : A -> Prop) (m m' : M A) :
  (forall w, m w = m' w) -> returns_only P m' -> returns_only P m.
Proof. intros E H w a w' Hm. rewrite E in Hm. exact (H _ _ _ Hm). Qed.

Lemma never_returns_ext {A} (m m' : M A) :
  (forall w, m w = m' w) -> never_returns m' -> never_returns m.
Proof. intros E H w. rewrite E. apply H. Qed.

(** Peels binds and conditionals down to the returned values. *)
Ltac rets :=
  repeat first
    [ apply returns_only_bind; intros
    | apply returns_only_if
    | apply returns_only_raise
    | apply returns_only_ret
    | match goal with
      | |- returns_only _ (match ?x with _ => _ end) => destruct x
      end ].

Lemma CNA_forward_threads self x acc :
  returns_only (pair_with acc) (ConvNormActivation.forward self (VSeq [x; acc])).
Proof.
  unfold ConvNormActivation.forward.
  apply returns_only_bind_ret. change (2 =? 2) with true. cbv iota.
  apply returns_only_bind_ret. rets. eexists. reflexivity.
Qed.

Lemma SE_forward_threads self x acc :
  returns_only (pair_with acc) (SqueezeExcitation.forward self (VSeq [x; acc])).
Proof.
  unfold SqueezeExcitation.forward.
  apply returns_only_bind_ret. change (2 =? 2) with true. cbv iota.
  apply returns_only_bind_ret. apply returns_only_bind_ret. rets. eexists. reflexivity.
Qed.

Lemma conv_layer_forward_threads m x acc :
  returns_only (pair_with acc) (conv_layer_forward m (VSeq [x; acc])).
Proof. destruct m; [apply CNA_forward_threads|apply SE_forward_threads]. Qed.

Lemma stage_threads self i x_tuple acc :
  pair_with acc x_tuple -> returns_only (pair_with acc) (InvertedResidual.stage self i x_tuple).
Proof.
  intros [x ->]. unfold InvertedResidual.stage.
  apply returns_only_bind; intros m. apply returns_only_bind; intros _.
  apply returns_only_bind; intros m'. apply conv_layer_forward_threads.
Qed.

Lemma IR_forward_threads self x acc :
  returns_only (pair_with acc) (InvertedResidual.forward self (VSeq [x; acc])).
Proof.
  unfold InvertedResidual.forward.
  apply returns_only_bind_ret. change (2 =? 2) with true. cbv iota.
  apply returns_only_bind_ret. apply returns_only_bind; intros c.
  assert (H0 : pair_with acc (VSeq [x; acc])) by (eexists; reflexivity).
  apply (returns_only_bind_dep (pair_with acc)).
  - destruct (negb _).
    + apply (returns_only_bind_dep (pair_with acc)); [apply stage_threads; exact H0|].
      intros a1 H1.
      apply (returns_only_bind_dep (pair_with acc)); [apply stage_threads; exact H1|].
      intros a2 H2.
      apply (returns_only_bind_dep (pair_with acc)); [apply stage_threads; exact H2|].
      intros a3 H3. apply returns_only_if; [|apply returns_only_ret; exact H3].
      apply returns_only_bind; intros m. destruct H3 as [y ->].
      apply conv_layer_forward_threads.
    + apply (returns_only_bind_dep (pair_with acc)); [apply stage_threads; exact H0|].
      intros a1 H1.
      apply (returns_only_bind_dep (pair_with acc)); [apply stage_threads; exact H1|].
      intros a2 H2. apply stage_threads; exact H2.
  - intros a [y ->]. apply returns_only_bind_ret. apply returns_only_bind_ret.
    rets. eexists. reflexivity.
Qed.

Lemma sequential_forward_threads (layers : list feature_layer) acc :
  forall x, returns_only (pair_with acc)
              (sequential_forward feature_layer_forward layers (VSeq [x; acc])).
Proof.
  induction layers as [|m rest IH]; intros x; cbn [sequential_forward].
  - apply returns_only_ret. eexists. reflexivity.
  - apply (returns_only_bind_dep (pair_with acc)).
    + destruct m; [apply CNA_forward_threads|apply IR_forward_threads].
    + intros a [y ->]. apply IH.
Qed.

(** X13.  Whenever a block-level forward, or the whole feature stack, returns on
    a pair [[x, acc]], what it returns is a pair [[y, acc]] with the very
    accumulator it was given. *)
Theorem accumulator_threaded (x acc : value) :
  (forall self, returns_only (pair_with acc)
                  (SqueezeExcitation.forward self (VSeq [x; acc])))
  /\ (forall self, returns_only (pair_with acc)
                     (ConvNormActivation.forward self (VSeq [x; acc])))
  /\ (forall self, returns_only (pair_with acc)
                     (InvertedResidual.forward self (VSeq [x; acc])))
  /\ (forall model, returns_only (pair_with acc)
                      (features_forward model (VSeq [x; acc]))).
Proof.
  repeat split; intros.
  - apply SE_forward_threads.
  - apply CNA_forward_threads.
  - apply IR_forward_threads.
  - apply sequential_forward_threads.
Qed.

(** ** The top-level forward never returns *)

Lemma CNA_forward_none_or_pair self x :
  returns_only none_or_pair (ConvNormActivation.forward self x).
Proof.
  unfold ConvNormActivation.forward. rets.
  - right. eexists. eexists. reflexivity.
  - left. reflexivity.
Qed.

Lemma IR_forward_none_or_pair self x :
  returns_only none_or_pair (InvertedResidual.forward self x).
Proof.
  unfold InvertedResidual.forward, InvertedResidual.stage.
  rets; first [left; reflexivity|right; eexists; eexists; reflexivity].
Qed.

Lemma feature_layer_forward_none_or_pair m x :
  returns_only none_or_pair (feature_layer_forward m x).
Proof. destruct m; [apply CNA_forward_none_or_pair|apply IR_forward_none_or_pair]. Qed.

Lemma sequential_forward_none_or_pair (layers : list feature_layer) :
  forall x, none_or_pair x ->
            returns_only none_or_pair (sequential_forward feature_layer_forward layers x).
Proof.
  induction layers as [|m rest IH]; intros x Hx; cbn [sequential_forward].
  - apply returns_only_ret. exact Hx.
  - apply (returns_only_bind_dep none_or_pair);
      [apply feature_layer_forward_none_or_pair|intros; apply IH; assumption].
Qed.

Lemma sequential_forward_app {A} (fwd : A -> value -> M value) (l1 l2 : list A) :
  forall x w, sequential_forward fwd (l1 ++ l2) x w
              = bind (sequential_forward fwd l1 x) (sequential_forward fwd l2) w.
Proof.
  induction l1 as [|m rest IH]; intros x w; cbn [app sequential_forward].
  - reflexivity.
  - unfold bind. destruct (fwd m x w) as [[a|e] w1]; [|reflexivity].
    rewrite IH. reflexivity.
Qed.

Lemma CNA_forward_on_none_or_pair self x :
  none_or_pair x -> returns_only is_pair (ConvNormActivation.forward self x).
Proof.
  intros [->|(a & b & ->)].
  - apply never_returns_only. unfold ConvNormActivation.forward.
    apply never_returns_bind_l. apply never_returns_raise.
  - eapply returns_only_weaken; [|apply CNA_forward_threads].
    intros v [y ->]. eexists. eexists. reflexivity.
Qed.

(** What the feature stack of an assembled network returns, if it returns
    at all, is a pair. *)
Lemma assembled_features_return_pairs (setting : list loc) (last_channel num_classes : Z)
    (nl : option (Z -> TorchModule)) (iw : list Z) (w w' : world) (model : MobileNetV3.t) :
  MobileNetV3.__init__ setting last_channel num_classes nl iw w = (Ok model, w') ->
  MobileNetV3.avgpool model = AdaptiveAvgPool2d 1
  /\ forall x, returns_only is_pair (features_forward model x).
Proof.
  intros Hinit. unfold MobileNetV3.__init__ in Hinit.
  destruct setting as [|first rest]; [discriminate|].
  apply bind_inv_ok in Hinit as (c0 & w1 & _ & Hinit).
  apply bind_inv_ok in Hinit as (layers & w2 & Hb & Hinit).
  apply bind_inv_ok in Hinit as (cl & w3 & _ & Hinit).
  inversion Hinit; subst model w'. clear Hinit.
  split; [reflexivity|]. intros x.
  apply build_blocks_shape in Hb as (blocks & -> & _).
  unfold features_forward. cbn [MobileNetV3.features].
  eapply returns_only_ext; [intros w0; apply sequential_forward_app|].
  apply (returns_only_bind_dep none_or_pair).
  - cbn [app sequential_forward].
    apply (returns_only_bind_dep none_or_pair); [apply CNA_forward_none_or_pair|].
    intros a Ha. apply sequential_forward_none_or_pair. exact Ha.
  - intros a Ha. cbn [sequential_forward feature_layer_forward].
    apply (returns_only_bind_dep is_pair); [apply CNA_forward_on_none_or_pair; exact Ha|].
    intros b Hb. apply returns_only_ret. exact Hb.
Qed.

(** X15.  On a network that assembly returned, the top-level [forward] returns
    on no input at all: whatever the feature stack returns is a pair, on
    which the pooling raises. *)
Theorem forward_never_returns (setting : list loc) (last_channel num_classes : Z)
    (nl : option (Z -> TorchModule)) (iw : list Z) (w w' : world) (model : MobileNetV3.t) :
  MobileNetV3.__init__ setting last_channel num_classes nl iw w = (Ok model, w') ->
  forall x, never_returns (MobileNetV3.forward model x).
Proof.
  intros Hinit x.
  destruct (assembled_features_return_pairs _ _ _ _ _ _ _ _ Hinit) as [Hpool Hfeat].
  unfold MobileNetV3.forward, MobileNetV3._forward_impl. rewrite Hpool.
  apply (never_returns_bind_dep is_pair); [apply Hfeat|].
  intros a (y & b & ->). apply never_returns_bind_l. intros w0. reflexivity.
Qed.

Lemma forward_never_returns_witness :
  exists model,
    fst (small_model MobileNetV3.default_iw empty_world) = Ok model
    /\ forall x, never_returns (MobileNetV3.forward model x).
Proof.
  eexists. split; [vm_compute; reflexivity|].
  eapply (forward_never_returns small_setting 1024 1000 None MobileNetV3.default_iw
            small_world).
  vm_compute. reflexivity.
Defined.

(** ** Inverted residual blocks *)

Lemma IR_init_built (w : world) (l : loc) (c : InvertedResidualConfig.t)
    (nl : Z -> TorchModule) (se : Z -> Z -> SqueezeExcitation.t) :
  configs w !! l = Some c ->
  InvertedResidualConfig.stride c = 1 \/ InvertedResidualConfig.stride c = 2 ->
  squeeze_defined c ->
  exists sq,
    InvertedResidual.__init__ l nl se w
    = (Ok (built_block l c nl
             (if InvertedResidualConfig.use_se c
              then Some (se (InvertedResidualConfig.expanded_channels c) sq) else None)), w).
Proof.
  intros Hl Hs Hq. apply stride_check_spec in Hs. unfold InvertedResidual.__init__.
  rewrite (bind_ok _ _ w c w) by (unfold read_config; rewrite Hl; reflexivity).
  rewrite Hs. cbn [negb].
  unfold built_block, block_stages, block_mode_layer.
  destruct (InvertedResidualConfig.use_se c) eqn:Hse.
  - destruct (Hq Hse) as [sq Hsq].
    exists sq. unfold bind at 1. unfold bind at 1. unfold lift. rewrite Hsq. cbn [ret].
    rewrite <- !app_assoc. reflexivity.
  - exists 0. unfold bind at 1. cbn [ret]. rewrite <- !app_assoc. reflexivity.
Qed.

Lemma IR_init_inv (w w' : world) (l : loc) (nl : Z -> TorchModule)
    (se : Z -> Z -> SqueezeExcitation.t) (b : InvertedResidual.t) :
  InvertedResidual.__init__ l nl se w = (Ok b, w') ->
  exists c sq,
    configs w !! l = Some c
    /\ (InvertedResidualConfig.stride c = 1 \/ InvertedResidualConfig.stride c = 2)
    /\ b = built_block l c nl
             (if InvertedResidualConfig.use_se c
              then Some (se (InvertedResidualConfig.expanded_channels c) sq) else None).
Proof.
  intros Hinit.
  destruct (configs w !! l) as [c|] eqn:Hl.
  2: { unfold InvertedResidual.__init__, bind, read_config in Hinit.
       rewrite Hl in Hinit. discriminate. }
  destruct ((1 <=? InvertedResidualConfig.stride c)
            && (InvertedResidualConfig.stride c <=? 2)) eqn:Hs.
  2: { unfold InvertedResidual.__init__ in Hinit.
       rewrite (bind_ok _ _ w c w) in Hinit by (unfold read_config; rewrite Hl; reflexivity).
       rewrite Hs in Hinit. discriminate. }
  apply stride_check_spec in Hs.
  pose proof (InvertedResidual_init_defined _ _ _ _ _ _ _ Hl Hinit) as Hq.
  destruct (IR_init_built w l c nl se Hl Hs Hq) as [sq Hb].
  rewrite Hb in Hinit. inversion Hinit; subst. eauto.
Qed.

Lemma never_returns_bind_ret {A B} (a : A) (k : A -> M B) :
  never_returns (k a) -> never_returns (bind (ret a) k).
Proof. intros H. exact H. Qed.

Lemma stage_unfold (self : InvertedResidual.t) (i : nat) (m : conv_layer) (x : value) (w : world) :
  InvertedResidual.conv self !! i = Some m ->
  InvertedResidual.stage self i x w = conv_layer_forward m x (log w (conv_layer_repr m)).
Proof.
  intros H. unfold InvertedResidual.stage, sequential_getitem. rewrite H. reflexivity.
Qed.

Lemma stage_out_of_range (self : InvertedResidual.t) (i : nat) (x : value) :
  InvertedResidual.conv self !! i = None -> never_returns (InvertedResidual.stage self i x).
Proof.
  intros H. unfold InvertedResidual.stage, sequential_getitem. rewrite H.
  apply never_returns_bind_l. apply never_returns_raise.
Qed.

(** X12.  A block whose config keeps the width (no expansion) and has no
    squeeze-excitation holds two stages only, while [forward] indexes a
    third: on every pair it raises, whatever the store holds. *)
Theorem two_stage_block_never_returns (w : world) (l : loc) (c : InvertedResidualConfig.t)
    (nl : Z -> TorchModule) (se : Z -> Z -> SqueezeExcitation.t) :
  configs w !! l = Some c ->
  InvertedResidualConfig.stride c = 1 \/ InvertedResidualConfig.stride c = 2 ->
  InvertedResidualConfig.expanded_channels c = InvertedResidualConfig.input_channels c ->
  InvertedResidualConfig.use_se c = false ->
  exists b, InvertedResidual.__init__ l nl se w = (Ok b, w)
    /\ length (InvertedResidual.conv b) = 2%nat
    /\ forall x acc, never_returns (InvertedResidual.forward b (VSeq [x; acc])).
Proof.
  intros Hl Hs He Hse.
  assert (Hq : squeeze_defined c) by (intros H; congruence).
  destruct (IR_init_built w l c nl se Hl Hs Hq) as [sq Hb].
  rewrite Hse in Hb. eexists. split; [exact Hb|].
  assert (Hconv : length (block_stages c nl None) = 2%nat).
  { unfold block_stages. rewrite He, Z.eqb_refl. reflexivity. }
  split; [exact Hconv|]. intros x acc.
  assert (H2 : forall y, never_returns (InvertedResidual.stage (built_block l c nl None) 2 y)).
  { intros y. apply stage_out_of_range. apply lookup_ge_None_2.
    cbn [built_block InvertedResidual.conv]. rewrite Hconv. lia. }
  unfold InvertedResidual.forward.
  apply never_returns_bind_ret. change (2 =? 2) with true. cbv iota.
  apply never_returns_bind_ret. apply never_returns_bind_r; intros c'.
  apply never_returns_bind_l.
  destruct (negb _); do 2 (apply never_returns_bind_r; intros);
    first [apply H2|apply never_returns_bind_l; apply H2].
Qed.

Lemma two_stage_block_never_returns_witness :
  exists b,
    InvertedResidual.__init__ 0%nat BatchNorm2d InvertedResidual.default_se_layer
      (World {[ 0%nat := InvertedResidualConfig.mk 16 3 16 16 false false 1 1 0 ]} ∅ [])
    = (Ok b, World {[ 0%nat := InvertedResidualConfig.mk 16 3 16 16 false false 1 1 0 ]} ∅ [])
    /\ length (InvertedResidual.conv b) = 2%nat
    /\ forall x acc, never_returns (InvertedResidual.forward b (VSeq [x; acc])).
Proof.
  apply (two_stage_block_never_returns
           (World {[ 0%nat := InvertedResidualConfig.mk 16 3 16 16 false false 1 1 0 ]} ∅ [])
           0%nat (InvertedResidualConfig.mk 16 3 16 16 false false 1 1 0)).
  - reflexivity.
  - left. reflexivity.
  - reflexivity.
  - reflexivity.
Defined.












(** ** Stages in whitening mode 1 or 2 *)

Lemma call_whitening_returns_seq (o : Z) (x : value) :
  returns_only (fun v => exists items, v = VSeq items) (call (InstanceWhitening o) x).
Proof.
  intros w a w' E. unfold call, lift in E. inversion E as [[E1 E2]]. clear E.
  destruct x as [|[|n [|c [|h [|wd [|? ?]]]]]| |]; cbn in E1; inversion E1. eauto.
Qed.

Lemma call_whitening_on_seq (o : Z) (items : list value) :
  never_returns (call (InstanceWhitening o) (VSeq items)).
Proof. intros w. reflexivity. Qed.

Lemma preserves_bind_ret {X A B} (f : world -> X) (a : A) (k : A -> M B) :
  preserves f (k a) -> preserves f (bind (ret a) k).
Proof. intros H. exact H. Qed.

Lemma mode_layer_whitening (m o : Z) : m = 1 \/ m = 2 -> mode_layer m o = InstanceWhitening o.
Proof. intros [-> | ->]; reflexivity. Qed.

(** The loop of a stage built in mode 1 or 2: the whitening layer is met
    twice, once as the child before last, where it is called like any
    other module, and once as the closing step, which then receives the
    pair the first call returned. *)
Lemma CNA_whitening_loop (i o k s g d : Z) (nl : option (Z -> TorchModule))
    (act : option TorchModule) (m : Z) (x w_arr : value) :
  m = 1 \/ m = 2 ->
  let self := ConvNormActivation.__init__ i o k s g d nl act m in
  never_returns (ConvNormActivation.loop self 0 (ConvNormActivation._modules self) x w_arr)
  /\ preserves lists
       (ConvNormActivation.loop self 0 (ConvNormActivation._modules self) x w_arr).
Proof.
  intros Hm self.
  assert (Hmods := CNA_init_modules i o k s g d nl act m). cbv zeta in Hmods.
  rewrite (mode_layer_whitening m o Hm) in Hmods. fold self in Hmods.
  assert (Hiw : ConvNormActivation.iw self = m) by reflexivity.
  assert (Hmode : (1 <=? m) = true /\ (m =? 1) || (m =? 2) = true)
    by (destruct Hm as [-> | ->]; split; reflexivity).
  destruct Hmode as [Hge H12].
  assert (Hlast : forall items,
    never_returns
      (layer <- ConvNormActivation.instance_norm_layer self ;;
       r <- call layer (VSeq items) ;;
       xw <- unpack2 r ;;
       py_append w_arr (snd xw) ;;;
       ret (fst xw))
    /\ preserves lists
      (layer <- ConvNormActivation.instance_norm_layer self ;;
       r <- call layer (VSeq items) ;;
       xw <- unpack2 r ;;
       py_append w_arr (snd xw) ;;;
       ret (fst xw))).
  { intros items. unfold ConvNormActivation.instance_norm_layer. rewrite Hmods.
    destruct act; cbn [get_module String.eqb Ascii.eqb Bool.eqb]; split.
    - apply never_returns_bind_ret. apply never_returns_bind_l. apply call_whitening_on_seq.
    - apply preserves_bind_ret.
      apply (preserves_bind_dep lists (fun _ => False)); [auto with frame| |contradiction].
      apply never_returns_only. apply call_whitening_on_seq.
    - apply never_returns_bind_ret. apply never_returns_bind_l. apply call_whitening_on_seq.
    - apply preserves_bind_ret.
      apply (preserves_bind_dep lists (fun _ => False)); [auto with frame| |contradiction].
      apply never_returns_only. apply call_whitening_on_seq. }
  rewrite Hmods.
  destruct act as [a|]; cbn [ConvNormActivation.loop]; rewrite !Hmods, !Hiw, !Hge, !H12;
    cbn [length Z.of_nat Pos.of_succ_nat Pos.succ]; closed_tests; cbv iota; split.
  - do 3 (apply never_returns_bind_r; intros).
    apply (never_returns_bind_dep (fun v => exists items, v = VSeq items));
      [apply call_whitening_returns_seq|].
    intros v [items ->]. apply never_returns_bind_l. apply (Hlast items).
  - do 3 (apply preserves_bind; [auto with frame|intros]).
    apply (preserves_bind_dep lists (fun v => exists items, v = VSeq items));
      [auto with frame|apply call_whitening_returns_seq|].
    intros v [items ->]. apply preserves_bind; [apply (Hlast items)|auto with frame].
  - do 2 (apply never_returns_bind_r; intros).
    apply (never_returns_bind_dep (fun v => exists items, v = VSeq items));
      [apply call_whitening_returns_seq|].
    intros v [items ->]. apply never_returns_bind_l. apply (Hlast items).
  - do 2 (apply preserves_bind; [auto with frame|intros]).
    apply (preserves_bind_dep lists (fun v => exists items, v = VSeq items));
      [auto with frame|apply call_whitening_returns_seq|].
    intros v [items ->]. apply preserves_bind; [apply (Hlast items)|auto with frame].
Qed.

Lemma CNA_whitening_forward (i o k s g d : Z) (nl : option (Z -> TorchModule))
    (act : option TorchModule) (m : Z) :
  m = 1 \/ m = 2 ->
  let self := ConvNormActivation.__init__ i o k s g d nl act m in
  (forall x acc, never_returns (ConvNormActivation.forward self (VSeq [x; acc])))
  /\ (forall x_tuple, preserves lists (ConvNormActivation.forward self x_tuple)).
Proof.
  intros Hm self. split.
  - intros x acc. unfold ConvNormActivation.forward.
    apply never_returns_bind_ret. change (2 =? 2) with true. cbv iota.
    apply never_returns_bind_ret. apply never_returns_bind_ret.
    apply never_returns_bind_l.
    apply (CNA_whitening_loop i o k s g d nl act m x acc Hm).
  - intros x_tuple. unfold ConvNormActivation.forward.
    apply preserves_bind; [auto with frame|intros n].
    apply preserves_if; [|frame].
    apply preserves_bind; [auto with frame|intros w_arr].
    apply preserves_bind; [auto with frame|intros x].
    apply preserves_bind; [|auto with frame].
    apply (CNA_whitening_loop i o k s g d nl act m x w_arr Hm).
Qed.

(** X9.  A Conv-Norm-Activation stage built in whitening mode 1 or 2
    never returns on a pair and never appends to a list: the whitening
    layer, assigned to [self.instance_norm_layer] after it was made the
    last child, is iterated twice, and its second call is given the pair
    the first one returned. *)
Theorem CNA_whitening_never_returns (i o k s g d : Z) (nl : option (Z -> TorchModule))
    (act : option TorchModule) (m : Z) :
  m = 1 \/ m = 2 ->
  let self := ConvNormActivation.__init__ i o k s g d nl act m in
  (forall x acc, never_returns (ConvNormActivation.forward self (VSeq [x; acc])))
  /\ (forall x_tuple, preserves lists (ConvNormActivation.forward self x_tuple)).
Proof. exact (CNA_whitening_forward i o k s g d nl act m). Qed.

Lemma CNA_whitening_never_returns_witness :
  (forall x acc,
      never_returns
        (ConvNormActivation.forward
           (ConvNormActivation.__init__ 16 72 1 1 1 1 None (Some (Activation ReLU)) 1)
           (VSeq [x; acc])))
  /\ (forall x_tuple,
        preserves lists
          (ConvNormActivation.forward
             (ConvNormActivation.__init__ 16 72 1 1 1 1 None (Some (Activation ReLU)) 1)
             x_tuple)).
Proof.
  apply (CNA_whitening_never_returns 16 72 1 1 1 1 None (Some (Activation ReLU)) 1).
  left. reflexivity.
Defined.

(** ** No forward pass of an assembled network appends *)

Lemma whitening_step_unwhitened_frame (m : Z) layer x w_arr :
  (m =? 1) || (m =? 2) = false -> preserves lists (whitening_step m layer x w_arr).
Proof. intros H. unfold whitening_step. rewrite H. frame. Qed.

Lemma CNA_unwhitened_loop_frame (self : ConvNormActivation.t) :
  (ConvNormActivation.iw self =? 1) || (ConvNormActivation.iw self =? 2) = false ->
  forall rest i x w_arr, preserves lists (ConvNormActivation.loop self i rest x w_arr).
Proof.
  intros H. induction rest as [|[k m] rest IH]; intros i x w_arr; cbn [ConvNormActivation.loop].
  - auto with frame.
  - apply preserves_bind; [|intros; apply IH]. rewrite H.
    pose proof (preserves_CNA_instance_norm_layer lists self). frame.
Qed.

Lemma CNA_unwhitened_frame (self : ConvNormActivation.t) (x_tuple : value) :
  (ConvNormActivation.iw self =? 1) || (ConvNormActivation.iw self =? 2) = false ->
  preserves lists (ConvNormActivation.forward self x_tuple).
Proof.
  intros H. pose proof (CNA_unwhitened_loop_frame self H).
  unfold ConvNormActivation.forward. frame.
Qed.

Lemma conv_layer_forward_none (m : conv_layer) :
  never_returns (conv_layer_forward m VNone)
  /\ preserves lists (conv_layer_forward m VNone).
Proof.
  destruct m; cbn [conv_layer_forward]; split;
    try (apply never_returns_bind_l; apply never_returns_raise);
    intros w; reflexivity.
Qed.

Lemma stage_none (self : InvertedResidual.t) (i : nat) :
  never_returns (InvertedResidual.stage self i VNone)
  /\ preserves lists (InvertedResidual.stage self i VNone).
Proof.
  unfold InvertedResidual.stage. split.
  - do 3 (apply never_returns_bind_r; intros). apply conv_layer_forward_none.
  - frame. apply conv_layer_forward_none.
Qed.

Lemma stage_frame (self : InvertedResidual.t) (i : nat) (x : value) :
  (forall m, In m (InvertedResidual.conv self) ->
             forall y, preserves lists (conv_layer_forward m y)) ->
  preserves lists (InvertedResidual.stage self i x).
Proof.
  intros H. unfold InvertedResidual.stage, sequential_getitem.
  destruct (InvertedResidual.conv self !! i) as [m|] eqn:E; [|intros w; reflexivity].
  assert (Hin : In m (InvertedResidual.conv self))
    by (apply list_elem_of_In; eapply list_elem_of_lookup_2; exact E).
  apply preserves_bind_ret. apply preserves_bind; [auto with frame|intros _].
  apply preserves_bind_ret. apply H. exact Hin.
Qed.

Lemma built_block_stage_modes (c : InvertedResidualConfig.t) (nl : Z -> TorchModule)
    (sq : Z) (m : conv_layer) :
  In m (block_stages c nl
          (if InvertedResidualConfig.use_se c
           then Some (InvertedResidual.default_se_layer
                        (InvertedResidualConfig.expanded_channels c) sq)
           else None)) ->
  (exists cna, m = CNA cna /\ ConvNormActivation.iw cna = InvertedResidualConfig.iw c)
  \/ (exists i s, m = SE (InvertedResidual.default_se_layer i s)).
Proof.
  unfold block_stages. intros H.
  repeat (apply in_app_or in H as [H|H]).
  - destruct (negb _); [|contradiction]. destruct H as [<-|[]]. left. eexists. split; reflexivity.
  - destruct H as [<-|[]]. left. eexists. split; reflexivity.
  - destruct (InvertedResidualConfig.use_se c); [|contradiction].
    destruct H as [<-|[]]. right. eauto.
  - destruct H as [<-|[]]. left. eexists. split; reflexivity.
Qed.

(** A block as [InvertedResidual.__init__] builds it never appends: in a
    mode other than 1 and 2 no stage does, and in mode 1 or 2 its first
    stage, built in the same mode, stops the pass before any append. *)
Lemma built_block_frame (l : loc) (c : InvertedResidualConfig.t) (nl : Z -> TorchModule)
    (sq : Z) (x : value) :
  preserves lists
    (InvertedResidual.forward
       (built_block l c nl
          (if InvertedResidualConfig.use_se c
           then Some (InvertedResidual.default_se_layer
                        (InvertedResidualConfig.expanded_channels c) sq)
           else None)) x).
Proof.
  set (se := if InvertedResidualConfig.use_se c then _ else _).
  set (b := built_block l c nl se).
  set (m := InvertedResidualConfig.iw c).
  destruct ((m =? 1) || (m =? 2)) eqn:Hm.
  - (* whitening mode: the first stage never returns a pair *)
    assert (Hm' : m = 1 \/ m = 2) by (apply orb_true_iff in Hm as [H|H]; apply Z.eqb_eq in H; auto).
    assert (H0 : exists first rest, InvertedResidual.conv b = CNA first :: rest
               /\ (forall y, preserves lists (ConvNormActivation.forward first y))
               /\ (forall y, returns_only (fun v => v = VNone)
                               (ConvNormActivation.forward first y))).
    { cbn [b built_block InvertedResidual.conv]. unfold block_stages.
      destruct (negb _); cbn [app]; eexists; eexists; (split; [reflexivity|]); split.
      all: try (intros y; apply CNA_whitening_forward; exact Hm').
      all: intros y; unfold ConvNormActivation.forward;
        apply returns_only_bind; intros n; apply returns_only_if;
        [ do 2 (apply returns_only_bind; intros);
          apply never_returns_only; apply never_returns_bind_l;
          apply CNA_whitening_loop; exact Hm'
        | apply returns_only_bind; intros; apply returns_only_ret; reflexivity ]. }
    destruct H0 as (first & rest & Hconv & Hf & Hr).
    assert (Hs0 : forall y, preserves lists (InvertedResidual.stage b 0 y)
                            /\ returns_only (fun v => v = VNone) (InvertedResidual.stage b 0 y)).
    { intros y. unfold InvertedResidual.stage, sequential_getitem. rewrite Hconv.
      cbn [lookup list_lookup]. split.
      - apply preserves_bind_ret. apply preserves_bind; [auto with frame|intros _].
        apply preserves_bind_ret. apply Hf.
      - apply returns_only_bind_ret. apply returns_only_bind; intros _.
        apply returns_only_bind_ret. apply Hr. }
    assert (Htail : forall (k : value -> M value) y,
              preserves lists (x1 <- InvertedResidual.stage b 0 y ;;
                               x2 <- InvertedResidual.stage b 1 x1 ;; k x2)).
    { intros k y.
      apply (preserves_bind_dep lists (fun v => v = VNone)); [apply Hs0|apply Hs0|].
      intros a ->.
      apply (preserves_bind_dep lists (fun _ => False));
        [apply stage_none|apply never_returns_only; apply stage_none|contradiction]. }
    unfold InvertedResidual.forward.
    apply preserves_bind; [auto with frame|intros n].
    apply preserves_if; [|frame].
    apply preserves_bind; [auto with frame|intros x0].
    apply preserves_bind; [auto with frame|intros c'].
    apply (preserves_bind_dep lists (fun _ => False)); [| |contradiction].
    + destruct (negb _); apply Htail.
    + destruct (negb _).
      * apply (returns_only_bind_dep (fun v => v = VNone)); [apply Hs0|].
        intros a ->. apply never_returns_only. apply never_returns_bind_l. apply stage_none.
      * apply (returns_only_bind_dep (fun v => v = VNone)); [apply Hs0|].
        intros a ->. apply never_returns_only. apply never_returns_bind_l. apply stage_none.
  - (* no stage appends *)
    assert (Hlayers : forall y, In y (InvertedResidual.conv b) ->
                                forall z, preserves lists (conv_layer_forward y z)).
    { intros y Hin z. apply built_block_stage_modes in Hin as [(cna & -> & Hiw)|(i & s & ->)].
      - apply CNA_unwhitened_frame. rewrite Hiw. exact Hm.
      - apply default_se_forward_frame. }
    pose proof (fun i y => stage_frame b i y Hlayers) as Hstage.
    assert (Hget : forall y, preserves lists
                     (m0 <- sequential_getitem (InvertedResidual.conv b) 3 ;;
                      conv_layer_forward m0 y)).
    { intros y. unfold sequential_getitem.
      destruct (InvertedResidual.conv b !! 3%nat) as [m0|] eqn:E; [|intros w; reflexivity].
      apply preserves_bind_ret. apply Hlayers.
      apply list_elem_of_In. eapply list_elem_of_lookup_2. exact E. }
    pose proof (fun layer y w_arr => whitening_step_unwhitened_frame m layer y w_arr Hm) as Hwh.
    unfold InvertedResidual.forward.
    cbn [b built_block InvertedResidual.iw InvertedResidual.instance_norm_layer
         InvertedResidual.use_res_connect InvertedResidual.cnf]. fold m.
    fold b.
    repeat first
      [ apply Hstage | apply Hget | apply Hwh
      | apply preserves_bind; [|intros]
      | apply preserves_if
      | solve [auto with frame] ].
Qed.

(** Whenever the assembly loop returns, each block it appended came out
    of [InvertedResidual.__init__] with the default squeeze-excitation
    layer. *)
Lemma build_blocks_built nl (iw : list Z) setting :
  forall fc layers w layers' w',
    MobileNetV3.build_blocks nl iw setting fc layers w = (Ok layers', w') ->
    exists blocks,
      layers' = layers ++ map FBlock blocks
      /\ Forall (fun b => exists u u' l,
                   InvertedResidual.__init__ l nl InvertedResidual.default_se_layer u
                   = (Ok b, u')) blocks.
Proof.
  induction setting as [|cnf rest IH]; intros fc layers w layers' w' H.
  - cbn in H. inversion H; subst. exists []. cbn. rewrite app_nil_r. auto.
  - cbn [MobileNetV3.build_blocks] in H.
    destruct (list_index (fc + 1) MobileNetV3.iw_layer).
    + apply bind_inv_ok in H as (v & w1 & _ & H).
      apply bind_inv_ok in H as (u & w2 & _ & H).
      apply bind_inv_ok in H as (b & w3 & Hb & H).
      apply IH in H as (blocks & -> & Hall).
      exists (b :: blocks). rewrite <- app_assoc. split; [reflexivity|].
      constructor; eauto.
    + apply bind_inv_ok in H as (u & w2 & _ & H).
      apply bind_inv_ok in H as (b & w3 & Hb & H).
      apply IH in H as (blocks & -> & Hall).
      exists (b :: blocks). rewrite <- app_assoc. split; [reflexivity|].
      constructor; eauto.
Qed.

Lemma initialised_block_frame (u u' : world) (l : loc) (nl : Z -> TorchModule)
    (b : InvertedResidual.t) (x : value) :
  InvertedResidual.__init__ l nl InvertedResidual.default_se_layer u = (Ok b, u') ->
  preserves lists (InvertedResidual.forward b x).
Proof.
  intros H. apply IR_init_inv in H as (c & sq & _ & _ & ->). apply built_block_frame.
Qed.

(** The lists of the store across the forward passes of an assembled
    network. *)
Lemma assembled_forward_frame (setting : list loc) (last_channel num_classes : Z)
    (nl : option (Z -> TorchModule)) (iw : list Z) (w w' : world) (model : MobileNetV3.t) :
  MobileNetV3.__init__ setting last_channel num_classes nl iw w = (Ok model, w') ->
  forall x, preserves lists (features_forward model x)
            /\ preserves lists (MobileNetV3.forward model x).
Proof.
  intros Hinit.
  assert (Hfeat : forall x, preserves lists (features_forward model x)).
  { unfold MobileNetV3.__init__ in Hinit.
    destruct setting as [|first rest]; [discriminate|].
    apply bind_inv_ok in Hinit as (c0 & w1 & _ & Hinit).
    apply bind_inv_ok in Hinit as (layers & w2 & Hb & Hinit).
    apply bind_inv_ok in Hinit as (cl & w3 & _ & Hinit).
    inversion Hinit; subst model w'. clear Hinit.
    apply build_blocks_built in Hb as (blocks & -> & Hall).
    intros x. unfold features_forward. cbn [MobileNetV3.features].
    assert (Hlayer : forall m,
              In m (([FConv (ConvNormActivation.__init__ 3
                               (InvertedResidualConfig.input_channels c0) 3 2 1 1
                               (Some match nl with Some f => f | None => BatchNorm2d end)
                               (Some (Activation Hardswish)) 0)]
                     ++ map FBlock blocks)
                    ++ [FConv (ConvNormActivation.__init__
                                 (InvertedResidualConfig.out_channels cl)
                                 (6 * InvertedResidualConfig.out_channels cl) 1 1 1 1
                                 (Some match nl with Some f => f | None => BatchNorm2d end)
                                 (Some (Activation Hardswish)) 0)]) ->
              forall y, preserves lists (feature_layer_forward m y)).
    { intros m Hin y. apply in_app_or in Hin as [Hin|[<-|[]]].
      - apply in_app_or in Hin as [[<-|[]]|Hin].
        + apply CNA_unwhitened_frame. reflexivity.
        + apply in_map_iff in Hin as (b & <- & Hb).
          rewrite Forall_forall in Hall. apply list_elem_of_In in Hb.
          destruct (Hall b Hb) as (u & u' & l & Hu).
          eapply initialised_block_frame. exact Hu.
      - apply CNA_unwhitened_frame. reflexivity. }
    revert x Hlayer. generalize (([FConv (ConvNormActivation.__init__ 3
                               (InvertedResidualConfig.input_channels c0) 3 2 1 1
                               (Some match nl with Some f => f | None => BatchNorm2d end)
                               (Some (Activation Hardswish)) 0)]
                     ++ map FBlock blocks)
                    ++ [FConv (ConvNormActivation.__init__
                                 (InvertedResidualConfig.out_channels cl)
                                 (6 * InvertedResidualConfig.out_channels cl) 1 1 1 1
                                 (Some match nl with Some f => f | None => BatchNorm2d end)
                                 (Some (Activation Hardswish)) 0)]) as ls.
    induction ls as [|m ls IH]; intros x Hlayer; cbn [sequential_forward].
    - auto with frame.
    - apply preserves_bind; [apply Hlayer; left; reflexivity|].
      intros a. apply IH. intros m' Hin. apply Hlayer. right. exact Hin. }
  intros x. split; [apply Hfeat|].
  unfold MobileNetV3.forward, MobileNetV3._forward_impl.
  apply preserves_bind; [apply Hfeat|]. intros. frame.
  apply preserves_sequential_forward. auto with frame.
Qed.

(** X16.  On a network that assembly returned, no forward pass ever appends to
    a list of the store, whatever the selector and the input: the
    accumulator comes out of [features] and of [forward] as it went in. *)
Theorem assembled_forward_never_appends (setting : list loc) (last_channel num_classes : Z)
    (nl : option (Z -> TorchModule)) (iw : list Z) (w w' : world) (model : MobileNetV3.t) :
  MobileNetV3.__init__ setting last_channel num_classes nl iw w = (Ok model, w') ->
  forall x, preserves lists (features_forward model x)
            /\ preserves lists (MobileNetV3.forward model x).
Proof. exact (assembled_forward_frame setting last_channel num_classes nl iw w w' model). Qed.

Lemma assembled_forward_never_appends_witness :
  exists model,
    fst (small_model [0; 0; 0; 1; 2; 1; 0] empty_world) = Ok model
    /\ forall x, preserves lists (features_forward model x)
                 /\ preserves lists (MobileNetV3.forward model x).
Proof.
  eexists. split; [vm_compute; reflexivity|].
  eapply (assembled_forward_never_appends small_setting 1024 1000 None [0; 0; 0; 1; 2; 1; 0]
            small_world).
  vm_compute. reflexivity.
Defined.

(** ** Errors during assembly *)

Lemma IR_init_bad_stride (w : world) (l : loc) (c : InvertedResidualConfig.t) nl se :
  configs w !! l = Some c ->
  ~ (InvertedResidualConfig.stride c = 1 \/ InvertedResidualConfig.stride c = 2) ->
  InvertedResidual.__init__ l nl se w = (Raise (ValueError "illegal stride value"), w).
Proof.
  intros Hl Hbad. unfold InvertedResidual.__init__.
  rewrite (bind_ok _ _ w c w) by (unfold read_config; rewrite Hl; reflexivity).
  destruct ((1 <=? InvertedResidualConfig.stride c)
            && (InvertedResidualConfig.stride c <=? 2)) eqn:Hs; [|reflexivity].
  apply stride_check_spec in Hs. contradiction.
Qed.

Lemma build_blocks_bad_stride nl (iw : list Z) :
  (7 <= length iw)%nat ->
  forall setting fc layers w,
    (forall l, In l setting -> exists c, configs w !! l = Some c /\ squeeze_defined c) ->
    (exists l c, In l setting /\ configs w !! l = Some c
                 /\ ~ (InvertedResidualConfig.stride c = 1
                       \/ InvertedResidualConfig.stride c = 2)) ->
    fst (MobileNetV3.build_blocks nl iw setting fc layers w)
    = Raise (ValueError "illegal stride value").
Proof.
  intros Hlen. induction setting as [|cnf rest IH]; intros fc layers w Hall Hbad.
  - destruct Hbad as (l & c & [] & _).
  - rewrite build_blocks_step by exact Hlen.
    destruct (Hall cnf (or_introl eq_refl)) as (c & Hc & Hq).
    set (v := assigned_mode iw (fc + 1)).
    set (w1 := World (<[cnf := InvertedResidualConfig.set_iw c v]> (configs w))
                     (lists w) (stdout w)).
    rewrite (bind_ok _ _ w tt w1) by (apply assign_iw_run; exact Hc).
    assert (Hc1 : configs w1 !! cnf = Some (InvertedResidualConfig.set_iw c v))
      by (unfold w1; cbn [configs]; apply lookup_insert_eq).
    destruct (Z.eq_dec (InvertedResidualConfig.stride c) 1) as [E1|N1];
      [|destruct (Z.eq_dec (InvertedResidualConfig.stride c) 2) as [E2|N2]].
    3: { rewrite (bind_raise _ _ w1 (ValueError "illegal stride value") w1); [reflexivity|].
         apply (IR_init_bad_stride w1 cnf _ nl _ Hc1). cbn. lia. }
    all: assert (Hs : InvertedResidualConfig.stride (InvertedResidualConfig.set_iw c v) = 1
                      \/ InvertedResidualConfig.stride (InvertedResidualConfig.set_iw c v) = 2)
           by (cbn; lia);
      destruct (IR_init_built w1 cnf _ nl InvertedResidual.default_se_layer Hc1 Hs Hq) as [sq Hb];
      rewrite (bind_ok _ _ _ _ _ Hb);
      apply IH;
      [ intros l Hin; unfold w1; cbn [configs];
        destruct (decide (cnf = l)) as [->|Hne];
        [rewrite lookup_insert_eq; eexists; split; [reflexivity|exact Hq]
        |rewrite lookup_insert_ne by exact Hne; apply Hall; right; exact Hin]
      | destruct Hbad as (l & c' & [<-|Hin] & Hl & Hbad);
        [ rewrite Hc in Hl; inversion Hl; subst c'; exfalso; apply Hbad; lia
        | unfold w1; cbn [configs];
          destruct (decide (cnf = l)) as [->|Hne];
          [ rewrite Hc in Hl; inversion Hl; subst c'; exfalso; apply Hbad; lia
          | exists l, c'; rewrite lookup_insert_ne by exact Hne; auto ] ] ].
Qed.

(** X17.  Assembly of configs one of which has a stride other than 1 and 2
    raises the block's configuration error, wherever in the sequence that
    config stands (the squeeze widths of the configs being defined, so
    that no block before it fails for another reason). *)
Theorem assembly_rejects_bad_stride (setting : list loc) (last_channel num_classes : Z)
    (nl : option (Z -> TorchModule)) (iw : list Z) (w : world) :
  (forall l, In l setting -> exists c, configs w !! l = Some c /\ squeeze_defined c) ->
  (exists l c, In l setting /\ configs w !! l = Some c
               /\ ~ (InvertedResidualConfig.stride c = 1
                     \/ InvertedResidualConfig.stride c = 2)) ->
  (7 <= length iw)%nat ->
  fst (MobileNetV3.__init__ setting last_channel num_classes nl iw w)
  = Raise (ValueError "illegal stride value").
Proof.
  intros Hall Hbad Hlen. unfold MobileNetV3.__init__.
  destruct setting as [|first rest]; [destruct Hbad as (l & c & [] & _)|].
  destruct (Hall first (or_introl eq_refl)) as (c0 & Hc0 & _).
  rewrite (bind_ok _ _ w c0 w) by (unfold read_config; rewrite Hc0; reflexivity).
  pose proof (build_blocks_bad_stride
                (match nl with None => BatchNorm2d | Some f => f end) iw Hlen
                (first :: rest) 0
                [FConv (ConvNormActivation.__init__ 3 (InvertedResidualConfig.input_channels c0)
                          3 2 1 1
                          (Some match nl with None => BatchNorm2d | Some f => f end)
                          (Some (Activation Hardswish)) 0)] w Hall Hbad) as H.
  unfold bind at 1.
  destruct (MobileNetV3.build_blocks _ _ _ _ _ _) as [[ls|e] w1]; cbn in H; [discriminate|].
  cbn. inversion H. reflexivity.
Qed.

Lemma assembly_rejects_bad_stride_witness :
  fst (MobileNetV3.__init__ [0%nat] 1024 1000 None MobileNetV3.default_iw (sample_world 3 0))
  = Raise (ValueError "illegal stride value").
Proof.
  apply (assembly_rejects_bad_stride [0%nat] 1024 1000 None MobileNetV3.default_iw
           (sample_world 3 0)).
  - intros l [<-|[]]. eexists. split; [reflexivity|].
    intros _. eexists. vm_compute. reflexivity.
  - exists 0%nat, (sample_config 3 0). split; [left; reflexivity|].
    split; [reflexivity|]. cbn. lia.
  - cbn. lia.
Defined.

(** X18.  With a selector of fewer than four entries and at least two valid
    configs, assembly raises [IndexError] at the second config, after the
    first config's [iw] has been set to 0 and nothing else changed. *)
Theorem assembly_short_selector (first second : loc) (rest : list loc)
    (last_channel num_classes : Z) (nl : option (Z -> TorchModule)) (iw : list Z)
    (w : world) (c0 : InvertedResidualConfig.t) :
  configs w !! first = Some c0 ->
  InvertedResidualConfig.stride c0 = 1 \/ InvertedResidualConfig.stride c0 = 2 ->
  squeeze_defined c0 ->
  (length iw <= 3)%nat ->
  MobileNetV3.__init__ (first :: second :: rest) last_channel num_classes nl iw w
  = (Raise (IndexError "list index out of range"),
     World (<[first := InvertedResidualConfig.set_iw c0 0]> (configs w)) (lists w) (stdout w)).
Proof.
  intros Hc0 Hs Hq Hlen. unfold MobileNetV3.__init__.
  rewrite (bind_ok _ _ w c0 w) by (unfold read_config; rewrite Hc0; reflexivity).
  apply bind_raise. cbn [MobileNetV3.build_blocks].
  change (list_index (0 + 1) MobileNetV3.iw_layer) with (@None nat). cbv iota.
  set (w1 := World (<[first := InvertedResidualConfig.set_iw c0 0]> (configs w))
                   (lists w) (stdout w)).
  rewrite (bind_ok _ _ w tt w1) by (apply assign_iw_run; exact Hc0).
  assert (Hc1 : configs w1 !! first = Some (InvertedResidualConfig.set_iw c0 0))
    by (unfold w1; cbn [configs]; apply lookup_insert_eq).
  destruct (IR_init_built w1 first _ (match nl with None => BatchNorm2d | Some f => f end)
              InvertedResidual.default_se_layer Hc1 Hs Hq) as [sq Hb].
  rewrite (bind_ok _ _ _ _ _ Hb).
  cbn [MobileNetV3.build_blocks].
  change (list_index (0 + 1 + 1) MobileNetV3.iw_layer) with (Some 1%nat). cbv iota.
  apply bind_raise. unfold list_getitem.
  rewrite (lookup_ge_None_2 iw (1 + 2)) by lia. reflexivity.
Qed.

Lemma assembly_short_selector_witness :
  MobileNetV3.__init__ (0%nat :: 0%nat :: []) 1024 1000 None [1; 1; 1] (sample_world 2 1)
  = (Raise (IndexError "list index out of range"),
     World (<[0%nat := InvertedResidualConfig.set_iw (sample_config 2 1) 0]>
              (configs (sample_world 2 1)))
           (lists (sample_world 2 1)) (stdout (sample_world 2 1))).
Proof.
  apply (assembly_short_selector 0%nat 0%nat [] 1024 1000 None [1; 1; 1] (sample_world 2 1)
           (sample_config 2 1)).
  - reflexivity.
  - right. reflexivity.
  - intros _. eexists. vm_compute. reflexivity.
  - cbn. lia.
Defined.

(** X19.  Construction is silent and leaves the accumulators alone: neither
    building a block nor assembling a network prints or touches a list,
    and building a block changes nothing in the store at all. *)
Theorem construction_frame :
  (forall l nl se, preserves (fun w => w) (InvertedResidual.__init__ l nl se))
  /\ (forall setting last_channel num_classes nl iw,
        preserves lists (MobileNetV3.__init__ setting last_channel num_classes nl iw)
        /\ preserves stdout (MobileNetV3.__init__ setting last_channel num_classes nl iw)).
Proof.
  split; [intros; apply preserves_InvertedResidual_init|].
  intros. split; apply preserves_MobileNetV3_init; auto with frame.
Qed.

(** ** The configs of the small architecture *)











(** ** Squeeze-excitation in whitening mode 1 or 2 *)

(** X10.  A squeeze-excitation block built in mode 1 or 2 never returns on a
    pair and never appends: [_scale] already applies the whitening layer,
    whose result is a pair, and hands that pair to the gating
    activation. *)
Theorem SE_whitening_never_returns (i s : Z) (a : TorchModule) (sa : activation_fn) (m : Z) :
  m = 1 \/ m = 2 ->
  let self := SqueezeExcitation.__init__ i s a sa m in
  (forall x acc, never_returns (SqueezeExcitation.forward self (VSeq [x; acc])))
  /\ (forall x_tuple, preserves lists (SqueezeExcitation.forward self x_tuple)).
Proof.
  intros Hm self.
  assert (Hlayer : SqueezeExcitation.instance_norm_layer self = InstanceWhitening s)
    by (destruct Hm as [-> | ->]; reflexivity).
  assert (Hscale : forall x, never_returns (SqueezeExcitation._scale self x)).
  { intros x. unfold SqueezeExcitation._scale. rewrite Hlayer.
    do 4 (apply never_returns_bind_r; intros).
    apply (never_returns_bind_dep (fun v => exists items, v = VSeq items));
      [apply call_whitening_returns_seq|].
    intros v [items ->]. intros w. reflexivity. }
  split.
  - intros x acc. unfold SqueezeExcitation.forward.
    apply never_returns_bind_ret. change (2 =? 2) with true. cbv iota.
    apply never_returns_bind_ret. apply never_returns_bind_ret.
    apply never_returns_bind_l. apply Hscale.
  - intros x_tuple. unfold SqueezeExcitation.forward.
    apply preserves_bind; [auto with frame|intros n].
    apply preserves_if; [|frame].
    apply preserves_bind; [auto with frame|intros x].
    apply preserves_bind; [auto with frame|intros w_arr].
    apply (preserves_bind_dep lists (fun _ => False)); [| |contradiction].
    + unfold SqueezeExcitation._scale. frame.
    + apply never_returns_only. apply Hscale.
Qed.

Lemma SE_whitening_never_returns_witness :
  (forall x acc,
      never_returns
        (SqueezeExcitation.forward
           (SqueezeExcitation.__init__ 16 8 (Activation ReLU) Hardsigmoid 2) (VSeq [x; acc])))
  /\ (forall x_tuple,
        preserves lists
          (SqueezeExcitation.forward
             (SqueezeExcitation.__init__ 16 8 (Activation ReLU) Hardsigmoid 2) x_tuple)).
Proof.
  apply (SE_whitening_never_returns 16 8 (Activation ReLU) Hardsigmoid 2).
  right. reflexivity.
Defined.

(** ** A pass over a network with a whitened block (C3) *)

(** The first stage of a block is a Conv-Norm-Activation stage built in
    the mode of the block's config. *)
Lemma built_block_first_stage (l : loc) (c : InvertedResidualConfig.t)
    (nl : Z -> TorchModule) (se : option SqueezeExcitation.t) :
  exists i o k s g d a,
    InvertedResidual.conv (built_block l c nl se) !! 0%nat
    = Some (CNA (ConvNormActivation.__init__ i o k s g d (Some nl) a
                   (InvertedResidualConfig.iw c))).
Proof.
  cbn [built_block InvertedResidual.conv]. unfold block_stages.
  destruct (negb _); cbn [app]; do 7 eexists; reflexivity.
Qed.

(** A block built in mode 1 or 2 never returns on a pair: its first stage
    does not. *)
Lemma whitened_block_never_returns (l : loc) (c : InvertedResidualConfig.t)
    (nl : Z -> TorchModule) (se : option SqueezeExcitation.t) :
  InvertedResidualConfig.iw c = 1 \/ InvertedResidualConfig.iw c = 2 ->
  forall x acc, never_returns (InvertedResidual.forward (built_block l c nl se) (VSeq [x; acc])).
Proof.
  intros Hm x acc.
  destruct (built_block_first_stage l c nl se) as (i & o & k & s & g & d & a & H0).
  assert (S0 : never_returns (InvertedResidual.stage (built_block l c nl se) 0 (VSeq [x; acc]))).
  { intros w. rewrite (stage_unfold _ _ _ _ _ H0). cbn [conv_layer_forward].
    apply (proj1 (CNA_whitening_forward i o k s g d (Some nl) a _ Hm)). }
  unfold InvertedResidual.forward.
  apply never_returns_bind_ret. change (2 =? 2) with true. cbv iota.
  apply never_returns_bind_ret. apply never_returns_bind_r; intros c'.
  apply never_returns_bind_l.
  destruct (negb _); apply never_returns_bind_l; exact S0.
Qed.

Lemma block_forward_none (b : InvertedResidual.t) :
  never_returns (InvertedResidual.forward b VNone).
Proof.
  unfold InvertedResidual.forward. apply never_returns_bind_l. apply never_returns_raise.
Qed.

(** A sequence that holds a block which never returns on a pair never
    returns on a pair either: what reaches the block is [None] or a pair. *)
Lemma sequential_forward_blocked (pre post : list feature_layer) (b : InvertedResidual.t) :
  (forall x acc, never_returns (InvertedResidual.forward b (VSeq [x; acc]))) ->
  forall x, none_or_pair x ->
            never_returns (sequential_forward feature_layer_forward (pre ++ FBlock b :: post) x).
Proof.
  intros Hb x Hx.
  eapply never_returns_ext; [intros w; apply sequential_forward_app|].
  apply (never_returns_bind_dep none_or_pair);
    [apply sequential_forward_none_or_pair; exact Hx|].
  intros v [->|(y & acc & ->)]; cbn [sequential_forward feature_layer_forward];
    apply never_returns_bind_l; [apply block_forward_none|apply Hb].
Qed.

(** Every block of an assembled network came out of
    [InvertedResidual.__init__]. *)
Lemma assembled_blocks_built (setting : list loc) (last_channel num_classes : Z)
    (nl : option (Z -> TorchModule)) (iw : list Z) (w w' : world) (model : MobileNetV3.t) :
  MobileNetV3.__init__ setting last_channel num_classes nl iw w = (Ok model, w') ->
  forall b, In (FBlock b) (MobileNetV3.features model) ->
            exists l c f se, b = built_block l c f se.
Proof.
  intros Hinit b Hin. unfold MobileNetV3.__init__ in Hinit.
  destruct setting as [|first rest]; [discriminate|].
  apply bind_inv_ok in Hinit as (c0 & w1 & _ & Hinit).
  apply bind_inv_ok in Hinit as (layers & w2 & Hb & Hinit).
  apply bind_inv_ok in Hinit as (cl & w3 & _ & Hinit).
  inversion Hinit; subst model w'. clear Hinit.
  apply build_blocks_built in Hb as (blocks & -> & Hall).
  cbn [MobileNetV3.features] in Hin.
  apply in_app_or in Hin as [Hin|[Hin|[]]]; [|discriminate Hin].
  apply in_app_or in Hin as [[Hin|[]]|Hin]; [discriminate Hin|].
  apply in_map_iff in Hin as (b' & E & Hb'). inversion E; subst b'.
  rewrite Forall_forall in Hall. apply list_elem_of_In in Hb'.
  destruct (Hall b Hb') as (u & u' & l & Hu).
  apply IR_init_inv in Hu as (c & sq & _ & _ & ->). eauto.
Qed.

(** A filter that keeps something counts at least one. *)
Lemma filter_length_pos {A} (f : A -> bool) (x : A) (xs : list A) :
  In x xs -> f x = true -> (1 <= length (List.filter f xs))%nat.
Proof.
  intros Hin Hf.
  assert (H : In x (List.filter f xs)) by (apply List.filter_In; auto).
  destruct (List.filter f xs); [destruct H|cbn; lia].
Qed.

Lemma whitened_blocks_pos (model : MobileNetV3.t) :
  (1 <= whitened_blocks model)%nat <->
  exists b, In (FBlock b) (MobileNetV3.features model)
            /\ (InvertedResidual.iw b = 1 \/ InvertedResidual.iw b = 2).
Proof.
  unfold whitened_blocks. split.
  - intros H. destruct (List.filter _ _) as [|m ms] eqn:E; [cbn in H; lia|].
    assert (Hin : In m (m :: ms)) by (left; reflexivity).
    rewrite <- E in Hin. apply List.filter_In in Hin as [Hin Hf].
    destruct m as [s|b]; [discriminate|]. exists b. split; [exact Hin|].
    apply orb_true_iff in Hf as [Hf|Hf]; apply Z.eqb_eq in Hf; auto.
  - intros (b & Hin & Hm). eapply filter_length_pos; [exact Hin|].
    cbn beta iota. destruct Hm as [-> | ->]; reflexivity.
Qed.

(** On an assembled network with a block in mode 1 or 2, [features] never
    returns on a pair. *)
Lemma whitened_features_never_return (setting : list loc) (last_channel num_classes : Z)
    (nl : option (Z -> TorchModule)) (iw : list Z) (w w' : world) (model : MobileNetV3.t) :
  MobileNetV3.__init__ setting last_channel num_classes nl iw w = (Ok model, w') ->
  (1 <= whitened_blocks model)%nat ->
  forall x acc, never_returns (features_forward model (VSeq [x; acc])).
Proof.
  intros Hinit Hw x acc. apply whitened_blocks_pos in Hw as (b & Hin & Hm).
  destruct (assembled_blocks_built _ _ _ _ _ _ _ _ Hinit b Hin) as (l & c & f & se & ->).
  cbn [built_block InvertedResidual.iw] in Hm.
  apply in_split in Hin as (pre & post & Hfeat).
  unfold features_forward. rewrite Hfeat.
  apply sequential_forward_blocked.
  - apply whitened_block_never_returns. exact Hm.
  - right. eexists. eexists. reflexivity.
Qed.

(** The closing whitening step of a block in mode 1 or 2, given a feature
    map, would append exactly one entry. *)
Lemma whitened_block_closing_step (setting : list loc) (last_channel num_classes : Z)
    (nl : option (Z -> TorchModule)) (iw : list Z) (w w' : world) (model : MobileNetV3.t) :
  MobileNetV3.__init__ setting last_channel num_classes nl iw w = (Ok model, w') ->
  forall b, In (FBlock b) (MobileNetV3.features model) ->
    InvertedResidual.iw b = 1 \/ InvertedResidual.iw b = 2 ->
    forall n c h wd (l : loc) (u : world),
      whitening_step (InvertedResidual.iw b) (InvertedResidual.instance_norm_layer b)
        (VTensor [n; c; h; wd]) (VRef l) u
      = (Ok (VTensor [n; c; h; wd]),
         World (configs u) (<[l := accumulator u l ++ [VTensor [n; c; c]]]> (lists u))
               (stdout u)).
Proof.
  intros Hinit b Hin Hm n c h wd l u.
  destruct (assembled_blocks_built _ _ _ _ _ _ _ _ Hinit b Hin) as (l0 & c0 & f & se & ->).
  cbn [built_block InvertedResidual.iw InvertedResidual.instance_norm_layer] in *.
  assert (E : block_mode_layer (InvertedResidualConfig.iw c0)
                (InvertedResidualConfig.out_channels c0)
              = InstanceWhitening (InvertedResidualConfig.out_channels c0))
    by (unfold block_mode_layer; destruct Hm as [-> | ->]; reflexivity).
  rewrite E. apply whitening_step_appends. exact Hm.
Qed.

(** Assembly from valid configs, with the mode of each block. *)
Lemma assembly_block_modes (setting : list loc) (last_channel num_classes : Z)
    (nl : option (Z -> TorchModule)) (iw : list Z) (w : world) :
  (forall l, In l setting -> valid_config w l) ->
  setting <> [] ->
  (7 <= length iw)%nat ->
  exists model w',
    MobileNetV3.__init__ setting last_channel num_classes nl iw w = (Ok model, w')
    /\ forall j : nat, (j < length setting)%nat ->
         exists b, In (FBlock b) (MobileNetV3.features model)
                   /\ InvertedResidual.iw b = assigned_mode iw (Z.of_nat (S j)).
Proof.
  intros Hv Hne Hlen. destruct setting as [|first rest]; [contradiction|]. clear Hne.
  unfold MobileNetV3.__init__.
  destruct (Hv first (or_introl eq_refl)) as (c0 & Hc0 & _).
  rewrite (bind_ok _ _ w c0 w) by (unfold read_config; rewrite Hc0; reflexivity).
  set (norm := match nl with None => BatchNorm2d | Some f => f end).
  set (stem := FConv _).
  destruct (build_blocks_ok norm iw Hlen (first :: rest) 0 [stem] w Hv)
    as (blocks & w' & Hrun & Hl & Hm & Hf & _).
  rewrite (bind_ok _ _ _ _ _ Hrun).
  destruct (configs_but_iw_lookup w w' (List.last (first :: rest) first) Hf) as [cl Hcl].
  { destruct (Hv _ (last_in rest first)) as (c & Hc & _). eauto. }
  rewrite (bind_ok _ _ w' cl w') by (unfold read_config; rewrite Hcl; reflexivity).
  eexists. eexists. split; [reflexivity|].
  cbn [MobileNetV3.features]. intros j Hj.
  destruct (lookup_lt_is_Some_2 blocks j) as [b Hb]; [lia|].
  exists b. split.
  - apply in_or_app. left. apply in_or_app. right. apply in_map.
    apply list_elem_of_In. eapply list_elem_of_lookup_2. exact Hb.
  - rewrite (Hm j b Hb). f_equal. lia.
Qed.

Lemma small_model_unfold (iw : list Z) :
  small_model iw empty_world = MobileNetV3.__init__ small_setting 1024 1000 None iw small_world.
Proof.
  unfold small_model.
  rewrite (bind_ok _ _ empty_world (small_setting, 1024) small_world)
    by (vm_compute; reflexivity).
  reflexivity.
Qed.

(** C3.  The accumulator does not grow with the blocks in mode 1 or 2.
    For every selector of at least 7 entries the small network is
    assembled; a selected mode 1 or 2 at index 3, 4 or 5 gives it a block
    in that mode, whose closing whitening step would by itself append one
    entry for a feature map; but as soon as the network holds such a
    block, [features] raises on every (tensor, accumulator) pair and every
    list of the store is as it was: the whitening layer of the block's
    first stage sits twice in the stage's sequence, and the second call is
    handed the pair the first one returned. *)
Theorem whitened_pass_raises (iw : list Z) :
  (7 <= length iw)%nat ->
  exists model w1,
    small_model iw empty_world = (Ok model, w1)
    /\ (forall (k : nat) (m : Z),
          k = 3%nat \/ k = 4%nat \/ k = 5%nat -> iw !! k = Some m -> m = 1 \/ m = 2 ->
          (1 <= whitened_blocks model)%nat)
    /\ (forall b, In (FBlock b) (MobileNetV3.features model) ->
          InvertedResidual.iw b = 1 \/ InvertedResidual.iw b = 2 ->
          forall n c h wd (l : loc) (u : world),
            whitening_step (InvertedResidual.iw b) (InvertedResidual.instance_norm_layer b)
              (VTensor [n; c; h; wd]) (VRef l) u
            = (Ok (VTensor [n; c; h; wd]),
               World (configs u) (<[l := accumulator u l ++ [VTensor [n; c; c]]]> (lists u))
                     (stdout u)))
    /\ ((1 <= whitened_blocks model)%nat ->
        forall x acc u,
          is_raise (fst (features_forward model (VSeq [x; acc]) u)) = true
          /\ lists (snd (features_forward model (VSeq [x; acc]) u)) = lists u).
Proof.
  intros Hlen. rewrite small_model_unfold.
  destruct (assembly_block_modes small_setting 1024 1000 None iw small_world)
    as (model & w1 & Hinit & Hmodes);
    [exact small_setting_valid|discriminate|exact Hlen|].
  exists model, w1. split; [exact Hinit|]. split; [|split].
  - intros k m Hk Hsel Hm. apply whitened_blocks_pos.
    assert (Hp : exists j : nat, (j < length small_setting)%nat
                                 /\ assigned_mode iw (Z.of_nat (S j)) = m).
    { destruct Hk as [->|[->| ->]];
        [exists 1%nat; destruct (assigned_mode_positions iw 2) as (P & _); [lia|]
        |exists 6%nat; destruct (assigned_mode_positions iw 7) as (_ & P & _); [lia|]
        |exists 10%nat; destruct (assigned_mode_positions iw 11) as (_ & _ & P & _); [lia|]];
        (split; [cbn; lia|]);
        (etransitivity; [apply P; reflexivity|]); rewrite Hsel; reflexivity. }
    destruct Hp as (j & Hj & Hmode).
    destruct (Hmodes j Hj) as (b & Hin & Hb).
    exists b. split; [exact Hin|]. rewrite Hb, Hmode. exact Hm.
  - exact (whitened_block_closing_step _ _ _ _ _ _ _ _ Hinit).
  - intros Hw x acc u. split.
    + exact (whitened_features_never_return _ _ _ _ _ _ _ _ Hinit Hw x acc u).
    + exact (proj1 (assembled_forward_frame _ _ _ _ _ _ _ _ Hinit (VSeq [x; acc])) u).
Qed.

Lemma whitened_pass_raises_witness :
  exists model w1,
    small_model [0; 0; 0; 1; 0; 0; 0] empty_world = (Ok model, w1)
    /\ (1 <= whitened_blocks model)%nat
    /\ is_raise (fst (features_forward model image_pair
                        (World (configs w1) {[0%nat := []]} []))) = true
    /\ accumulator (snd (features_forward model image_pair
                           (World (configs w1) {[0%nat := []]} []))) 0%nat = [].
Proof.
  destruct (whitened_pass_raises [0; 0; 0; 1; 0; 0; 0]) as (model & w1 & Hm & Hw & _ & Hp);
    [cbn; lia|].
  exists model, w1. split; [exact Hm|].
  assert (H1 : (1 <= whitened_blocks model)%nat)
    by (apply (Hw 3%nat 1); [left; reflexivity|reflexivity|left; reflexivity]).
  split; [exact H1|].
  destruct (Hp H1 (VTensor [1; 3; 224; 224]) (VRef 0%nat)
              (World (configs w1) {[0%nat := []]} [])) as [Hr Hl].
  split; [exact Hr|].
  unfold accumulator, image_pair. rewrite Hl. reflexivity.
Defined.
